(** * arRPC: process detection engine and local transports

    A shallow embedding of [src/process/index.ts] (the scan loop of
    [ProcessServer]), [src/process/downloader.ts] ([transformObject]) and of
    the two transports (the native framed socket server [IPCServer] and the
    WebSocket server [WSServer]), with the properties the specification
    states about them.

    Conventions of the embedding.
    - A JavaScript string is a [string]: a sequence of code units below 256,
      so case mapping and white space are those of Latin-1.
    - A [number] holding an integer (pids, timestamps, lengths, frame
      types) is a [Z]; so are the numbers inside decoded JSON.  Only an
      integer below 10^21 in magnitude prints as its decimal digits
      ([Json.plain]); a statement that prints a number says so.
    - A [Record<string, T>] is an association list in creation order (module
      [Obj]) and holds own properties only.  A read of one of the names
      [Object.prototype] defines ([Obj.inherited]) reaches the prototype
      instead; a statement about what is stored under a game id excludes
      those names.  A [Map] read only through [get]/[set]/[delete]/[size]
      is a [gmap]; a [Map] whose iteration order is observed is an
      association list as well.
    - [Date.now()] is an oracle [nat -> Z] indexed by the number of calls
      made so far; the calls a function makes are counted in its result.
    - A socket's read side is the sequence of bytes that arrived and were
      not consumed, kept below the stream's high-water mark; the
      [readable] listener runs on every arrival.  A [socket.unshift] that
      follows a [read] which emptied the buffer, or a [read(0)], makes the
      stream emit [readable] again on the next tick: the listener then
      runs without end and the process serves nothing else
      ([IPC.Spinning]).
    - [JSON.parse] and [JSON.stringify] are the two operations of a
      [Codec]; the handlers passed to the servers are taken not to throw,
      and their calls are recorded in order. *)

From Stdlib Require Import ZArith Ascii String List Lia.
From Stdlib.Strings Require Import Byte.
From Stdlib Require Import DecimalString.
From stdpp Require Import base option numbers list sorting strings gmap.

Local Open Scope Z_scope.

(** ** JavaScript string primitives *)

Module Js.

(** [s.startsWith(p)] *)
Fixpoint startsWith (s p : string) : bool :=
  match p, s with
  | EmptyString, _ => true
  | String _ _, EmptyString => false
  | String a p', String b s' => if Ascii.eqb a b then startsWith s' p' else false
  end.

(** [s.slice(n)] for [0 <= n] *)
Fixpoint slice (n : nat) (s : string) : string :=
  match n, s with
  | O, _ => s
  | S _, EmptyString => EmptyString
  | S n', String _ s' => slice n' s'
  end.

(** [s.includes(sub)] *)
Fixpoint includes (s sub : string) : bool :=
  startsWith s sub ||
  match s with
  | EmptyString => false
  | String _ s' => includes s' sub
  end.

(** [s.endsWith(suf)] *)
Definition endsWith (s suf : string) : bool :=
  (String.length suf <=? String.length s)%nat &&
  String.eqb (slice (String.length s - String.length suf) s) suf.

(** [s.replace(pat, rep)] with a string pattern: only the first occurrence
    is replaced ([rep] holds no [$]). *)
Fixpoint replace (pat rep s : string) : string :=
  if startsWith s pat then rep +:+ slice (String.length pat) s
  else match s with
       | EmptyString => EmptyString
       | String c s' => String c (replace pat rep s')
       end.

(** [s.replace(/pat/g, rep)] and [s.replaceAll(pat, rep)] for a literal,
    non-empty [pat]: every occurrence found in one left-to-right pass, the
    search resuming after each match.  [skip] counts the code units of the
    current match still to be dropped. *)
Fixpoint replaceAll_from (pat rep : string) (skip : nat) (s : string) : string :=
  match s with
  | EmptyString => EmptyString
  | String c s' =>
      match skip with
      | S k => replaceAll_from pat rep k s'
      | O =>
          if startsWith s pat
          then rep +:+ replaceAll_from pat rep (String.length pat - 1) s'
          else String c (replaceAll_from pat rep O s')
      end
  end.

Definition replaceAll (pat rep s : string) : string :=
  replaceAll_from pat rep O s.

(** [s.split(sep)] for a one-character separator; the result is never
    empty. *)
Fixpoint split (sep : ascii) (s : string) : list string :=
  match s with
  | EmptyString => [EmptyString]
  | String c s' =>
      if Ascii.eqb c sep then EmptyString :: split sep s'
      else match split sep s' with
           | h :: t => String c h :: t
           | [] => [String c EmptyString]
           end
  end.

(** [a.pop()] read as an expression: the last element, [undefined] on an
    empty array. *)
Definition pop (a : list string) : option string := last a.

(** [a.join(sep)] *)
Fixpoint join (sep : string) (a : list string) : string :=
  match a with
  | [] => EmptyString
  | [x] => x
  | x :: a' => x +:+ sep +:+ join sep a'
  end.

(** [s.toLowerCase()] on Latin-1: A-Z and the accented capitals
    U+00C0-U+00DE (U+00D7, the multiplication sign, apart). *)
Definition lower_char (c : ascii) : ascii :=
  let n := N_of_ascii c in
  if ((65 <=? n) && (n <=? 90))%N then ascii_of_N (n + 32)
  else if ((192 <=? n) && (n <=? 222) && negb (n =? 215))%N
       then ascii_of_N (n + 32)
       else c.

Fixpoint toLowerCase (s : string) : string :=
  match s with
  | EmptyString => EmptyString
  | String c s' => String (lower_char c) (toLowerCase s')
  end.

(** White space skipped by [parseInt]: TAB, LF, VT, FF, CR, SP, NBSP. *)
Definition is_space (c : ascii) : bool :=
  let n := N_of_ascii c in
  ((9 <=? n) && (n <=? 13) || (n =? 32) || (n =? 160))%N.

Definition digit_val (c : ascii) : option Z :=
  let n := N_of_ascii c in
  if ((48 <=? n) && (n <=? 57))%N then Some (Z.of_N n - 48) else None.

Fixpoint trimStart (s : string) : string :=
  match s with
  | String c s' => if is_space c then trimStart s' else s
  | EmptyString => EmptyString
  end.

(** The longest prefix of decimal digits, read with accumulator [acc];
    [seen] tells whether a digit was read. *)
Fixpoint digits_from (seen : bool) (acc : Z) (s : string) : option Z :=
  match s with
  | String c s' =>
      match digit_val c with
      | Some d => digits_from true (10 * acc + d) s'
      | None => if seen then Some acc else None
      end
  | EmptyString => if seen then Some acc else None
  end.

(** [parseInt(s, 10)]: [None] is [NaN].  The result is the integer the
    digits denote; the rounding of integers above 2^53 and the sign of zero
    do not change a comparison with 1. *)
Definition parseInt10 (s : string) : option Z :=
  match trimStart s with
  | String "-" s' => Z.opp <$> digits_from false 0 s'
  | String "+" s' => digits_from false 0 s'
  | s' => digits_from false 0 s'
  end.

(** [x ?? d] *)
Definition nullish {A} (x : option A) (d : A) : A := default d x.

End Js.

(** ** Plain objects and insertion-ordered maps *)

Module Obj.

Section assoc.
Context {V : Type}.

(** [o[k]] for an own property: the first binding of [k]. *)
Fixpoint get (o : list (string * V)) (k : string) : option V :=
  match o with
  | [] => None
  | (k', v) :: o' => if decide (k' = k) then Some v else get o' k
  end.

(** [o[k] = v]: an existing property keeps its place, a new one is created
    last. *)
Fixpoint set (o : list (string * V)) (k : string) (v : V) : list (string * V) :=
  match o with
  | [] => [(k, v)]
  | (k', v') :: o' =>
      if decide (k' = k) then (k, v) :: o' else (k', v') :: set o' k v
  end.

(** [delete o[k]] *)
Definition delete (o : list (string * V)) (k : string) : list (string * V) :=
  filter (fun p => p.1 <> k) o.

(** The property names in creation order, each once. *)
Fixpoint created (o : list (string * V)) : list string :=
  match o with
  | [] => []
  | (k, _) :: o' => k :: filter (fun k' => k' <> k) (created o')
  end.

(** [Array.from(m.values())] of a [Map] kept as an association list. *)
Definition values (o : list (string * V)) : list V := map snd o.

End assoc.

(** The property names every plain object inherits from
    [Object.prototype]: a read of one of them on an object that has no
    such property of its own yields the inherited member, which is
    truthy. *)
Definition prototype_names : list string :=
  ["constructor"; "__defineGetter__"; "__defineSetter__"; "hasOwnProperty";
   "__lookupGetter__"; "__lookupSetter__"; "isPrototypeOf";
   "propertyIsEnumerable"; "toString"; "valueOf"; "__proto__";
   "toLocaleString"].

Definition inherited (k : string) : bool :=
  bool_decide (k ∈ prototype_names).

(** None of the properties of [o] goes by a name that [Object.prototype]
    defines. *)
Definition own_names {V : Type} (o : list (string * V)) : bool :=
  forallb (fun p => negb (inherited p.1)) o.

Definition is_digit (c : ascii) : bool :=
  match Js.digit_val c with Some _ => true | None => false end.

Fixpoint all_digits (s : string) : bool :=
  match s with
  | EmptyString => true
  | String c s' => is_digit c && all_digits s'
  end.

(** An array index is a canonical decimal numeral below 2^32 - 1. *)
Definition array_index (s : string) : option Z :=
  match s with
  | EmptyString => None
  | String c s' =>
      if all_digits s
         && (negb (Ascii.eqb c "0") || String.eqb s' EmptyString)
         && (String.length s <=? 10)%nat
      then match Js.digits_from false 0 s with
           | Some n => if n <? 4294967295 then Some n else None
           | None => None
           end
      else None
  end.

Definition index_le (a b : string) : Prop :=
  default 0 (array_index a) <= default 0 (array_index b).

#[global] Instance index_le_dec : RelDecision index_le.
Proof. intros a b. unfold index_le. apply _. Defined.

(** [Object.keys(o)]: the array indices in ascending order, then the other
    names in creation order. *)
Definition keys {V} (o : list (string * V)) : list string :=
  let ks := created o in
  merge_sort index_le (filter (fun k => is_Some (array_index k)) ks)
  ++ filter (fun k => array_index k = None) ks.

End Obj.

(** ** The game database ([downloader.ts]) *)

(** [DetectableExecutable]: [s] is the strict flag ([s === 1]). *)
Record DetectableExecutable := {
  e_n : string;
  e_a : option string;
  e_s : bool
}.

(** [DetectableGame] *)
Record DetectableGame := {
  g_i : string;
  g_n : string;
  g_e : option (list DetectableExecutable)
}.

Module Downloader.

Record RawExecutable := {
  name : string;
  os : string;
  arguments : option string
}.

Record RawGameData := {
  id : string;
  gname : string;
  executables : option (list RawExecutable)
}.

(** The body of the loop over [game.executables]; [None] is [continue]. *)
Definition transformExecutable (currentPlatform : string) (exec : RawExecutable)
  : option DetectableExecutable :=
  if decide (name exec = EmptyString) then None
  else if decide (name exec = "lms.exe") then None
  else
    let isNative := bool_decide (os exec = currentPlatform) in
    let isProton :=
      bool_decide (currentPlatform = "linux") && bool_decide (os exec = "win32") in
    if negb (bool_decide (os exec = EmptyString)) && negb isNative && negb isProton
    then None
    else
      let name1 :=
        if Js.endsWith (name exec) "project8.exe"
        then Js.replace "project8.exe" "deadlock.exe" (name exec)
        else name exec in
      let isStrict := Js.startsWith name1 ">" in
      let name2 := if isStrict then Js.slice 1 name1 else name1 in
      Some {| e_n := Js.toLowerCase name2;
              e_a := match arguments exec with
                     | Some a => if decide (a = EmptyString) then None else Some a
                     | None => None
                     end;
              e_s := isStrict |}.

Definition transformGame (currentPlatform : string) (game : RawGameData)
  : option DetectableGame :=
  if decide (id game = EmptyString) then None
  else if decide (gname game = EmptyString) then None
  else match executables game with
       | Some (x :: xs) =>
           match omap (transformExecutable currentPlatform) (x :: xs) with
           | [] => None
           | processedExecs =>
               Some {| g_i := id game; g_n := gname game;
                       g_e := Some processedExecs |}
           end
       | _ => None
       end.

Definition transformObject (currentPlatform : string) (all : list RawGameData)
  : list DetectableGame :=
  omap (transformGame currentPlatform) all.

End Downloader.

(** ** The detection engine ([process/index.ts]) *)

Module Process.

(** Modelled from the spec: the tuple type [ProcessEntry] of [types.ts],
    [(pid, path, args, cwd)]; a missing working directory is [None]. *)
Record ProcessEntry := {
  p_pid : Z;
  p_path : string;
  p_args : list string;
  p_cwd : option string
}.

Record DetectedGame := {
  id : string;
  name : string;
  pid : Z;
  timestamp : Z
}.

(** The argument of [handlers.message]: [{socketId}] and a [SET_ACTIVITY]
    command whose activity is [null] on a clear; a value read from
    [timestamps] or [pids] is [None] when the property is missing. *)
Record Activity := {
  application_id : string;
  act_name : string;
  start : option Z
}.

Record Message := {
  socketId : string;
  activity : option Activity;
  msg_pid : option Z
}.

Record ProcessServer := {
  timestamps : list (string * Z);
  names : list (string * string);
  pids : list (string * Z);
  cache : gmap string DetectedGame;
  detectionMap : gmap string (list DetectableGame);
  isScanning : bool;
  lastScanTime : Z
}.

(** The loop of [init] that fills [detectionMap]. *)
Definition index_executable (game : DetectableGame)
    (m : gmap string (list DetectableGame)) (exec : DetectableExecutable)
  : gmap string (list DetectableGame) :=
  let name := Js.toLowerCase (e_n exec) in
  let key := Js.nullish (Js.pop (Js.split "/" name)) name in
  let list := Js.nullish (m !! key) [] in
  <[key := list ++ [game]]> m.

Definition index_game (m : gmap string (list DetectableGame))
    (game : DetectableGame) : gmap string (list DetectableGame) :=
  match g_e game with
  | Some execs => foldl (index_executable game) m execs
  | None => m
  end.

Definition build_index (db : list DetectableGame)
  : gmap string (list DetectableGame) :=
  foldl index_game ∅ db.

Definition isValidProcess (pid : Z) (path : string) : bool :=
  if pid =? 1 then false
  else if (String.length path <? 1)%nat then false
  else if Js.startsWith path "/proc" then false
  else if Js.startsWith path "/usr/lib/" then false
  else if Js.includes path "systemd" then false
  else if Js.startsWith path "c:/windows" then false
  else if Js.includes path "webhelper" then false
  else if Js.endsWith path "/bin/dolphin" then false
  else true.

Definition stripBitness (name : string) : string :=
  Js.replaceAll "64" EmptyString
    (Js.replaceAll "x64" EmptyString
      (Js.replaceAll "_64" EmptyString
        (Js.replaceAll ".x64" EmptyString name))).

(** [Set.prototype.add] on a set kept in insertion order. *)
Definition set_add (x : string) (s : list string) : list string :=
  if decide (x ∈ s) then s else s ++ [x].

(** The candidate keys of a filename, in the order the scan inserts them. *)
Definition candidates (filename : string) : list string :=
  let noExt := Js.replace ".exe" EmptyString filename in
  let noBitness := stripBitness filename in
  set_add (stripBitness noExt)
    (set_add noBitness (set_add noExt (set_add filename []))).

(** The callback of [game.e.some] in [checkGameMatch]. *)
Definition exec_matches (candidateKey filename fullPath cwdPath : string)
    (args : list string) (exec : DetectableExecutable) : bool :=
  let dbExecName := e_n exec in
  let args_fail :=
    match e_a exec with
    | Some a =>
        negb (bool_decide (a = EmptyString))
        && negb (Js.includes (Js.toLowerCase (Js.join " " args))
                             (Js.toLowerCase a))
    | None => false
    end in
  if args_fail then false
  else if e_s exec then bool_decide (dbExecName = filename)
  else if bool_decide (dbExecName = filename) then true
  else if bool_decide (dbExecName = Js.replace ".exe" EmptyString filename) then true
  else if bool_decide (dbExecName = filename +:+ ".exe") then true
  else if Js.includes (cwdPath +:+ "/" +:+ fullPath) ("/" +:+ dbExecName) then true
  else if bool_decide (dbExecName = candidateKey) then true
  else false.

Definition checkGameMatch (game : DetectableGame)
    (candidateKey filename fullPath cwdPath : string) (args : list string)
  : bool :=
  match g_e game with
  | None => false
  | Some execs =>
      existsb (exec_matches candidateKey filename fullPath cwdPath args) execs
  end.

(** The oracle behind [Date.now()]. *)
Definition Clock := nat -> Z.

(** [this.timestamps[id] || Date.now()] for an id that is not
    [Obj.inherited], with the number of clock calls made so far. *)
Definition stamp (clock : Clock) (ts : list (string * Z)) (gid : string)
    (calls : nat) : Z * nat :=
  match Obj.get ts gid with
  | Some t => if t =? 0 then (clock calls, S calls) else (t, calls)
  | None => (clock calls, S calls)
  end.

(** The locals of one run of [scan]: the cache being mutated, the
    [detectedGames] map in insertion order, the [cacheKeys] object and the
    count of clock calls. *)
Record Scan := {
  sc_cache : gmap string DetectedGame;
  detectedGames : list (string * DetectedGame);
  cacheKeys : gset string;
  calls : nat
}.

Definition NUL : string := String "000" EmptyString.

(** The process signature used as cache key; [`${args}`] joins with
    commas. *)
Definition cacheKey_of (rawPath : string) (args : list string)
    (cwdPath : string) : string :=
  rawPath +:+ NUL +:+ Js.join "," args +:+ " " +:+ cwdPath.

Definition normalize (path : string) : string :=
  Js.replaceAll "\" "/" (Js.toLowerCase path).

(** [cacheKeys[cacheKey] = true] *)
Definition mark_seen (cacheKey : string) (sc : Scan) : Scan :=
  {| sc_cache := sc_cache sc; detectedGames := detectedGames sc;
     cacheKeys := {[cacheKey]} ∪ cacheKeys sc; calls := calls sc |}.

(** A detection is recorded: the object [{id, name, pid, timestamp}], with
    [timestamp: this.timestamps[id] || Date.now()], is what [detectedGames]
    holds for [id] and what the cache holds for the signature.  On a cache
    hit the object is the cached one, updated in place; on a fresh match it
    is new. *)
Definition record (clock : Clock) (ts : list (string * Z))
    (cacheKey gid gname : string) (gpid : Z) (sc : Scan) : Scan :=
  let '(t, calls') := stamp clock ts gid (calls sc) in
  let match_ := {| id := gid; name := gname; pid := gpid; timestamp := t |} in
  {| sc_cache := <[cacheKey := match_]> (sc_cache sc);
     detectedGames := Obj.set (detectedGames sc) gid match_;
     cacheKeys := cacheKeys sc;
     calls := calls' |}.

(** The body of [for (const game of matches)]. *)
Definition scan_game (clock : Clock) (ts : list (string * Z)) (pid : Z)
    (cacheKey candidate filename rawPath cwdPath : string)
    (args : list string) (sc : Scan) (game : DetectableGame) : Scan :=
  if checkGameMatch game candidate filename rawPath cwdPath args
  then record clock ts cacheKey (g_i game) (g_n game) pid sc
  else sc.

(** The body of [for (const candidate of candidates)]. *)
Definition scan_candidate (clock : Clock) (ts : list (string * Z))
    (index : gmap string (list DetectableGame)) (pid : Z)
    (cacheKey filename rawPath cwdPath : string) (args : list string)
    (sc : Scan) (candidate : string) : Scan :=
  match index !! candidate with
  | None => sc
  | Some matches =>
      foldl (scan_game clock ts pid cacheKey candidate filename rawPath
               cwdPath args) sc matches
  end.

(** The body of [for (const [pid, _path, args, _cwdPath] of processes)]. *)
Definition scan_process (clock : Clock) (ts : list (string * Z))
    (index : gmap string (list DetectableGame)) (sc : Scan)
    (p : ProcessEntry) : Scan :=
  let rawPath := normalize (p_path p) in
  let cwdPath := normalize (default EmptyString (p_cwd p)) in
  let cacheKey := cacheKey_of rawPath (p_args p) cwdPath in
  let cached := sc_cache sc !! cacheKey in
  let sc := mark_seen cacheKey sc in
  match cached with
  | Some cached =>
      record clock ts cacheKey (id cached) (name cached) (p_pid p) sc
  | None =>
      if negb (isValidProcess (p_pid p) rawPath) then sc
      else match Js.pop (Js.split "/" rawPath) with
           | None => sc
           | Some filename =>
               if decide (filename = EmptyString) then sc
               else foldl (scan_candidate clock ts index (p_pid p) cacheKey
                             filename rawPath cwdPath (p_args p))
                      sc (candidates filename)
           end
  end.

(** The engine state: what [handleScanResults] and [cleanupLostGames]
    read and write. *)
Record Engine := {
  en_timestamps : list (string * Z);
  en_names : list (string * string);
  en_pids : list (string * Z)
}.

Definition engine (srv : ProcessServer) : Engine :=
  {| en_timestamps := timestamps srv; en_names := names srv;
     en_pids := pids srv |}.

Definition falsy (x : option Z) : bool :=
  match x with
  | Some t => t =? 0
  | None => true
  end.

(** One turn of the loop of [handleScanResults]; the calls of
    [handlers.message] are collected in order. *)
Definition handle_game (acc : Engine * list Message) (g : DetectedGame)
  : Engine * list Message :=
  let '(en, out) := acc in
  let ts' :=
    if falsy (Obj.get (en_timestamps en) (id g))
    then Obj.set (en_timestamps en) (id g) (timestamp g)
    else en_timestamps en in
  ({| en_timestamps := ts';
      en_names := Obj.set (en_names en) (id g) (name g);
      en_pids := Obj.set (en_pids en) (id g) (pid g) |},
   out ++ [{| socketId := id g;
              activity :=
                Some {| application_id := id g; act_name := name g;
                        start := Obj.get ts' (id g) |};
              msg_pid := Some (pid g) |}]).

(** One turn of the loop of [cleanupLostGames]. *)
Definition cleanup_id (activeIds : gset string) (acc : Engine * list Message)
    (gid : string) : Engine * list Message :=
  let '(en, out) := acc in
  if decide (gid ∈ activeIds) then acc
  else
    let closingPid := Obj.get (en_pids en) gid in
    ({| en_timestamps := Obj.delete (en_timestamps en) gid;
        en_names := Obj.delete (en_names en) gid;
        en_pids := Obj.delete (en_pids en) gid |},
     out ++ [{| socketId := gid; activity := None; msg_pid := closingPid |}]).

Definition cleanupLostGames (activeIds : gset string)
    (acc : Engine * list Message) : Engine * list Message :=
  foldl (cleanup_id activeIds) acc (Obj.keys (en_timestamps acc.1)).

Definition handleScanResults (en : Engine) (games : list DetectedGame)
  : Engine * list Message :=
  let activeIds : gset string := list_to_set (map id games) in
  cleanupLostGames activeIds (foldl handle_game (en, []) games).

(** The name [for (const key in array)] gives to index [i]. *)
Definition index_name (i : nat) : string :=
  NilEmpty.string_of_uint (Nat.to_uint i).

(** The cache maintenance at the end of [scan]: when the cache holds more
    than twice the signatures seen, [this.cache.delete(key)] runs with
    [key] ranging over the index names of [globalCacheKeys], as
    [for (const key in globalCacheKeys)] enumerates them.  The loop before
    it deletes the elements of the local array [fetchedCacheKeys] and
    leaves no trace. *)
Definition sweep (cache : gmap string DetectedGame) (fetched : nat)
  : gmap string DetectedGame :=
  let global := size cache in
  if (fetched * 2 <? global)%nat
  then foldl (fun c i => delete (index_name i) c) cache (seq 0 global)
  else cache.

(** The loop of [scan] over the process list, from the server's cache. *)
Definition scan_loop (clock : Clock) (srv : ProcessServer)
    (processes : list ProcessEntry) (calls0 : nat) : Scan :=
  foldl (scan_process clock (timestamps srv) (detectionMap srv))
    {| sc_cache := cache srv; detectedGames := []; cacheKeys := ∅;
       calls := calls0 |}
    processes.

(** [scan()], given the list [getProcesses()] resolves to: the server
    afterwards, the calls of [handlers.message] in order, and the count of
    clock calls. *)
Definition scan (clock : Clock) (srv : ProcessServer)
    (processes : list ProcessEntry) (calls0 : nat)
  : ProcessServer * list Message * nat :=
  if isScanning srv then (srv, [], calls0)
  else
    let sc := scan_loop clock srv processes (S calls0) in
    let '(en, out) :=
      handleScanResults (engine srv) (Obj.values (detectedGames sc)) in
    ({| timestamps := en_timestamps en;
        names := en_names en;
        pids := en_pids en;
        cache := sweep (sc_cache sc) (size (cacheKeys sc));
        detectionMap := detectionMap srv;
        isScanning := false;
        lastScanTime := clock calls0 |},
     out, calls sc).

(** The server [init] leaves behind before its first scan. *)
Definition init (db : list DetectableGame) : ProcessServer :=
  {| timestamps := []; names := []; pids := []; cache := ∅;
     detectionMap := build_index db; isScanning := false;
     lastScanTime := 0 |}.

End Process.

(** ** Decoded JSON values *)

(** What [JSON.parse] returns.  Numbers are the integer-valued ones; the
    fields of an object are its own properties, each name once. *)
#[local] Unset Elimination Schemes.
Inductive json :=
  | JNull
  | JBool (b : bool)
  | JNum (z : Z)
  | JStr (s : string)
  | JArr (items : list json)
  | JObj (fields : list (string * json)).
#[local] Set Elimination Schemes.

Module Json.

(** A failed property read on [null] raises a [TypeError]. *)
Inductive Exc (A : Type) :=
  | Ok (a : A)
  | TypeError.
Arguments Ok {A} a.
Arguments TypeError {A}.

(** [x.k] for one of the names [v], [client_id], [cmd], [args]: [None] is
    [undefined]. *)
Definition member (x : json) (k : string) : Exc (option json) :=
  match x with
  | JNull => TypeError
  | JObj fields => Ok (Obj.get fields k)
  | _ => Ok None
  end.

(** [!x] is [negb (truthy x)]; [undefined] is [None]. *)
Definition truthy (x : option json) : bool :=
  match x with
  | None => false
  | Some JNull => false
  | Some (JBool b) => b
  | Some (JNum z) => negb (z =? 0)
  | Some (JStr s) => negb (bool_decide (s = EmptyString))
  | Some (JArr _) => true
  | Some (JObj _) => true
  end.

(** [x ?? d] *)
Definition nullish (x : option json) (d : json) : json :=
  match x with
  | None => d
  | Some JNull => d
  | Some y => y
  end.

(** Strict equality with the empty string. *)
Definition strict_eq_empty (x : json) : bool :=
  match x with
  | JStr EmptyString => true
  | _ => false
  end.

Definition string_of_Z (z : Z) : string :=
  NilEmpty.string_of_int (Z.to_int z).


(** [String(x)], the conversion [parseInt] applies to its argument, for a
    [plain] value. *)
Fixpoint ToString (x : json) : string :=
  match x with
  | JNull => "null"
  | JBool true => "true"
  | JBool false => "false"
  | JNum z => string_of_Z z
  | JStr s => s
  | JArr items =>
      Js.join ","
        (map (fun y => match y with JNull => EmptyString | _ => ToString y end)
             items)
  | JObj _ => "[object Object]"
  end.

(** [parseInt(x, 10)], for a [plain] value. *)
Definition parseInt (x : json) : option Z := Js.parseInt10 (ToString x).

End Json.

(** ** The native framed transport *)

Module IPC.

Import Json.

Definition HANDSHAKE : Z := 0.
Definition FRAME : Z := 1.
Definition CLOSE : Z := 2.
Definition PING : Z := 3.
Definition PONG : Z := 4.

Definition Types : list Z := [HANDSHAKE; FRAME; CLOSE; PING; PONG].

Definition CLOSE_NORMAL : Z := 1000.
Definition CLOSE_UNSUPPORTED : Z := 1003.
Definition CLOSE_ABNORMAL : Z := 1006.

Definition INVALID_CLIENTID : Z := 4000.
Definition INVALID_VERSION : Z := 4004.

Definition MAX_IPC_PAYLOAD : Z := 5 * 1024 * 1024.

(** [JSON.parse(buffer.toString("utf8"))] ([None] when it throws) and
    [JSON.stringify] followed by the UTF-8 encoding. *)
Class Codec := {
  JSON_parse : list byte -> option json;
  JSON_stringify : json -> list byte
}.

Definition byte_of_Z (z : Z) : byte :=
  default Byte.x00 (Byte.of_N (Z.to_N (z mod 256))).

Definition Z_of_byte (b : byte) : Z := Z.of_N (Byte.to_N b).

(** [buf.writeInt32LE(z)] for [z] in the int32 range. *)
Definition writeInt32LE (z : Z) : list byte :=
  [byte_of_Z z; byte_of_Z (z / 256); byte_of_Z (z / 65536);
   byte_of_Z (z / 16777216)].

(** [buf.readInt32LE(offset)]; a missing byte reads as 0. *)
Definition readInt32LE (buf : list byte) (offset : nat) : Z :=
  let b i := Z_of_byte (default Byte.x00 (buf !! (offset + i)%nat)) in
  let u := b 0%nat + 256 * b 1%nat + 65536 * b 2%nat + 16777216 * b 3%nat in
  if u <? 2147483648 then u else u - 4294967296.

Definition encode `{Codec} (type : Z) (data : json) : list byte :=
  let stringData := JSON_stringify data in
  let dataSize := Z.of_nat (length stringData) in
  writeInt32LE type ++ writeInt32LE dataSize ++ stringData.

(** What a connection does to the outside: events emitted on the socket,
    bytes written, the socket ended (with a last write, if any) and
    destroyed, calls of the server's handlers, and log lines. *)
Inductive Action :=
  | Emit (event : string) (data : json)
  | SocketWrite (bytes : list byte)
  | SocketEnd (bytes : option (list byte))
  | SocketDestroy
  | HandlerConnection (clientId : json)
  | HandlerMessage (msg : json)
  | Log (line : string).

(** The read side of a socket: the bytes buffered and not yet consumed,
    with the [readable] listener waiting for the next arrival ([Open]) or
    run again tick after tick on the same bytes ([Spinning]), or
    destroyed.  While a listener spins the event loop never gets to read
    from any socket. *)
Inductive Socket :=
  | Open (readable : list byte)
  | Spinning (readable : list byte)
  | Destroyed.

(** One turn of the [while (true)] loop of [processSocketReadable] on the
    buffered bytes; [continue] stands for the turns that follow, run on
    what this one leaves.  The events it emits are recorded; what their
    listeners do is the matter of [onHandshake] and [onRequest], and the
    turns that follow an event are those of a socket its listeners left
    open.

    Where the loop puts the header back with [socket.unshift(header)] and
    returns, the stream's [needReadable] flag decides what follows.  When
    [read(8)] took the last bytes of the buffer the flag is set, so the
    [unshift] schedules another [readable] event and the listener runs on
    the same eight bytes again, without end.  When bytes of the payload
    stay behind the flag is clear and the listener waits for the next
    arrival.  [socket.read(0)] returns [null] and sets the flag, so a
    header declaring an empty payload is put back and read again without
    end, whatever follows it. *)
Definition read_turn `{Codec} (continue : list byte -> Socket * list Action)
    (buf : list byte) : Socket * list Action :=
  if (length buf <? 8)%nat then (Open buf, [])
  else
    let type := readInt32LE buf 0 in
    let dataSize := readInt32LE buf 4 in
    if (dataSize <? 0) || (MAX_IPC_PAYLOAD <? dataSize) then
      (Destroyed,
       [Log "Refusing oversized or invalid IPC payload"; SocketDestroy])
    else if (length buf - 8 <? Z.to_nat dataSize)%nat then
      if (length buf =? 8)%nat then (Spinning buf, []) else (Open buf, [])
    else if dataSize =? 0 then (Spinning buf, [])
    else
      let bodyBuffer := take (Z.to_nat dataSize) (drop 8 buf) in
      let rest := drop (8 + Z.to_nat dataSize) buf in
      if negb (existsb (Z.eqb type) Types) then
        (Destroyed, [Log "Invalid IPC packet type"; SocketDestroy])
      else
        let go acts :=
          let '(s, more) := continue rest in (s, acts ++ more) in
        match JSON_parse bodyBuffer with
        | None => go [Log "Failed to parse IPC JSON"]
        | Some data =>
            if type =? PING then
              go [Emit "ping" data; SocketWrite (encode PONG data)]
            else if type =? PONG then go [Emit "pong" data]
            else if type =? HANDSHAKE then go [Emit "handshake" data]
            else if type =? FRAME then go [Emit "request" data]
            else (Destroyed, [SocketEnd None; SocketDestroy])
        end.

(** The loop: every turn that goes on has consumed at least nine bytes, so
    one more turn than there are bytes is enough. *)
Fixpoint read_loop `{Codec} (fuel : nat) (buf : list byte)
  : Socket * list Action :=
  match fuel with
  | O => (Open buf, [])
  | S fuel' => read_turn (read_loop fuel') buf
  end.

Definition processSocketReadable `{Codec} (buf : list byte)
  : Socket * list Action :=
  read_loop (S (length buf)) buf.

(** A chunk arrives on the socket and the [readable] listener runs; a
    destroyed socket reads nothing more, and while the listener spins no
    chunk reaches the buffer. *)
Definition deliver `{Codec} (s : Socket) (chunk : list byte)
  : Socket * list Action :=
  match s with
  | Open buf => processSocketReadable (buf ++ chunk)
  | Spinning buf => (Spinning buf, [])
  | Destroyed => (Destroyed, [])
  end.

(** Several chunks in turn, with everything done along the way. *)
Fixpoint deliver_all `{Codec} (s : Socket) (chunks : list (list byte))
  : Socket * list Action :=
  match chunks with
  | [] => (s, [])
  | c :: cs =>
      let '(s1, a1) := deliver s c in
      let '(s2, a2) := deliver_all s1 cs in
      (s2, a1 ++ a2)
  end.

Definition spinning (s : Socket) : bool :=
  match s with
  | Spinning _ => true
  | _ => false
  end.

(** A listener of the process spins: the event loop is taken up by it. *)
Definition starved (conns : gmap nat Socket) : bool :=
  bool_decide (map_Exists (fun _ s => spinning s = true) conns).

(** The server side: one read state per connection; bytes arriving on
    connection [c] are read by that connection's listener, unless some
    listener spins, when nothing is read on any connection. *)
Definition server_deliver `{Codec} (conns : gmap nat Socket) (c : nat)
    (chunk : list byte) : gmap nat Socket * list Action :=
  if starved conns then (conns, [])
  else
    match conns !! c with
    | Some s => let '(s', acts) := deliver s chunk in (<[c := s']> conns, acts)
    | None => (conns, [])
    end.

(** The per-connection variables of [onConnection]: the [handshook] flag,
    whether the [once("handshake")] listener is still registered, whether
    the [request] and [close] listeners are, and [socket.clientId]. *)
Record Session := {
  handshook : bool;
  awaiting : bool;
  active : bool;
  clientId : option json
}.

Definition AWAITING_HANDSHAKE : Session :=
  {| handshook := false; awaiting := true; active := false;
     clientId := None |}.

(** [socket.close(code)] with the default message. *)
Definition close `{Codec} (code : Z) : list Action :=
  [SocketEnd
     (Some (encode CLOSE
              (JObj [("code", JNum code); ("message", JStr EmptyString)])));
   SocketDestroy].

(** The [handshake] listener; registered with [once], it is gone after its
    first call, whatever that call does. *)
Definition onHandshake `{Codec} (s : Session) (params : json)
  : Exc (Session * list Action) :=
  let gone :=
    {| handshook := true; awaiting := false; active := active s;
       clientId := clientId s |} in
  if negb (awaiting s) then Ok (s, @nil Action)
  else if handshook s then Ok (gone, @nil Action)
  else
    match member params "v" with
    | TypeError => TypeError
    | Ok v =>
        match member params "client_id" with
        | TypeError => TypeError
        | Ok cid =>
            let ver := parseInt (nullish v (JStr "1")) in
            let clientId := nullish cid (JStr EmptyString) in
            if negb (bool_decide (ver = Some 1)) then
              Ok (gone,
                  Log "unsupported version requested" :: close INVALID_VERSION)
            else if strict_eq_empty clientId then
              Ok (gone, Log "client id required" :: close INVALID_CLIENTID)
            else
              Ok ({| handshook := true; awaiting := false; active := true;
                     clientId := Some clientId |},
                  [HandlerConnection clientId])
        end
    end.

(** [IPCServer.onMessage] *)
Definition onMessage (msg : json) : Exc (list Action) :=
  match member msg "args" with
  | TypeError => TypeError
  | Ok args =>
      if negb (truthy args) then Ok [Log "Invaild payload!"]
      else match member msg "cmd" with
           | TypeError => TypeError
           | Ok cmd =>
               if negb (truthy cmd) then Ok [Log "Invaild payload!"]
               else Ok [HandlerMessage msg]
           end
  end.

(** The [request] listener of a session: registered once the handshake
    went through. *)
Definition onRequest (s : Session) (data : json) : Exc (list Action) :=
  if active s then onMessage data else Ok (@nil Action).

(** The [catch] of the [readable] listener, for an error with message
    [message] thrown while reading. *)
Definition onReadError `{Codec} (message : string) : list Action :=
  [Log "error whilst reading";
   SocketEnd
     (Some (encode CLOSE
              (JObj [("code", JNum CLOSE_UNSUPPORTED);
                     ("message", JStr message)])));
   SocketDestroy].

End IPC.

(** ** The WebSocket transport *)

Module WS.

(** The query parameters of the upgrade request, as [onConnection] casts
    them. *)
Record Params := {
  v : option string;
  encoding : option string;
  client_id : option string
}.

Inductive Action :=
  | SocketClose
  | HandlerConnection (clientId encoding : string)
  | HandlerMessage (msg : json)
  | Log (line : string).

Definition onConnection (params : Params) : list Action :=
  let ver := Js.parseInt10 (Js.nullish (v params) "1") in
  let encoding := Js.nullish (encoding params) "json" in
  let clientId := Js.nullish (client_id params) EmptyString in
  if negb (bool_decide (encoding = "json")) then
    [Log "unsupported encoding requested"; SocketClose]
  else if negb (bool_decide (ver = Some 1)) then
    [Log "unsupported version requested"; SocketClose]
  else [HandlerConnection clientId encoding].

(** [WSServer.onMessage]: every decoded message goes to the handler. *)
Definition onMessage (msg : json) : list Action := [HandlerMessage msg].

End WS.

(** ** The candidate keys in the specification's words *)

Module CandidateSpec.

(** [s.indexOf(pat)] *)
Fixpoint indexOf (s pat : string) : option nat :=
  if Js.startsWith s pat then Some O
  else match s with
       | EmptyString => None
       | String _ s' => S <$> indexOf s' pat
       end.

(** The filename with a single trailing [.exe] removed. *)
Definition without_trailing_exe (f : string) : string :=
  if Js.endsWith f ".exe"
  then String.substring 0 (String.length f - 4) f
  else f.

(** The text of [f] around its first [.exe], wherever that stands. *)
Definition without_first_exe (f : string) : string :=
  match indexOf f ".exe" with
  | Some i => String.substring 0 i f +:+ Js.slice (i + 4) f
  | None => f
  end.

(** A name holds none of the bitness tokens [.x64], [_64], [x64] and
    [64]; each of them ends in [64]. *)
Definition bitness_free (s : string) : bool := negb (Js.includes s "64").

(** The four keys the specification lists. *)
Definition spec_candidates (f : string) : list string :=
  [f; without_trailing_exe f; Process.stripBitness f;
   Process.stripBitness (without_trailing_exe f)].

End CandidateSpec.

(** ** What a scan shows to the outside *)

Module Observe.

Import Process.

(** The calls of [handlers.message] addressed to the session [gid]. *)
Definition addressed_to (gid : string) (out : list Message) : list Message :=
  filter (fun m => socketId m = gid) out.

(** The "clear activity" message: [activity: null] and a pid. *)
Definition clear_activity (gid : string) (closingPid : option Z) : Message :=
  {| socketId := gid; activity := None; msg_pid := closingPid |}.

(** The "set activity" message of a detected game with start [t]. *)
Definition set_activity (g : DetectedGame) (t : Z) : Message :=
  {| socketId := id g;
     activity := Some {| application_id := id g; act_name := name g;
                         start := Some t |};
     msg_pid := Some (pid g) |}.

(** The result mapping of a scan: [detectedGames] when the loop over the
    processes is done. *)
Definition scan_results (clock : Clock) (srv : ProcessServer)
    (processes : list ProcessEntry) (calls0 : nat)
  : list (string * DetectedGame) :=
  detectedGames (scan_loop clock srv processes (S calls0)).

(** A game id is active when [timestamps] has it. *)
Definition active (srv : ProcessServer) (gid : string) : Prop :=
  is_Some (Obj.get (timestamps srv) gid).

(** Every entry of a [detectedGames] map is stored under its own id. *)
Definition keyed_by_id (dg : list (string * DetectedGame)) : Prop :=
  Forall (fun p => id p.2 = p.1) dg.

(** Every key of the cache is a process signature: it holds the NUL that
    [cacheKey_of] puts between path and arguments. *)
Definition signatures_only (c : gmap string DetectedGame) : Prop :=
  forall k, is_Some (c !! k) -> Js.includes k NUL = true.

(** The start a detected game is announced with, given the [timestamps]
    held before the scan: the stored one while it is truthy, the game's
    own otherwise. *)
Definition announced_start (ts : list (string * Z)) (g : DetectedGame) : Z :=
  match Obj.get ts (id g) with
  | Some t => if t =? 0 then timestamp g else t
  | None => timestamp g
  end.

(** The timestamp of [g] is a reading the clock gave at one of the calls
    numbered from [c0] up to, not including, [c1]. *)
Definition read_between (clock : Clock) (c0 c1 : nat) (g : DetectedGame)
  : Prop :=
  exists n, (c0 <= n < c1)%nat /\ timestamp g = clock n.

(** What the loop keeps true of [detectedGames]: an entry carries the
    stored timestamp of its game while that is truthy, a reading taken
    during this scan otherwise. *)
Definition stamped (clock : Clock) (ts : list (string * Z)) (c0 : nat)
    (sc : Scan) : Prop :=
  (c0 <= calls sc)%nat
  /\ forall gid g,
       Obj.get (detectedGames sc) gid = Some g ->
       if falsy (Obj.get ts gid) then read_between clock c0 (calls sc) g
       else Obj.get ts gid = Some (timestamp g).

(** Every active game has a pid and a name on record. *)
Definition coherent (en : Engine) : Prop :=
  forall gid,
    is_Some (Obj.get (en_timestamps en) gid) ->
    is_Some (Obj.get (en_pids en) gid) /\ is_Some (Obj.get (en_names en) gid).


(** [delete] of the three properties of a lost game. *)
Definition forget (en : Engine) (gid : string) : Engine :=
  {| en_timestamps := Obj.delete (en_timestamps en) gid;
     en_names := Obj.delete (en_names en) gid;
     en_pids := Obj.delete (en_pids en) gid |}.

End Observe.

(** ** Scenarios *)

Module Scenario.

Import Process.

Definition clock : Clock := fun n => 1700000000000 + Z.of_nat n.

Definition game (gid gname exe : string) : DetectableGame :=
  {| g_i := gid; g_n := gname;
     g_e := Some [{| e_n := exe; e_a := None; e_s := false |}] |}.

(** The database of the specification's scenario. *)
Definition db : list DetectableGame := [game "123" "Example Game" "game.exe"].

(** The observed process of the scenario, started with [args]. *)
Definition game_process (args : list string) : ProcessEntry :=
  {| p_pid := 42; p_path := "C:\Games\game.exe"; p_args := args;
     p_cwd := Some "C:\Games" |}.

Definition signature (args : list string) : string :=
  cacheKey_of "c:/games/game.exe" args "c:/games".

(** Two database records that list the same executable. *)
Definition db_shared : list DetectableGame :=
  [game "A" "Alpha" "game.exe"; game "B" "Beta" "game.exe"].

End Scenario.

(** ** Frames on the wire and what a reader emits *)

Module Wire.

Import IPC.

(** [int32 type | int32 payloadLength | payload], little-endian. *)
Definition frame (type : Z) (payload : list byte) : list byte :=
  writeInt32LE type ++ writeInt32LE (Z.of_nat (length payload)) ++ payload.

Definition int32 (z : Z) : Prop := -2147483648 <= z < 2147483648.

(** The payload is within the 5 MiB cap. *)
Definition within_cap (payload : list byte) : Prop :=
  Z.of_nat (length payload) <= MAX_IPC_PAYLOAD.

(** The events emitted on the socket, in order. *)
Definition emitted (acts : list Action) : list (string * json) :=
  omap (fun a => match a with
                 | Emit event data => Some (event, data)
                 | _ => None
                 end) acts.

(** The event a frame type is announced with. *)
Definition event_of (type : Z) : string :=
  if type =? HANDSHAKE then "handshake"
  else if type =? FRAME then "request"
  else if type =? PING then "ping"
  else "pong".

(** The calls of the server's [connection] handler among the actions. *)
Definition connections (acts : list Action) : list json :=
  omap (fun a => match a with
                 | HandlerConnection c => Some c
                 | _ => None
                 end) acts.

(** The messages handed to the server's [message] handler. *)
Definition messages (acts : list Action) : list json :=
  omap (fun a => match a with
                 | HandlerMessage m => Some m
                 | _ => None
                 end) acts.

Definition logged (acts : list Action) : list string :=
  omap (fun a => match a with
                 | Log line => Some line
                 | _ => None
                 end) acts.

(** A version text whose leading integer part is 1: the digit [1] followed
    by the end of the text or by something that is not a digit. *)
Definition leading_one (s : string) : Prop :=
  exists rest,
    s = String "1" rest
    /\ match rest with
       | String c _ => Obj.is_digit c = false
       | EmptyString => True
       end.

(** The handshake payload of a client with version text [version] (none
    when it omits the field) and client id [cid]. *)
Definition handshake_params (version : option string) (cid : string) : json :=
  match version with
  | Some s => JObj [("v", JStr s); ("client_id", JStr cid)]
  | None => JObj [("client_id", JStr cid)]
  end.

(** The [request] listener as it runs under the [readable] listener: a
    [TypeError] it throws is caught there. *)
Definition request_guarded `{Codec} (s : Session) (data : json)
    (message : string) : list Action :=
  match onRequest s data with
  | Json.Ok acts => acts
  | Json.TypeError => onReadError message
  end.

(** Is the property [k] of [x] there and truthy? *)
Definition has_truthy (x : json) (k : string) : bool :=
  match Json.member x k with
  | Json.Ok y => Json.truthy y
  | Json.TypeError => false
  end.

End Wire.

(** A codec for the examples: it serialises the JSON values made of
    [null], booleans, integers, strings, arrays and objects (control
    characters in strings apart), and reads back the few texts the
    examples use. *)
Module Sample.

Definition bytes (s : string) : list byte :=
  flat_map (fun c =>
              let n := N_of_ascii c in
              if (n <? 128)%N then [byte_of_ascii c]
              else [IPC.byte_of_Z (192 + Z.of_N n / 64);
                    IPC.byte_of_Z (128 + Z.of_N n mod 64)])
           (list_ascii_of_string s).

Fixpoint quote (s : string) : string :=
  match s with
  | EmptyString => EmptyString
  | String c s' =>
      if Ascii.eqb c "034" then String "\" (String "034" (quote s'))
      else if Ascii.eqb c "\" then String "\" (String "\" (quote s'))
      else String c (quote s')
  end.

Fixpoint text (x : json) : string :=
  match x with
  | JNull => "null"
  | JBool true => "true"
  | JBool false => "false"
  | JNum z => Json.string_of_Z z
  | JStr s => String "034" (quote s) +:+ String "034" EmptyString
  | JArr items => "[" +:+ Js.join "," (map text items) +:+ "]"
  | JObj fields =>
      "{" +:+
      Js.join ","
        (map (fun p => String "034" (quote p.1) +:+ String "034" ":" +:+ text p.2)
             fields)
      +:+ "}"
  end.

Definition table : list (string * json) :=
  [("{}", JObj []); ("null", JNull);
   ("{" +:+ String "034" ("cmd" +:+ String "034" ":1}"),
    JObj [("cmd", JNum 1)])].

Definition parse (b : list byte) : option json :=
  snd <$> find (fun p => bool_decide (Byte.to_N <$> bytes p.1 = Byte.to_N <$> b))
            table.

#[global] Instance codec : IPC.Codec :=
  {| IPC.JSON_parse := parse; IPC.JSON_stringify := fun x => bytes (text x) |}.

End Sample.

(** ** Runs of the engine *)

Module Run.

Import Process.

(** The key [init] files an executable under: the last path segment of its
    lowercased name. *)
Definition index_key (exec : DetectableExecutable) : string :=
  let name := Js.toLowerCase (e_n exec) in
  Js.nullish (Js.pop (Js.split "/" name)) name.

(** The games [detectionMap.get(k)] yields, none when the key is absent. *)
Definition indexed (index : gmap string (list DetectableGame)) (k : string)
  : list DetectableGame :=
  default [] (index !! k).

(** One scan after the other, each on the process list of its turn: the
    server at the end, all calls of [handlers.message] in order, and the
    count of clock calls. *)
Fixpoint scans (clock : Clock) (srv : ProcessServer)
    (turns : list (list ProcessEntry)) (calls0 : nat)
  : ProcessServer * list Message * nat :=
  match turns with
  | [] => (srv, [], calls0)
  | processes :: turns' =>
      let '(srv1, out1, calls1) := scan clock srv processes calls0 in
      let '(srv2, out2, calls2) := scans clock srv1 turns' calls1 in
      (srv2, out1 ++ out2, calls2)
  end.

(** [gid] and [gname] are the id and the name of a game of the database
    that has executables. *)
Definition listed (db : list DetectableGame) (gid gname : string) : Prop :=
  exists game,
    game ∈ db /\ g_i game = gid /\ g_n game = gname /\ is_Some (g_e game).

(** Every cached detection is a game of [db]. *)
Definition cache_listed (db : list DetectableGame)
    (c : gmap string DetectedGame) : Prop :=
  forall k g, c !! k = Some g -> listed db (id g) (name g).

(** Every game an index yields is a game of [db] with executables. *)
Definition index_listed (db : list DetectableGame)
    (index : gmap string (list DetectableGame)) : Prop :=
  forall k matches game,
    index !! k = Some matches -> game ∈ matches ->
    game ∈ db /\ is_Some (g_e game).

(** The file name the scan derives from a process path. *)
Definition filename_of (p : ProcessEntry) : string :=
  default EmptyString (Js.pop (Js.split "/" (normalize (p_path p)))).

(** The signature a process is cached under. *)
Definition signature_of (p : ProcessEntry) : string :=
  cacheKey_of (normalize (p_path p)) (p_args p)
    (normalize (default EmptyString (p_cwd p))).

(** The games the loops over [candidates] and [matches] record for a
    process whose signature is not cached, in the order they record them:
    for each candidate key in turn, the games filed under it that
    [checkGameMatch] accepts. *)
Definition fresh_matches (index : gmap string (list DetectableGame))
    (p : ProcessEntry) : list DetectableGame :=
  let rawPath := normalize (p_path p) in
  let cwdPath := normalize (default EmptyString (p_cwd p)) in
  if negb (isValidProcess (p_pid p) rawPath) then []
  else match Js.pop (Js.split "/" rawPath) with
       | None => []
       | Some filename =>
           if decide (filename = EmptyString) then []
           else
             candidate ← candidates filename;
             filter (fun game =>
                       checkGameMatch game candidate filename rawPath cwdPath
                         (p_args p) = true)
                    (indexed index candidate)
       end.

(** The cache after the scans of [turns], one after the other, from
    [srv]. *)
Definition cache_after (clock : Clock) (srv : ProcessServer)
    (turns : list (list ProcessEntry)) (calls0 : nat)
  : gmap string DetectedGame :=
  cache (scans clock srv turns calls0).1.1.

End Run.

(** ** Streams of frames and the listeners of a connection *)

Module Stream.

Import IPC Wire.

(** The types whose frames are announced with an event. *)
Definition announced (type : Z) : Prop :=
  type = HANDSHAKE \/ type = FRAME \/ type = PING \/ type = PONG.

(** What the reader does with one complete frame of an announced type
    whose payload parsed as [data]. *)
Definition reaction `{Codec} (type : Z) (data : json) : list Action :=
  if type =? PING then [Emit "ping" data; SocketWrite (encode PONG data)]
  else [Emit (event_of type) data].

(** A frame on the wire that parses: its type, payload and parsed value. *)
Record Parsed := {
  f_type : Z;
  f_payload : list byte;
  f_data : json
}.

Definition well_formed `{Codec} (f : Parsed) : Prop :=
  announced (f_type f)
  /\ f_payload f <> []
  /\ within_cap (f_payload f)
  /\ JSON_parse (f_payload f) = Some (f_data f).

(** The bytes of the frames, back to back. *)
Definition bytes_of (frames : list Parsed) : list byte :=
  f ← frames; frame (f_type f) (f_payload f).

Definition reactions `{Codec} (frames : list Parsed) : list Action :=
  f ← frames; reaction (f_type f) (f_data f).

(** The header of a frame that declares [size] payload bytes. *)
Definition header (type size : Z) : list byte :=
  writeInt32LE type ++ writeInt32LE size.



End Stream.

Module Conn.

Import Json IPC Wire.

(** The session once the [handshake] listener has run up to the reading
    of [params]: [once] has removed it and [handshook] is set. *)
Definition gone (s : Session) : Session :=
  {| handshook := true; awaiting := false; active := active s;
     clientId := clientId s |}.

(** The events the frame reader emits on the socket. *)
Inductive Event :=
  | Handshake
  | Request
  | Ping
  | Pong.

(** An event the reader emits reaches the listeners [onConnection]
    registered for it: the [once("handshake")] listener and, after an
    accepted handshake, the [request] listener; [ping] and [pong] have
    none.  A [TypeError] a listener throws is caught by the [readable]
    listener, which reports it with its text [message]. *)
Definition dispatch `{Codec} (message : string)
    (acc : Session * list Action) (ev : Event * json)
  : Session * list Action :=
  let '(s, done) := acc in
  let '(event, data) := ev in
  match event with
  | Handshake =>
      match onHandshake s data with
      | Ok (s', acts) => (s', done ++ acts)
      | TypeError => (gone s, done ++ onReadError message)
      end
  | Request => (s, done ++ request_guarded s data message)
  | Ping | Pong => (s, done)
  end.

(** The events of a connection, from its start. *)
Definition attend `{Codec} (message : string) (events : list (Event * json))
  : Session * list Action :=
  foldl (dispatch message) (AWAITING_HANDSHAKE, []) events.

(** A request that [onMessage] forwards. *)
Definition forwardable (m : json) : Prop :=
  has_truthy m "args" = true /\ has_truthy m "cmd" = true.

(** What the listeners keep true of a session [s] and of what they have
    done so far, [acts]: an active session is past its handshake and has
    been announced once; a session that is not active has reached no
    handler; a message was forwarded only after the announcement, and
    only if [onMessage] forwards it. *)
Definition guarded (s : Session) (acts : list Action) : Prop :=
  (active s = true ->
   awaiting s = false /\ length (connections acts) = 1%nat)
  /\ (active s = false -> connections acts = [] /\ messages acts = [])
  /\ (forall pre m post,
        acts = pre ++ HandlerMessage m :: post ->
        length (connections pre) = 1%nat /\ forwardable m).




End Conn.

(** ** Start-up: the port and the socket path *)

Module Startup.

(** What an attempt to listen or to connect comes to: success, or an
    error with its [code], if it has one. *)
Inductive Outcome :=
  | Success
  | Failure (code : option string).

Definition portRange : Z * Z := (6463, 6472).

(** The ports of the [while] loop of [WSServer.start], in the order it
    tries them. *)
Definition ports : list Z :=
  map (fun i => portRange.1 + Z.of_nat i)
      (seq 0 (Z.to_nat (portRange.2 - portRange.1 + 1))).

Inductive Started :=
  | Listening (port : Z)
  | Rethrown (port : Z) (code : option string)
  | NoAvailablePorts.

(** [WSServer.start], given what [http.listen(port, "127.0.0.1")] comes to
    for each port. *)
Fixpoint try_ports (listen : Z -> Outcome) (ps : list Z) : Started :=
  match ps with
  | [] => NoAvailablePorts
  | port :: ps' =>
      match listen port with
      | Success => Listening port
      | Failure code =>
          if bool_decide (code = Some "EADDRINUSE") then try_ports listen ps'
          else Rethrown port code
      end
  end.

Definition start (listen : Z -> Outcome) : Started := try_ports listen ports.

(** [`${SOCKET_PATH}-${i}`] *)
Definition socket_path (SOCKET_PATH : string) (i : nat) : string :=
  SOCKET_PATH +:+ "-" +:+ Process.index_name i.

(** Nobody listens at the path: the error codes on which the path is
    taken over. *)
Definition unused (o : Outcome) : bool :=
  match o with
  | Success => false
  | Failure code =>
      bool_decide (code = Some "ECONNREFUSED")
      || bool_decide (code = Some "ENOENT")
  end.

(** The loop of [getAvailableSocket] from index [i] on, [n] indices to
    go, given what [createConnection(path)] comes to for each path: the
    path returned ([None] when it throws, out of tries) and the calls of
    [unlinkSync]. *)
Fixpoint probe_from (win32 : bool) (SOCKET_PATH : string)
    (connect : string -> Outcome) (n i : nat) : option string * list string :=
  match n with
  | O => (None, [])
  | S n' =>
      let path := socket_path SOCKET_PATH i in
      if unused (connect path)
      then (Some path, if win32 then [] else [path])
      else probe_from win32 SOCKET_PATH connect n' (S i)
  end.

Definition getAvailableSocket (win32 : bool) (SOCKET_PATH : string)
    (connect : string -> Outcome) : option string * list string :=
  probe_from win32 SOCKET_PATH connect 10 0.

End Startup.

(** ** The scan timer *)

Module Timer.

Import Process.

Definition SCAN_INTERVAL : Z := 5000.
Definition MIN_SCAN_INTERVAL : Z := 1000.

(** The callback [init] hands to [setInterval]: it reads the clock and
    scans when the last scan started long enough ago. *)
Definition tick (clock : Clock) (srv : ProcessServer)
    (processes : list ProcessEntry) (calls0 : nat)
  : ProcessServer * list Message * nat :=
  let now := clock calls0 in
  if MIN_SCAN_INTERVAL <=? now - lastScanTime srv
  then scan clock srv processes (S calls0)
  else (srv, [], S calls0).

End Timer.


(** ** A sample dialogue *)

Module Dialogue.

(** What a client sends: its handshake, a request, and a request that
    lacks its arguments. *)
Definition hello : json := JObj [("v", JNum 1); ("client_id", JStr "123")].

Definition request : json :=
  JObj [("cmd", JStr "SET_ACTIVITY"); ("args", JObj [])].

Definition incomplete : json := JObj [("cmd", JStr "SET_ACTIVITY")].

Definition known : list json := [hello; request; incomplete].

Definition stringify (x : json) : list byte := Sample.bytes (Sample.text x).

(** [JSON.parse] on the texts of the dialogue. *)
Definition parse (b : list byte) : option json :=
  find (fun x => bool_decide (Byte.to_N <$> stringify x = Byte.to_N <$> b))
       known.

Definition codec : IPC.Codec :=
  {| IPC.JSON_parse := parse; IPC.JSON_stringify := stringify |}.


End Dialogue.


(** * Properties *)

(** ** The primitives on examples *)

Example replace_first_only :
  Js.replace ".exe" EmptyString "a.exe.exe" = "a.exe".
Proof. reflexivity. Qed.

Example replaceAll_single_pass :
  Js.replaceAll "64" EmptyString "a6644" = "a64".
Proof. reflexivity. Qed.

Example split_pop_path :
  Js.pop (Js.split "/" "c:/games/game.exe") = Some "game.exe".
Proof. reflexivity. Qed.

Example parseInt10_examples :
  Js.parseInt10 "1.5" = Some 1 /\ Js.parseInt10 " +01x" = Some 1 /\
  Js.parseInt10 "-2" = Some (-2) /\ Js.parseInt10 "v1" = None.
Proof. repeat split. Qed.

Example Object_keys_order :
  Obj.keys [("b", 1); ("10", 2); ("a", 3); ("9", 4); ("007", 5)]
  = ["9"; "10"; "b"; "a"; "007"].
Proof. vm_compute. reflexivity. Qed.

Example strict_marker_ingested :
  Downloader.transformExecutable "win32"
    {| Downloader.name := ">Game.exe"; Downloader.os := "win32";
       Downloader.arguments := None |}
  = Some {| e_n := "game.exe"; e_a := None; e_s := true |}.
Proof. reflexivity. Qed.

(** ** Strings *)

Section StringFacts.

Lemma string_app_cons c s t : String c s +:+ t = String c (s +:+ t).
Proof. reflexivity. Qed.

Lemma string_app_nil_l s : EmptyString +:+ s = s.
Proof. reflexivity. Qed.

Lemma startsWith_nil s : Js.startsWith s EmptyString = true.
Proof. by destruct s. Qed.

Lemma startsWith_app p s : Js.startsWith (p +:+ s) p = true.
Proof.
  induction p as [|c p IH]; [apply startsWith_nil|].
  rewrite string_app_cons. simpl. by rewrite Ascii.eqb_refl.
Qed.

Lemma slice_app p s : Js.slice (String.length p) (p +:+ s) = s.
Proof. induction p as [|c p IH]; simpl; [by destruct s | done]. Qed.

Lemma string_app_nil_r s : s +:+ EmptyString = s.
Proof.
  induction s as [|c s IH]; [done|]. by rewrite string_app_cons, IH.
Qed.

Lemma string_app_assoc a b c : (a +:+ b) +:+ c = a +:+ (b +:+ c).
Proof.
  induction a as [|x a IH]; [done|]. by rewrite !string_app_cons, IH.
Qed.

Lemma string_app_length a b :
  String.length (a +:+ b) = (String.length a + String.length b)%nat.
Proof.
  induction a as [|x a IH]; [done|]. rewrite string_app_cons. simpl.
  by rewrite IH.
Qed.

End StringFacts.

(** ** Ingestion of the database *)

Section Ingestion.

Import Downloader.

Lemma lower_char_idem c : Js.lower_char (Js.lower_char c) = Js.lower_char c.
Proof. by destruct c as [[] [] [] [] [] [] [] []]. Qed.

Lemma toLowerCase_idem s : Js.toLowerCase (Js.toLowerCase s) = Js.toLowerCase s.
Proof.
  induction s as [|c s IH]; simpl; [done|]. by rewrite lower_char_idem, IH.
Qed.

(** Names are lowercase once ingested. *)
Lemma transformExecutable_lowercase currentPlatform exec e :
  transformExecutable currentPlatform exec = Some e ->
  Js.toLowerCase (e_n e) = e_n e.
Proof.
  unfold transformExecutable.
  destruct (decide (name exec = EmptyString)); [done|].
  destruct (decide (name exec = "lms.exe")); [done|].
  match goal with |- (if ?b then _ else _) = _ -> _ => destruct b end;
    [done|].
  intros [= <-]. simpl. apply toLowerCase_idem.
Qed.

(** The strict flag is the marker [>] at the head of the raw name, and the
    marker is not part of the stored name. *)
Lemma transformExecutable_marker currentPlatform exec e rest :
  name exec = String ">" rest ->
  Js.endsWith (name exec) "project8.exe" = false ->
  transformExecutable currentPlatform exec = Some e ->
  e_s e = true /\ e_n e = Js.toLowerCase rest.
Proof.
  intros Hname Hp8. unfold transformExecutable. rewrite Hp8, Hname.
  destruct (decide (String ">" rest = EmptyString)); [done|].
  destruct (decide (String ">" rest = "lms.exe")); [done|].
  match goal with |- (if ?b then _ else _) = _ -> _ => destruct b end;
    [done|].
  intros [= <-]. simpl. by rewrite startsWith_nil.
Qed.

End Ingestion.


(** ** The executable match test *)

Section Matching.

Import Process.

Variables candidateKey filename fullPath cwdPath : string.
Variable args : list string.

Lemma exec_matches_strict exec :
  e_s exec = true ->
  exec_matches candidateKey filename fullPath cwdPath args exec = true ->
  e_n exec = filename.
Proof.
  intros Hs. unfold exec_matches. rewrite Hs.
  destruct (match e_a exec with Some _ => _ | None => _ end); [done|].
  by intros ?%bool_decide_eq_true.
Qed.

(** A strict entry does match its own name when no argument text is
    required. *)
Lemma exec_matches_strict_exact exec :
  e_s exec = true -> e_a exec = None -> e_n exec = filename ->
  exec_matches candidateKey filename fullPath cwdPath args exec = true.
Proof.
  intros Hs Ha Hn. unfold exec_matches. rewrite Hs, Ha.
  by apply bool_decide_eq_true.
Qed.

(** A game all of whose entries are strict matches no process whose
    filename is none of the stored names. *)
Lemma checkGameMatch_all_strict game execs :
  g_e game = Some execs ->
  Forall (fun exec => e_s exec = true /\ e_n exec <> filename) execs ->
  checkGameMatch game candidateKey filename fullPath cwdPath args = false.
Proof.
  intros He Hall. unfold checkGameMatch. rewrite He. clear He.
  induction Hall as [|exec execs [Hs Hn] _ IH]; simpl; [done|].
  rewrite IH, orb_false_r.
  destruct (exec_matches _ _ _ _ _ exec) eqn:E; [|done].
  apply exec_matches_strict in E; [congruence | done].
Qed.

(** C2. For an executable entry with [strict = true] and a process whose
    filename is not exactly the stored name, the executable match test
    returns false for that entry, whatever the candidate key, the path, the
    working directory and the arguments: no loose check is tried. *)
Theorem strict_entry_matches_exact_filename_only exec :
  e_s exec = true ->
  filename <> e_n exec ->
  exec_matches candidateKey filename fullPath cwdPath args exec = false.
Proof.
  intros Hs Hne.
  destruct (exec_matches _ _ _ _ _ exec) eqn:E; [|done].
  apply exec_matches_strict in E; [congruence | done].
Qed.

End Matching.

Lemma strict_entry_matches_exact_filename_only_witness :
  Process.exec_matches "game" "game64.exe" "c:/games/game64.exe" "c:/games" []
    {| e_n := "game.exe"; e_a := None; e_s := true |} = false.
Proof.
  apply strict_entry_matches_exact_filename_only; [reflexivity | discriminate].
Defined.

(** The scenario of the specification: [">game.exe"] is ingested as a
    strict entry; [game64.exe] does not match it although the loose checks
    would accept the candidate key [game.exe], and [game.exe] matches. *)
Example strict_scenario :
  let exec := {| e_n := "game.exe"; e_a := None; e_s := true |} in
  Downloader.transformExecutable "win32"
    {| Downloader.name := ">game.exe"; Downloader.os := EmptyString;
       Downloader.arguments := None |} = Some exec
  /\ "game.exe" ∈ Process.candidates "game64.exe"
  /\ Process.exec_matches "game.exe" "game64.exe" "c:/games/game64.exe"
       "c:/games" [] exec = false
  /\ Process.exec_matches "game.exe" "game64.exe" "c:/games/game64.exe"
       "c:/games" [] {| e_n := "game.exe"; e_a := None; e_s := false |} = true
  /\ Process.exec_matches "game.exe" "game.exe" "c:/games/game.exe"
       "c:/games" [] exec = true.
Proof.
  split_and!; try reflexivity.
  apply (bool_decide_unpack _). by vm_compute.
Qed.

(** ** The candidate keys *)

Section Candidates.

Import Process CandidateSpec.

Lemma slice_nil n : Js.slice n EmptyString = EmptyString.
Proof. by destruct n. Qed.

Lemma replace_unfold pat rep s :
  Js.replace pat rep s =
  if Js.startsWith s pat then rep +:+ Js.slice (String.length pat) s
  else match s with
       | EmptyString => EmptyString
       | String c s' => String c (Js.replace pat rep s')
       end.
Proof. by destruct s. Qed.

Lemma indexOf_unfold s pat :
  indexOf s pat =
  if Js.startsWith s pat then Some O
  else match s with
       | EmptyString => None
       | String _ s' => S <$> indexOf s' pat
       end.
Proof. by destruct s. Qed.

(** [String.prototype.replace] with a string pattern and an empty
    replacement cuts the first occurrence out and nothing else. *)
Lemma replace_cuts_first_occurrence pat s :
  Js.replace pat EmptyString s =
  match indexOf s pat with
  | Some i => String.substring 0 i s +:+ Js.slice (i + String.length pat) s
  | None => s
  end.
Proof.
  induction s as [|c s IH]; rewrite replace_unfold, indexOf_unfold.
  - destruct (Js.startsWith EmptyString pat); [|done].
    by rewrite !slice_nil.
  - destruct (Js.startsWith (String c s) pat); [done|].
    rewrite IH. destruct (indexOf s pat) as [i|]; [|done].
    change (S <$> Some i) with (Some (S i)). cbn [String.substring Js.slice Nat.add].
    by rewrite string_app_cons.
Qed.

Lemma elem_of_set_add (k x : string) (s : list string) :
  k ∈ set_add x s <-> k = x \/ k ∈ s.
Proof.
  unfold set_add. destruct (decide (x ∈ s)) as [Hin|Hin].
  - split; [by right | by intros [->|?]].
  - rewrite elem_of_app, list_elem_of_singleton. tauto.
Qed.

Lemma elem_of_candidates k f :
  k ∈ candidates f <->
  k = f \/ k = Js.replace ".exe" EmptyString f \/ k = stripBitness f
  \/ k = stripBitness (Js.replace ".exe" EmptyString f).
Proof.
  unfold candidates. rewrite !elem_of_set_add, elem_of_nil. tauto.
Qed.

Lemma NoDup_set_add x (s : list string) : NoDup s -> NoDup (set_add x s).
Proof.
  intros Hs. unfold set_add. destruct (decide (x ∈ s)) as [?|Hx]; [done|].
  apply NoDup_app. split_and!; [done| |apply NoDup_singleton].
  intros y Hy ->%list_elem_of_singleton. done.
Qed.

Lemma NoDup_candidates f : NoDup (candidates f).
Proof. unfold candidates. repeat apply NoDup_set_add. constructor. Qed.

Lemma replace_exe_cut f :
  Js.replace ".exe" EmptyString f = without_first_exe f.
Proof. apply (replace_cuts_first_occurrence ".exe" f). Qed.

(** The candidate keys the scan derives from a filename [f]: [f]; [f]
    with its first occurrence of [.exe] cut out, wherever it stands; what
    [stripBitness] makes of [f]; and what it makes of the second. *)
Lemma candidates_cut_first_exe f k :
  k ∈ candidates f <->
  k ∈ [f; without_first_exe f; stripBitness f;
       stripBitness (without_first_exe f)].
Proof.
  rewrite elem_of_candidates, replace_exe_cut.
  rewrite !elem_of_cons, elem_of_nil. tauto.
Qed.

End Candidates.

Section TrailingExe.

Import Process CandidateSpec.

Lemma slice_length n s :
  String.length (Js.slice n s) = (String.length s - n)%nat.
Proof.
  revert s. induction n as [|n IH]; intros s; simpl; [lia|].
  destruct s as [|c s]; simpl; [done | apply IH].
Qed.

Lemma length_zero_empty s : String.length s = O -> s = EmptyString.
Proof. by destruct s. Qed.

Lemma startsWith_same_length s p :
  Js.startsWith s p = true -> String.length s = String.length p -> s = p.
Proof.
  revert s. induction p as [|a p IH]; intros [|b s]; simpl; try done.
  destruct (Ascii.eqb_spec a b) as [->|]; [|done].
  intros Hs [= Hlen]. f_equal. by apply IH.
Qed.

Lemma indexOf_Some s p i :
  indexOf s p = Some i -> Js.startsWith (Js.slice i s) p = true.
Proof.
  revert i. induction s as [|c s IH]; intros i; rewrite indexOf_unfold.
  - destruct (Js.startsWith EmptyString p) eqn:E; [|done].
    intros [= <-]. done.
  - destruct (Js.startsWith (String c s) p) eqn:E.
    + intros [= <-]. done.
    + destruct (indexOf s p) as [j|]; [|done].
      intros [= <-]. simpl. by apply IH.
Qed.

Lemma indexOf_None s p i :
  indexOf s p = None -> Js.startsWith (Js.slice i s) p = false.
Proof.
  revert i. induction s as [|c s IH]; intros i; rewrite indexOf_unfold.
  - destruct (Js.startsWith EmptyString p) eqn:E; [done|].
    intros _. by rewrite slice_nil.
  - destruct (Js.startsWith (String c s) p) eqn:E; [done|].
    destruct (indexOf s p) as [j|] eqn:Ej; [done|].
    intros _. destruct i as [|i]; [done|]. simpl. by apply IH.
Qed.

(** Where [.exe] does not occur, or occurs first at the very end, cutting
    its first occurrence is removing the trailing extension: on those
    names the candidate keys are the four the specification lists. *)
Lemma only_trailing_exe_agrees f :
  indexOf f ".exe" = None
  \/ (indexOf f ".exe" = Some (String.length f - 4)%nat
      /\ (4 <= String.length f)%nat) ->
  without_first_exe f = without_trailing_exe f
  /\ forall k, k ∈ candidates f <-> k ∈ spec_candidates f.
Proof.
  intros Hf.
  assert (without_first_exe f = without_trailing_exe f) as Heq.
  { unfold without_first_exe, without_trailing_exe, Js.endsWith.
    destruct Hf as [Hnone|[Hsome Hlen]].
    - rewrite Hnone.
      rewrite (proj2 (String.eqb_neq _ _)); [by rewrite andb_false_r|].
      intros Hs. pose proof (indexOf_None f ".exe"
                               (String.length f - String.length ".exe")
                               Hnone) as Hn.
      by rewrite Hs in Hn.
    - rewrite Hsome. pose proof (indexOf_Some _ _ _ Hsome) as Hs.
      apply startsWith_same_length in Hs;
        [|rewrite slice_length; simpl; lia].
      simpl String.length. rewrite Hs, String.eqb_refl.
      destruct (Nat.leb_spec 4 (String.length f)); [|lia]. simpl.
      rewrite (length_zero_empty (Js.slice _ f));
        [apply string_app_nil_r | rewrite slice_length; lia]. }
  split; [done|]. intros k.
  rewrite elem_of_candidates, replace_exe_cut, Heq. unfold spec_candidates.
  rewrite !elem_of_cons, elem_of_nil. tauto.
Qed.

End TrailingExe.

(** C7, on the code. The scan cuts the first [.exe] out of a filename,
    wherever it stands, where the extension is meant: [game.exe.bak], whose
    [.exe] does not end the name, gets the key [game.bak], and
    [my.exercise.exe] loses the [.exe] inside it and becomes
    [myrcise.exe]; the keys of the specification keep the first name
    unchanged and cut the second to [my.exercise].  And the four passes of
    [stripBitness] can leave a bitness token behind: [game6644.exe] gets
    the keys [game64.exe] and [game64]. *)
Theorem candidates_cut_inner_exe :
  Js.endsWith "game.exe.bak" ".exe" = false
  /\ Process.candidates "game.exe.bak" = ["game.exe.bak"; "game.bak"]
  /\ CandidateSpec.without_trailing_exe "game.exe.bak" = "game.exe.bak"
  /\ ("game.bak" ∉ CandidateSpec.spec_candidates "game.exe.bak")
  /\ Js.endsWith "my.exercise.exe" ".exe" = true
  /\ Process.candidates "my.exercise.exe"
     = ["my.exercise.exe"; "myrcise.exe"]
  /\ CandidateSpec.without_trailing_exe "my.exercise.exe" = "my.exercise"
  /\ ("my.exercise" ∉ Process.candidates "my.exercise.exe")
  /\ Process.candidates "game6644.exe"
     = ["game6644.exe"; "game6644"; "game64.exe"; "game64"]
  /\ CandidateSpec.bitness_free (Process.stripBitness "game6644.exe") = false.
Proof.
  split_and!; try reflexivity.
  - apply (bool_decide_unpack _). by vm_compute.
  - apply (bool_decide_unpack _). by vm_compute.
Qed.

(** Where [.exe] occurs once, at the end, both readings agree. *)
Example candidates_trailing_exe :
  Process.candidates "game_64.exe" = ["game_64.exe"; "game_64"; "game.exe"; "game"]
  /\ CandidateSpec.spec_candidates "game_64.exe"
     = ["game_64.exe"; "game_64"; "game.exe"; "game"].
Proof. split; reflexivity. Qed.

(** ** Plain objects *)

Section ObjFacts.

Context {V : Type}.
Implicit Types (o : list (string * V)) (k : string) (v : V).

Lemma get_set_eq o k v : Obj.get (Obj.set o k v) k = Some v.
Proof.
  induction o as [|[k' v'] o IH]; simpl.
  - by rewrite decide_True.
  - destruct (decide (k' = k)) as [->|Hne]; simpl.
    + by rewrite decide_True.
    + by rewrite decide_False.
Qed.

Lemma get_set_ne o k k' v :
  k <> k' -> Obj.get (Obj.set o k v) k' = Obj.get o k'.
Proof.
  intros Hne. induction o as [|[k0 v0] o IH]; simpl.
  - by rewrite decide_False.
  - destruct (decide (k0 = k)) as [->|Hne0]; simpl.
    + by rewrite !decide_False.
    + by rewrite IH.
Qed.

Lemma get_delete_eq o k : Obj.get (Obj.delete o k) k = None.
Proof.
  unfold Obj.delete. induction o as [|[k0 v0] o IH]; [done|].
  rewrite filter_cons. simpl. destruct (decide (k0 <> k)) as [Hne|Heq]; simpl.
  - by rewrite decide_False.
  - done.
Qed.

Lemma get_delete_ne o k k' :
  k <> k' -> Obj.get (Obj.delete o k) k' = Obj.get o k'.
Proof.
  intros Hne. unfold Obj.delete. induction o as [|[k0 v0] o IH]; [done|].
  rewrite filter_cons. simpl. destruct (decide (k0 <> k)) as [Hne0|Heq]; simpl.
  - by rewrite IH.
  - apply dec_stable in Heq as ->. by rewrite decide_False.
Qed.

Lemma elem_of_created o k : k ∈ Obj.created o <-> is_Some (Obj.get o k).
Proof.
  induction o as [|[k0 v0] o IH]; simpl.
  - rewrite elem_of_nil. split; [done | by intros [? ?]].
  - rewrite elem_of_cons, list_elem_of_filter, IH.
    destruct (decide (k0 = k)) as [->|Hne].
    + split; [by eexists | by left].
    + split; [by intros [->|[_ ?]] | intros ?; right; by split].
Qed.

Lemma NoDup_created o : NoDup (Obj.created o).
Proof.
  induction o as [|[k0 v0] o IH]; simpl; [constructor|].
  constructor; [|by apply NoDup_filter].
  rewrite list_elem_of_filter. by intros [? _].
Qed.

Lemma keys_created o : Obj.keys o ≡ₚ Obj.created o.
Proof.
  unfold Obj.keys. rewrite merge_sort_Permutation.
  rewrite (list_filter_iff (fun k => Obj.array_index k = None)
             (fun k => ~ is_Some (Obj.array_index k))).
  - apply filter_app_complement.
  - intros k. apply eq_None_not_Some.
Qed.

Lemma elem_of_keys o k : k ∈ Obj.keys o <-> is_Some (Obj.get o k).
Proof. by rewrite keys_created, elem_of_created. Qed.

Lemma NoDup_keys o : NoDup (Obj.keys o).
Proof. rewrite keys_created. apply NoDup_created. Qed.

End ObjFacts.

(** ** State transitions of the engine *)

Section EngineFacts.

Import Process Observe.

Implicit Types (en : Engine) (out : list Message) (gid : string).

Lemma handle_game_other en out g gid :
  gid <> id g ->
  let r := handle_game (en, out) g in
  Obj.get (en_timestamps r.1) gid = Obj.get (en_timestamps en) gid
  /\ Obj.get (en_names r.1) gid = Obj.get (en_names en) gid
  /\ Obj.get (en_pids r.1) gid = Obj.get (en_pids en) gid
  /\ addressed_to gid r.2 = addressed_to gid out.
Proof.
  intros Hne. unfold handle_game, addressed_to. simpl. split_and!.
  - destruct (falsy _); [|done]. by rewrite get_set_ne.
  - by rewrite get_set_ne.
  - by rewrite get_set_ne.
  - rewrite filter_app, filter_cons_False, filter_nil, app_nil_r; [done|].
    simpl. congruence.
Qed.

Lemma handle_games_other games en out gid :
  gid ∉ map id games ->
  let r := foldl handle_game (en, out) games in
  Obj.get (en_timestamps r.1) gid = Obj.get (en_timestamps en) gid
  /\ Obj.get (en_names r.1) gid = Obj.get (en_names en) gid
  /\ Obj.get (en_pids r.1) gid = Obj.get (en_pids en) gid
  /\ addressed_to gid r.2 = addressed_to gid out.
Proof.
  revert en out. induction games as [|g games IH]; intros en out Hnin; [done|].
  simpl in Hnin. apply not_elem_of_cons in Hnin as [Hne Hnin].
  cbn [foldl]. destruct (handle_game (en, out) g) as [en1 out1] eqn:E.
  destruct (handle_game_other en out g gid Hne) as (H1 & H2 & H3 & H4).
  rewrite E in H1, H2, H3, H4. simpl in *.
  destruct (IH en1 out1 Hnin) as (I1 & I2 & I3 & I4).
  split_and!; congruence.
Qed.

Lemma cleanup_id_unfold (activeIds : gset string) en out g :
  cleanup_id activeIds (en, out) g =
  if decide (g ∈ activeIds) then (en, out)
  else (forget en g, out ++ [clear_activity g (Obj.get (en_pids en) g)]).
Proof. reflexivity. Qed.

(** The loop of [cleanupLostGames] over distinct ids: the lost ones are
    forgotten, and one clear message goes out for each, with the pid
    [pids] held when the loop began. *)
Lemma cleanup_fold (activeIds : gset string) ks en out :
  NoDup ks ->
  let lost := filter (fun g => g ∉ activeIds) ks in
  foldl (cleanup_id activeIds) (en, out) ks =
  (foldl forget en lost,
   out ++ map (fun g => clear_activity g (Obj.get (en_pids en) g)) lost).
Proof.
  revert en out. induction ks as [|g ks IH]; intros en out Hnd.
  - simpl. by rewrite app_nil_r.
  - apply NoDup_cons in Hnd as [Hg Hnd]. cbn [foldl].
    rewrite filter_cons, cleanup_id_unfold.
    destruct (decide (g ∈ activeIds)) as [Hin|Hnin].
    + rewrite decide_False by (by intros ?). by apply IH.
    + rewrite decide_True by done. rewrite IH by done. simpl.
      f_equal. rewrite <-app_assoc. f_equal. simpl. f_equal.
      apply map_ext_in. intros g' Hg'%list_elem_of_In.
      apply list_elem_of_filter in Hg' as [_ Hg'].
      unfold clear_activity. f_equal.
      apply get_delete_ne. by intros ->.
Qed.

Lemma forget_all_lost lost en gid :
  gid ∈ lost ->
  let en' := foldl forget en lost in
  Obj.get (en_timestamps en') gid = None
  /\ Obj.get (en_names en') gid = None
  /\ Obj.get (en_pids en') gid = None.
Proof.
  revert en. induction lost as [|g lost IH]; intros en Hin.
  - by apply elem_of_nil in Hin.
  - simpl. destruct (decide (gid ∈ lost)) as [Hl|Hl]; [by apply IH|].
    apply elem_of_cons in Hin as [->|?]; [|done].
    clear IH. revert en. induction lost as [|g' lost IH]; intros en; simpl.
    + by rewrite !get_delete_eq.
    + apply not_elem_of_cons in Hl as [Hne Hl].
      specialize (IH Hl (forget en g')).
      assert (forget (forget en g) g' = forget (forget en g') g) as ->; [|done].
      unfold forget, Obj.delete. simpl. f_equal;
        rewrite !list_filter_filter; apply list_filter_iff; tauto.
Qed.

Lemma addressed_to_clears (f : string -> option Z) lost gid :
  NoDup lost -> gid ∈ lost ->
  addressed_to gid (map (fun g => clear_activity g (f g)) lost)
  = [clear_activity gid (f gid)].
Proof.
  unfold addressed_to. induction lost as [|g lost IH]; intros Hnd Hin.
  - by apply elem_of_nil in Hin.
  - apply NoDup_cons in Hnd as [Hg Hnd]. simpl.
    destruct (decide (g = gid)) as [->|Hne].
    + rewrite filter_cons_True by done. f_equal.
      clear IH Hin. induction lost as [|g' lost IH]; [done|].
      apply not_elem_of_cons in Hg as [Hne Hg]. simpl.
      rewrite filter_cons_False by (simpl; congruence).
      apply IH; [done | by apply NoDup_cons in Hnd as [_ ?]].
    + rewrite filter_cons_False by done.
      apply IH; [done|]. by apply elem_of_cons in Hin as [->|?].
Qed.

(** [handleScanResults] on a game id that is active and not among the
    games of the scan. *)
Lemma handleScanResults_lost en games gid :
  is_Some (Obj.get (en_timestamps en) gid) ->
  gid ∉ map id games ->
  let r := handleScanResults en games in
  Obj.get (en_timestamps r.1) gid = None
  /\ Obj.get (en_names r.1) gid = None
  /\ Obj.get (en_pids r.1) gid = None
  /\ addressed_to gid r.2 = [clear_activity gid (Obj.get (en_pids en) gid)].
Proof.
  intros Hact Hnin. unfold handleScanResults, cleanupLostGames.
  destruct (handle_games_other games en [] gid Hnin) as (H1 & H2 & H3 & H4).
  destruct (foldl handle_game (en, []) games) as [en1 out1]. simpl in *.
  rewrite cleanup_fold by apply NoDup_keys.
  assert (gid ∈ filter (fun g => g ∉ (list_to_set (map id games) : gset string))
                   (Obj.keys (en_timestamps en1))) as Hlost.
  { apply list_elem_of_filter. split.
    - by rewrite elem_of_list_to_set.
    - apply elem_of_keys. by rewrite H1. }
  simpl. destruct (forget_all_lost _ en1 gid Hlost) as (F1 & F2 & F3).
  split_and!; [done..|].
  unfold addressed_to in *. rewrite filter_app, H4. simpl.
  fold (addressed_to gid
          (map (fun g => clear_activity g (Obj.get (en_pids en1) g))
               (filter (fun g => g ∉ (list_to_set (map id games) : gset string))
                       (Obj.keys (en_timestamps en1))))).
  rewrite addressed_to_clears; [by rewrite H3 | | done].
  apply NoDup_filter, NoDup_keys.
Qed.

End EngineFacts.

(** ** The scan loop *)

Section ScanLoop.

Import Process Observe.

Variable clock : Clock.
Variable ts : list (string * Z).
Variable index : gmap string (list DetectableGame).

(** Whatever holds at the start of the loop and is kept by the two moves
    it makes, marking a signature as seen and recording a detection under
    a signature, holds when the loop is done. *)
Lemma scan_process_invariant (P : Scan -> Prop) :
  (forall key sc, P sc -> P (mark_seen key sc)) ->
  (forall rawPath args cwd gid gname gpid sc,
      P sc ->
      P (record clock ts (cacheKey_of rawPath args cwd) gid gname gpid sc)) ->
  forall sc p, P sc -> P (scan_process clock ts index sc p).
Proof.
  intros Hseen Hrec sc p HP. unfold scan_process.
  set (rawPath := normalize (p_path p)).
  set (cwdPath := normalize (default EmptyString (p_cwd p))).
  set (key := cacheKey_of rawPath (p_args p) cwdPath).
  destruct (sc_cache sc !! key) as [cached|]; [by apply Hrec, Hseen|].
  destruct (negb _); [by apply Hseen|].
  destruct (Js.pop _) as [filename|]; [|by apply Hseen].
  destruct (decide _); [by apply Hseen|].
  generalize (candidates filename). intros cands.
  assert (P (mark_seen key sc)) as HP' by by apply Hseen.
  revert HP'. generalize (mark_seen key sc). clear HP sc.
  induction cands as [|cand cands IH]; intros sc HP; [done|].
  cbn [foldl]. apply IH. unfold scan_candidate.
  destruct (index !! cand) as [matches|]; [|done].
  revert sc HP. induction matches as [|game matches IHm]; intros sc HP; [done|].
  cbn [foldl]. apply IHm. unfold scan_game.
  destruct (checkGameMatch _ _ _ _ _ _); [by apply Hrec | done].
Qed.

Lemma scan_fold_invariant (P : Scan -> Prop) :
  (forall key sc, P sc -> P (mark_seen key sc)) ->
  (forall rawPath args cwd gid gname gpid sc,
      P sc ->
      P (record clock ts (cacheKey_of rawPath args cwd) gid gname gpid sc)) ->
  forall processes sc,
    P sc -> P (foldl (scan_process clock ts index) sc processes).
Proof.
  intros Hseen Hrec processes.
  induction processes as [|p processes IH]; intros sc HP; [done|].
  cbn [foldl]. by apply IH, scan_process_invariant.
Qed.

Lemma record_unfold key gid gname gpid sc :
  record clock ts key gid gname gpid sc =
  let g := {| id := gid; name := gname; pid := gpid;
              timestamp := (stamp clock ts gid (calls sc)).1 |} in
  {| sc_cache := <[key := g]> (sc_cache sc);
     detectedGames := Obj.set (detectedGames sc) gid g;
     cacheKeys := cacheKeys sc;
     calls := (stamp clock ts gid (calls sc)).2 |}.
Proof. unfold record. by destruct (stamp _ _ _ _). Qed.

Lemma keyed_by_id_set dg g :
  keyed_by_id dg -> keyed_by_id (Obj.set dg (id g) g).
Proof.
  unfold keyed_by_id. induction 1 as [|[k g'] dg Hk Hdg IH]; simpl.
  - by constructor.
  - destruct (decide (k = id g)); constructor; done.
Qed.

Lemma scan_fold_keyed_by_id processes sc :
  keyed_by_id (detectedGames sc) ->
  keyed_by_id (detectedGames (foldl (scan_process clock ts index) sc processes)).
Proof.
  apply (scan_fold_invariant (fun sc => keyed_by_id (detectedGames sc))).
  - done.
  - intros. rewrite record_unfold. simpl.
    by apply (keyed_by_id_set _ {| id := gid |}).
Qed.

End ScanLoop.

Section Results.

Import Process Observe.

Lemma keyed_by_id_ids dg :
  keyed_by_id dg -> map id (Obj.values dg) = map fst dg.
Proof.
  unfold Obj.values. induction 1 as [|[k g] dg Hk _ IH]; simpl in *; [done|].
  by rewrite Hk, IH.
Qed.

Lemma get_None_not_key {V} (o : list (string * V)) k :
  Obj.get o k = None <-> k ∉ map fst o.
Proof.
  induction o as [|[k0 v0] o IH]; simpl.
  - split; [intros _; apply not_elem_of_nil | done].
  - rewrite not_elem_of_cons. destruct (decide (k0 = k)) as [->|Hne].
    + split; [done | by intros [? _]].
    + rewrite IH. split; [by split; [intros ->|] | by intros [_ ?]].
Qed.

Lemma scan_results_keyed clock srv processes calls0 :
  keyed_by_id (scan_results clock srv processes calls0).
Proof. apply scan_fold_keyed_by_id. constructor. Qed.

(** C6. For every game id that is active before a scan and absent from
    the scan's result mapping, the scan removes the id from [timestamps],
    [names] and [pids], and the messages it sends to the session of that id
    are exactly one clear-activity message ([activity: null]) carrying the
    pid [pids] held for the game before the scan. *)
Theorem lost_game_cleared_once clock srv processes calls0 gid :
  isScanning srv = false ->
  active srv gid ->
  Obj.get (scan_results clock srv processes calls0) gid = None ->
  let '(srv', out, _) := scan clock srv processes calls0 in
  Obj.get (timestamps srv') gid = None
  /\ Obj.get (names srv') gid = None
  /\ Obj.get (pids srv') gid = None
  /\ addressed_to gid out = [clear_activity gid (Obj.get (pids srv) gid)].
Proof.
  intros Hidle Hact Habs. unfold scan. rewrite Hidle.
  fold (scan_results clock srv processes calls0).
  pose proof (scan_results_keyed clock srv processes calls0) as Hkeyed.
  apply get_None_not_key in Habs.
  rewrite <-keyed_by_id_ids in Habs by done.
  pose proof (handleScanResults_lost (engine srv) _ gid Hact Habs) as H.
  destruct (handleScanResults _ _) as [en out]. simpl in *. exact H.
Qed.

End Results.

Lemma lost_game_cleared_once_witness :
  let clock : Process.Clock := fun n => 1000 + Z.of_nat n in
  let srv :=
    {| Process.timestamps := [("123", 1001)];
       Process.names := [("123", "Example Game")];
       Process.pids := [("123", 42)];
       Process.cache := ∅;
       Process.detectionMap := ∅;
       Process.isScanning := false;
       Process.lastScanTime := 1000 |} in
  let '(srv', out, _) := Process.scan clock srv [] 3 in
  Obj.get (Process.timestamps srv') "123" = None
  /\ Obj.get (Process.names srv') "123" = None
  /\ Obj.get (Process.pids srv') "123" = None
  /\ Observe.addressed_to "123" out = [Observe.clear_activity "123" (Some 42)].
Proof.
  intros clock srv.
  exact (lost_game_cleared_once clock srv [] 3 "123"
           eq_refl (ex_intro _ 1001 eq_refl) eq_refl).
Defined.

(** ** The cache maintenance *)

Section Sweep.

Import Process Observe.

Lemma includes_unfold s sub :
  Js.includes s sub =
  Js.startsWith s sub ||
  match s with
  | EmptyString => false
  | String _ s' => Js.includes s' sub
  end.
Proof. by destruct s. Qed.

Lemma includes_app_r a b sub :
  Js.includes b sub = true -> Js.includes (a +:+ b) sub = true.
Proof.
  intros Hb. induction a as [|c a IH]; [done|].
  rewrite string_app_cons, includes_unfold, IH. apply orb_true_r.
Qed.

Lemma includes_app_here a b : Js.includes (a +:+ b) a = true.
Proof. by rewrite includes_unfold, startsWith_app. Qed.

(** Every signature holds the NUL that separates path and arguments. *)
Lemma cacheKey_has_NUL rawPath args cwdPath :
  Js.includes (cacheKey_of rawPath args cwdPath) NUL = true.
Proof. unfold cacheKey_of. apply includes_app_r, includes_app_here. Qed.

(** An index name is made of decimal digits. *)
Lemma uint_string_no_NUL u :
  Js.includes (NilEmpty.string_of_uint u) NUL = false.
Proof. induction u; simpl; by rewrite ?IHu. Qed.

Lemma index_name_no_NUL i : Js.includes (index_name i) NUL = false.
Proof. apply uint_string_no_NUL. Qed.

(** The deletions of the maintenance step name no signature: on a cache
    keyed by signatures the step removes nothing, however many entries it
    holds and however few signatures the scan saw. *)
Lemma sweep_removes_nothing (c : gmap string DetectedGame) fetched :
  signatures_only c -> sweep c fetched = c.
Proof.
  intros Hsig. unfold sweep. destruct (_ <? _)%nat; [|done].
  generalize (seq 0 (size c)). intros l.
  induction l as [|i l IH] using rev_ind; [done|].
  rewrite foldl_app. simpl. rewrite IH. apply delete_id.
  apply eq_None_not_Some. intros Hk%Hsig.
  by rewrite index_name_no_NUL in Hk.
Qed.

Lemma scan_loop_signatures_only clock srv processes calls0 :
  signatures_only (cache srv) ->
  signatures_only (sc_cache (scan_loop clock srv processes calls0)).
Proof.
  intros Hsig. unfold scan_loop.
  apply (scan_fold_invariant clock _ _
           (fun sc => signatures_only (sc_cache sc))); [done| |done].
  intros rawPath args cwd gid gname gpid sc Hsc k.
  rewrite record_unfold. simpl. rewrite lookup_insert_is_Some.
  intros [<-|[_ ?]]; [apply cacheKey_has_NUL | by apply Hsc].
Qed.

Lemma scan_loop_cache_grows clock srv processes calls0 k :
  is_Some (cache srv !! k) ->
  is_Some (sc_cache (scan_loop clock srv processes calls0) !! k).
Proof.
  intros Hk. unfold scan_loop.
  apply (scan_fold_invariant clock _ _
           (fun sc => is_Some (sc_cache sc !! k))); [done| |done].
  intros rawPath args cwd gid gname gpid sc Hsc.
  rewrite record_unfold. simpl. rewrite lookup_insert_is_Some.
  destruct (decide (cacheKey_of rawPath args cwd = k)); auto.
Qed.

(** A scan never takes a signature out of the cache. *)
Lemma scan_keeps_every_signature clock srv processes calls0 k :
  signatures_only (cache srv) ->
  is_Some (cache srv !! k) ->
  is_Some (cache (scan clock srv processes calls0).1.1 !! k).
Proof.
  intros Hsig Hk. unfold scan. destruct (isScanning srv); [done|].
  destruct (handleScanResults _ _) as [en out]. simpl.
  rewrite sweep_removes_nothing by by apply scan_loop_signatures_only.
  by apply scan_loop_cache_grows.
Qed.

Lemma scan_signatures_only clock srv processes calls0 :
  signatures_only (cache srv) ->
  signatures_only (cache (scan clock srv processes calls0).1.1).
Proof.
  intros Hsig. unfold scan. destruct (isScanning srv); [done|].
  destruct (handleScanResults _ _) as [en out]. simpl.
  rewrite sweep_removes_nothing by by apply scan_loop_signatures_only.
  by apply scan_loop_signatures_only.
Qed.

End Sweep.

(** C1, on the code. After a scan that saw the game started with three
    argument lists the cache holds three signatures; the next scan sees
    one of them, so the cache holds more than twice the signatures seen and
    the maintenance step runs; the cache still holds all three, two of
    which the scan did not see. *)
Theorem sweep_leaves_unseen_signatures :
  let seen_first :=
    [Scenario.game_process ["-a"]; Scenario.game_process ["-b"];
     Scenario.game_process ["-c"]] in
  let seen_second := [Scenario.game_process ["-a"]] in
  let '(srv1, _, calls1) :=
    Process.scan Scenario.clock (Process.init Scenario.db) seen_first 0 in
  let '(srv2, _, _) := Process.scan Scenario.clock srv1 seen_second calls1 in
  size (Process.cache srv1) = 3%nat
  /\ size (Process.cacheKeys
             (Process.scan_loop Scenario.clock srv1 seen_second (S calls1)))
     = 1%nat
  /\ size (Process.cache srv2) = 3%nat
  /\ is_Some (Process.cache srv2 !! Scenario.signature ["-b"])
  /\ is_Some (Process.cache srv2 !! Scenario.signature ["-c"]).
Proof. vm_compute. split_and!; try reflexivity; by eexists. Qed.

(** ** Timestamps of detected games *)

Section Timestamps.

Import Process Observe.

Implicit Types (en : Engine) (out : list Message) (gid : string).

Lemma forget_not_lost lost en gid :
  gid ∉ lost ->
  let en' := foldl forget en lost in
  Obj.get (en_timestamps en') gid = Obj.get (en_timestamps en) gid
  /\ Obj.get (en_names en') gid = Obj.get (en_names en) gid
  /\ Obj.get (en_pids en') gid = Obj.get (en_pids en) gid.
Proof.
  revert en. induction lost as [|g lost IH]; intros en Hnin; [done|].
  apply not_elem_of_cons in Hnin as [Hne Hnin]. simpl.
  destruct (IH (forget en g) Hnin) as (H1 & H2 & H3).
  rewrite H1, H2, H3. unfold forget. simpl.
  by rewrite !get_delete_ne by done.
Qed.

Lemma addressed_to_no_clear (f : string -> option Z) lost gid :
  gid ∉ lost ->
  addressed_to gid (map (fun g => clear_activity g (f g)) lost) = [].
Proof.
  unfold addressed_to. induction lost as [|g lost IH]; intros Hnin; [done|].
  apply not_elem_of_cons in Hnin as [Hne Hnin]. simpl.
  rewrite filter_cons_False by (simpl; congruence). by apply IH.
Qed.

Lemma handle_game_this en out g :
  let r := handle_game (en, out) g in
  Obj.get (en_timestamps r.1) (id g)
    = Some (announced_start (en_timestamps en) g)
  /\ Obj.get (en_names r.1) (id g) = Some (name g)
  /\ Obj.get (en_pids r.1) (id g) = Some (pid g)
  /\ addressed_to (id g) r.2
     = addressed_to (id g) out
       ++ [set_activity g (announced_start (en_timestamps en) g)].
Proof.
  unfold handle_game, addressed_to, announced_start, falsy. simpl.
  assert (Obj.get
            (if match Obj.get (en_timestamps en) (id g) with
                | Some t => t =? 0
                | None => true
                end
             then Obj.set (en_timestamps en) (id g) (timestamp g)
             else en_timestamps en) (id g)
          = Some match Obj.get (en_timestamps en) (id g) with
                 | Some t => if t =? 0 then timestamp g else t
                 | None => timestamp g
                 end) as Hts.
  { destruct (Obj.get (en_timestamps en) (id g)) as [t|] eqn:E.
    - destruct (t =? 0); [apply get_set_eq | done].
    - apply get_set_eq. }
  rewrite Hts, !get_set_eq. split_and!; [done..|].
  rewrite filter_app, filter_cons_True by done. done.
Qed.

(** [handleScanResults] on a game of the scan: its start is the one
    announced, and the messages to its session are one set-activity. *)
Lemma handleScanResults_detected en games g :
  NoDup (map id games) ->
  g ∈ games ->
  let r := handleScanResults en games in
  let t := announced_start (en_timestamps en) g in
  Obj.get (en_timestamps r.1) (id g) = Some t
  /\ Obj.get (en_names r.1) (id g) = Some (name g)
  /\ Obj.get (en_pids r.1) (id g) = Some (pid g)
  /\ addressed_to (id g) r.2 = [set_activity g t].
Proof.
  intros Hnd Hin. unfold handleScanResults, cleanupLostGames.
  assert (id g ∈ (list_to_set (map id games) : gset string)) as Hact.
  { rewrite elem_of_list_to_set. by apply list_elem_of_fmap_2. }
  revert Hact. generalize (list_to_set (map id games) : gset string).
  intros activeIds Hact.
  apply list_elem_of_split in Hin as (l1 & l2 & ->).
  rewrite map_app in Hnd. simpl in Hnd.
  apply NoDup_app in Hnd as (_ & Hl1 & Hnd).
  apply NoDup_cons in Hnd as [Hl2 _].
  assert (id g ∉ map id l1) as Hl1'.
  { intros Hi. apply (Hl1 _ Hi). by left. }
  rewrite foldl_app. cbn [foldl].
  destruct (handle_games_other l1 en [] (id g) Hl1') as (A1 & A2 & A3 & A4).
  destruct (foldl handle_game (en, []) l1) as [en1 out1]. cbn [fst snd] in *.
  destruct (handle_game_this en1 out1 g) as (B1 & B2 & B3 & B4).
  destruct (handle_game (en1, out1) g) as [en2 out2]. cbn [fst snd] in *.
  destruct (handle_games_other l2 en2 out2 (id g) Hl2) as (C1 & C2 & C3 & C4).
  destruct (foldl handle_game (en2, out2) l2) as [en3 out3]. cbn [fst snd] in *.
  rewrite cleanup_fold by apply NoDup_keys. cbn [fst snd].
  set (lost := filter (fun g0 => g0 ∉ activeIds) (Obj.keys (en_timestamps en3))).
  assert (id g ∉ lost) as Hlost.
  { unfold lost. rewrite list_elem_of_filter. tauto. }
  destruct (forget_not_lost lost en3 (id g) Hlost) as (D1 & D2 & D3).
  rewrite D1, D2, D3, C1, C2, C3, B1, B2, B3.
  unfold announced_start. rewrite A1. split_and!; [done..|].
  unfold addressed_to in *. rewrite filter_app.
  fold (addressed_to (id g)
          (map (fun g0 => clear_activity g0 (Obj.get (en_pids en3) g0)) lost)).
  rewrite addressed_to_no_clear by done.
  rewrite app_nil_r, C4, B4, A4. unfold announced_start. by rewrite A1.
Qed.

Lemma get_Some_elem {V} (o : list (string * V)) k v :
  Obj.get o k = Some v -> (k, v) ∈ o.
Proof.
  induction o as [|[k0 v0] o IH]; simpl; [done|].
  destruct (decide (k0 = k)) as [->|Hne].
  - intros [= ->]. by left.
  - intros ?. right. by apply IH.
Qed.

Lemma set_keys {V} (o : list (string * V)) k v :
  map fst (Obj.set o k v)
  = if decide (k ∈ map fst o) then map fst o else map fst o ++ [k].
Proof.
  induction o as [|[k0 v0] o IH]; simpl; [done|].
  destruct (decide (k0 = k)) as [->|Hne]; simpl.
  - rewrite decide_True by by left. done.
  - rewrite IH. destruct (decide (k ∈ map fst o)) as [Hin|Hnin].
    + rewrite decide_True by by right. done.
    + rewrite decide_False; [done|].
      intros [?|?]%elem_of_cons; congruence.
Qed.

Lemma NoDup_set_keys {V} (o : list (string * V)) k v :
  NoDup (map fst o) -> NoDup (map fst (Obj.set o k v)).
Proof.
  intros Hnd. rewrite set_keys. destruct (decide _) as [?|Hnin]; [done|].
  apply NoDup_app. split_and!; [done| |apply NoDup_singleton].
  intros x Hx ->%list_elem_of_singleton. done.
Qed.

Variable clock : Clock.

Lemma stamp_calls ts gid c :
  (c <= (stamp clock ts gid c).2)%nat.
Proof.
  unfold stamp. destruct (Obj.get ts gid) as [t|]; [destruct (t =? 0)|];
    simpl; lia.
Qed.

Lemma stamp_value ts gid c :
  if falsy (Obj.get ts gid)
  then (stamp clock ts gid c).1 = clock c /\ (stamp clock ts gid c).2 = S c
  else Obj.get ts gid = Some (stamp clock ts gid c).1.
Proof.
  unfold stamp, falsy. destruct (Obj.get ts gid) as [t|]; [|done].
  by destruct (t =? 0).
Qed.

Lemma scan_loop_stamped srv processes c0 :
  stamped clock (timestamps srv) c0 (scan_loop clock srv processes c0).
Proof.
  unfold scan_loop.
  apply (scan_fold_invariant clock _ _ (stamped clock (timestamps srv) c0)).
  - done.
  - intros rawPath args cwd gid gname gpid sc [Hc Hsc].
    rewrite record_unfold. split; simpl.
    { pose proof (stamp_calls (timestamps srv) gid (calls sc)). lia. }
    intros gid' g'. destruct (decide (gid = gid')) as [<-|Hne].
    + rewrite get_set_eq. intros [= <-]. simpl.
      pose proof (stamp_value (timestamps srv) gid (calls sc)) as Hv.
      destruct (falsy _); [|done]. destruct Hv as [-> ->].
      exists (calls sc). split; [lia | done].
    + rewrite get_set_ne by done. intros Hg'. specialize (Hsc _ _ Hg').
      destruct (falsy _); [|done]. destruct Hsc as (n & Hn & Heq).
      exists n. split; [|done].
      pose proof (stamp_calls (timestamps srv) gid (calls sc)). lia.
  - split; [simpl; lia | done].
Qed.

Lemma scan_loop_NoDup srv processes c0 :
  NoDup (map fst (detectedGames (scan_loop clock srv processes c0))).
Proof.
  unfold scan_loop.
  apply (scan_fold_invariant clock _ _
           (fun sc => NoDup (map fst (detectedGames sc)))).
  - done.
  - intros. rewrite record_unfold. simpl. by apply NoDup_set_keys.
  - constructor.
Qed.

(** A game detected by a scan is announced once, with the start
    [announced_start] gives it, and that start is what [timestamps] holds
    afterwards. *)
Lemma detected_game_announced srv processes calls0 gid g :
  isScanning srv = false ->
  Obj.get (scan_results clock srv processes calls0) gid = Some g ->
  let '(srv', out, _) := scan clock srv processes calls0 in
  let t := announced_start (timestamps srv) g in
  id g = gid
  /\ Obj.get (timestamps srv') gid = Some t
  /\ addressed_to gid out = [set_activity g t].
Proof.
  intros Hidle Hg. unfold scan. rewrite Hidle.
  fold (scan_results clock srv processes calls0).
  pose proof (scan_results_keyed clock srv processes calls0) as Hkeyed.
  pose proof (scan_loop_NoDup srv processes (S calls0)) as Hnd.
  fold (scan_results clock srv processes calls0) in Hnd.
  apply get_Some_elem in Hg.
  assert (id g = gid) as Hid.
  { unfold keyed_by_id in Hkeyed. rewrite Forall_forall in Hkeyed.
    apply (Hkeyed _ Hg). }
  assert (g ∈ Obj.values (scan_results clock srv processes calls0)) as Hin.
  { unfold Obj.values. by apply (list_elem_of_fmap_2' snd _ (gid, g)). }
  rewrite <-keyed_by_id_ids in Hnd by done.
  pose proof (handleScanResults_detected (engine srv) _ g Hnd Hin) as H.
  destruct (handleScanResults _ _) as [en out]. simpl in *.
  rewrite <-Hid. tauto.
Qed.

(** While a game stays detected its timestamp does not change: a game
    that is active with a truthy timestamp [t] before the scan and is
    detected by it keeps [t] in the result mapping, in [timestamps] and in
    the one set-activity message. *)
Lemma staying_game_keeps_timestamp srv processes calls0 gid t g :
  isScanning srv = false ->
  Obj.get (timestamps srv) gid = Some t -> t <> 0 ->
  Obj.get (scan_results clock srv processes calls0) gid = Some g ->
  let '(srv', out, _) := scan clock srv processes calls0 in
  timestamp g = t
  /\ Obj.get (timestamps srv') gid = Some t
  /\ addressed_to gid out = [set_activity g t].
Proof.
  intros Hidle Ht Hnz Hg.
  pose proof (detected_game_announced srv processes calls0 gid g Hidle Hg) as H.
  destruct (scan_loop_stamped srv processes (S calls0)) as [_ Hst].
  specialize (Hst gid g Hg).
  destruct (scan clock srv processes calls0) as [[srv' out] calls'].
  destruct H as (Hid & H1 & H2).
  unfold announced_start in *. rewrite Hid, Ht in *.
  unfold falsy in Hst. apply Z.eqb_neq in Hnz. rewrite Hnz in *.
  by injection Hst as <-.
Qed.

(** A game that was not active and is detected gets a fresh timestamp: a
    reading the clock gave during this scan. *)
Lemma returning_game_fresh_timestamp srv processes calls0 gid g :
  isScanning srv = false ->
  Obj.get (timestamps srv) gid = None ->
  Obj.get (scan_results clock srv processes calls0) gid = Some g ->
  let '(srv', out, calls') := scan clock srv processes calls0 in
  read_between clock (S calls0) calls' g
  /\ Obj.get (timestamps srv') gid = Some (timestamp g)
  /\ addressed_to gid out = [set_activity g (timestamp g)].
Proof.
  intros Hidle Ht Hg.
  pose proof (detected_game_announced srv processes calls0 gid g Hidle Hg) as H.
  destruct (scan_loop_stamped srv processes (S calls0)) as [_ Hst].
  specialize (Hst gid g Hg). revert H. unfold scan. rewrite Hidle.
  destruct (handleScanResults _ _) as [en out]. simpl.
  intros (Hid & H1 & H2).
  unfold announced_start in *. rewrite Hid, Ht in *. by simpl in Hst.
Qed.

End Timestamps.

(** ** Coherence of the engine state *)

Section Coherence.

Import Process Observe.

Lemma handle_game_coherent en out g :
  coherent en -> coherent (handle_game (en, out) g).1.
Proof.
  intros Hen gid Hts.
  destruct (decide (gid = id g)) as [->|Hne].
  - destruct (handle_game_this en out g) as (_ & -> & -> & _). by split.
  - destruct (handle_game_other en out g gid Hne) as (H1 & H2 & H3 & _).
    rewrite H1 in Hts. rewrite H2, H3. by apply Hen.
Qed.

Lemma handle_games_coherent games en out :
  coherent en -> coherent (foldl handle_game (en, out) games).1.
Proof.
  revert en out. induction games as [|g games IH]; intros en out Hen; [done|].
  cbn [foldl]. pose proof (handle_game_coherent en out g Hen) as H1.
  destruct (handle_game (en, out) g) as [en1 out1]. by apply IH.
Qed.

Lemma forget_coherent lost en :
  coherent en -> coherent (foldl forget en lost).
Proof.
  intros Hen gid Hts. destruct (decide (gid ∈ lost)) as [Hin|Hnin].
  - destruct (forget_all_lost lost en gid Hin) as (H1 & _).
    rewrite H1 in Hts. by destruct Hts.
  - destruct (forget_not_lost lost en gid Hnin) as (H1 & H2 & H3).
    rewrite H1 in Hts. rewrite H2, H3. by apply Hen.
Qed.

Lemma handleScanResults_coherent en games :
  coherent en -> coherent (handleScanResults en games).1.
Proof.
  intros Hen. unfold handleScanResults, cleanupLostGames.
  pose proof (handle_games_coherent games en [] Hen) as H1.
  destruct (foldl handle_game (en, []) games) as [en1 out1].
  cbn [fst snd] in *. rewrite cleanup_fold by apply NoDup_keys.
  by apply forget_coherent.
Qed.

(** From [init] on, every scan leaves the engine coherent: the pid a clear
    message carries is a pid some scan recorded. *)
Lemma scan_coherent clock srv processes calls0 :
  coherent (engine srv) ->
  coherent (engine (scan clock srv processes calls0).1.1).
Proof.
  intros Hen. unfold scan. destruct (isScanning srv); [done|].
  pose proof (handleScanResults_coherent (engine srv)
                (Obj.values (detectedGames
                   (scan_loop clock srv processes (S calls0)))) Hen) as H.
  destruct (handleScanResults _ _) as [en out]. by destruct en.
Qed.

Lemma init_coherent db : coherent (engine (init db)).
Proof. intros gid [t Ht]. done. Qed.

End Coherence.


(** The scenario of the specification: the game is announced when its
    process is observed, announced again with the same start while the
    process stays, and cleared with the last pid when it is gone. *)
Example scenario_set_then_clear :
  let here := [Scenario.game_process []] in
  let '(srv1, out1, calls1) :=
    Process.scan Scenario.clock (Process.init Scenario.db) here 0 in
  let '(srv2, out2, calls2) := Process.scan Scenario.clock srv1 here calls1 in
  let '(srv3, out3, _) := Process.scan Scenario.clock srv2 [] calls2 in
  let g := {| Process.id := "123"; Process.name := "Example Game";
              Process.pid := 42; Process.timestamp := 1700000000001 |} in
  out1 = [Observe.set_activity g 1700000000001]
  /\ out2 = out1
  /\ out3 = [Observe.clear_activity "123" (Some 42)]
  /\ Process.timestamps srv3 = [].
Proof. vm_compute. by split_and!. Qed.


(** C3, on the code. Two database records list [game.exe]. The first
    scan of a process list holding that one process detects both games;
    the cache keeps the later match only, so the second scan of the same
    list detects game B alone and sends a clear-activity message for game
    A. *)
Theorem second_scan_loses_co_matched_game :
  let processes := [Scenario.game_process []] in
  let srv0 := Process.init Scenario.db_shared in
  let '(srv1, out1, calls1) := Process.scan Scenario.clock srv0 processes 0 in
  let '(srv2, out2, _) := Process.scan Scenario.clock srv1 processes calls1 in
  map fst (Observe.scan_results Scenario.clock srv0 processes 0) = ["A"; "B"]
  /\ map fst (Observe.scan_results Scenario.clock srv1 processes calls1)
     = ["B"]
  /\ Observe.addressed_to "A" out2 = [Observe.clear_activity "A" (Some 42)]
  /\ Obj.get (Process.timestamps srv2) "A" = None.
Proof. vm_compute. by split_and!. Qed.

(** ** The frame reader *)

Section Bytes.

Import IPC.

Lemma Z_of_byte_of_Z z : Z_of_byte (byte_of_Z z) = z mod 256.
Proof.
  unfold Z_of_byte, byte_of_Z.
  assert (0 <= z mod 256 < 256) as Hr by (apply Z.mod_pos_bound; lia).
  destruct (Byte.of_N (Z.to_N (z mod 256))) as [b|] eqn:E; simpl.
  - apply Byte.to_of_N in E. rewrite E. lia.
  - apply Byte.of_N_None_iff in E. lia.
Qed.

Lemma int32_bytes z :
  -2147483648 <= z < 2147483648 ->
  let u := z mod 256 + 256 * ((z / 256) mod 256)
           + 65536 * ((z / 65536) mod 256)
           + 16777216 * ((z / 16777216) mod 256) in
  (if u <? 2147483648 then u else u - 4294967296) = z.
Proof.
  intros Hz. cbv zeta.
  assert (z mod 256 + 256 * ((z / 256) mod 256)
          + 65536 * ((z / 65536) mod 256)
          + 16777216 * ((z / 16777216) mod 256) = z mod 4294967296) as ->.
  { Z.div_mod_to_equations. lia. }
  destruct (Z.ltb_spec (z mod 4294967296) 2147483648);
    Z.div_mod_to_equations; lia.
Qed.

Lemma readInt32LE_type z more :
  -2147483648 <= z < 2147483648 ->
  readInt32LE (writeInt32LE z ++ more) 0 = z.
Proof.
  intros Hz. unfold readInt32LE, writeInt32LE. simpl.
  rewrite !Z_of_byte_of_Z. by apply int32_bytes.
Qed.

Lemma readInt32LE_size t z more :
  -2147483648 <= z < 2147483648 ->
  readInt32LE (writeInt32LE t ++ writeInt32LE z ++ more) 4 = z.
Proof.
  intros Hz. unfold readInt32LE, writeInt32LE. simpl.
  rewrite !Z_of_byte_of_Z. by apply int32_bytes.
Qed.

(** The header is read from the first eight bytes alone. *)
Lemma readInt32LE_app buf more offset :
  (offset + 4 <= length buf)%nat ->
  readInt32LE (buf ++ more) offset = readInt32LE buf offset.
Proof.
  intros Hlen. unfold readInt32LE.
  by rewrite !lookup_app_l by lia.
Qed.

End Bytes.


Section Reader.

Import IPC Wire.

Context `{Codec}.

Implicit Types (buf chunk : list byte) (k : list byte -> Socket * list Action).

(** A turn hands on strictly less than it was given. *)
Lemma read_turn_ext k k' buf :
  (forall rest, (length rest < length buf)%nat -> k rest = k' rest) ->
  read_turn k buf = read_turn k' buf.
Proof.
  intros Hk. unfold read_turn.
  destruct (Nat.ltb_spec (length buf) 8) as [?|Hlen]; [done|].
  destruct (_ || _); [done|].
  destruct (Nat.ltb_spec (length buf - 8) (Z.to_nat (readInt32LE buf 4)));
    [done|].
  destruct (_ =? 0); [done|].
  rewrite Hk; [done|]. rewrite length_drop. lia.
Qed.

(** The loop does not depend on its fuel once there is more of it than
    bytes in the buffer: it always comes to an end by itself. *)
Lemma read_loop_fuel fuel fuel' buf :
  (length buf < fuel)%nat -> (length buf < fuel')%nat ->
  read_loop fuel buf = read_loop fuel' buf.
Proof.
  revert fuel' buf. induction fuel as [|fuel IH]; intros fuel' buf Hf Hf';
    [lia|].
  destruct fuel' as [|fuel']; [lia|]. simpl.
  apply read_turn_ext. intros rest Hrest. apply IH; lia.
Qed.

(** [processSocketReadable] is its own loop body followed by itself. *)
Lemma processSocketReadable_unfold buf :
  processSocketReadable buf = read_turn processSocketReadable buf.
Proof.
  unfold processSocketReadable at 1. simpl.
  apply read_turn_ext. intros rest Hrest.
  unfold processSocketReadable. apply read_loop_fuel; lia.
Qed.

Lemma processSocketReadable_short buf :
  (length buf < 8)%nat -> processSocketReadable buf = (Open buf, []).
Proof.
  intros Hlen. rewrite processSocketReadable_unfold. unfold read_turn.
  by destruct (Nat.ltb_spec (length buf) 8); [|lia].
Qed.


Lemma deliver_all_destroyed chunks :
  deliver_all Destroyed chunks = (Destroyed, []).
Proof. induction chunks as [|c chunks IH]; [done|]. cbn. by rewrite IH. Qed.

(** Below eight bytes the listener returns at once and waits. *)
Lemma deliver_all_short buf c chunks :
  (length (buf ++ c) < 8)%nat ->
  deliver_all (Open buf) (c :: chunks) = deliver_all (Open (buf ++ c)) chunks.
Proof.
  intros Hlen. cbn [deliver_all deliver].
  rewrite processSocketReadable_short by done.
  by destruct (deliver_all (Open (buf ++ c)) chunks).
Qed.

End Reader.

(** ** Frames *)

Section Frames.

Import IPC Wire.

Context `{Codec}.

Lemma frame_length type payload :
  length (frame type payload) = (8 + length payload)%nat.
Proof. unfold frame, writeInt32LE. by rewrite !length_app. Qed.

Lemma encode_frame type data :
  encode type data = frame type (JSON_stringify data).
Proof. reflexivity. Qed.

(** Reading a buffer that begins with a whole frame whose payload is not
    empty and within the cap. *)
Lemma read_frame type payload more :
  int32 type -> payload <> [] -> within_cap payload ->
  processSocketReadable (frame type payload ++ more) =
  if negb (existsb (Z.eqb type) Types) then
    (Destroyed, [Log "Invalid IPC packet type"; SocketDestroy])
  else
    let go acts :=
      let '(s, rest) := processSocketReadable more in (s, acts ++ rest) in
    match JSON_parse payload with
    | None => go [Log "Failed to parse IPC JSON"]
    | Some data =>
        if type =? PING then
          go [Emit "ping" data; SocketWrite (encode PONG data)]
        else if type =? PONG then go [Emit "pong" data]
        else if type =? HANDSHAKE then go [Emit "handshake" data]
        else if type =? FRAME then go [Emit "request" data]
        else (Destroyed, [SocketEnd None; SocketDestroy])
    end.
Proof.
  intros Htype Hne Hcap. unfold within_cap, MAX_IPC_PAYLOAD in Hcap.
  assert (0 < length payload)%nat as Hpos.
  { destruct payload; simpl; [done | lia]. }
  rewrite processSocketReadable_unfold. unfold read_turn.
  rewrite length_app, frame_length.
  destruct (Nat.ltb_spec (8 + length payload + length more) 8); [lia|].
  unfold frame. rewrite <-!app_assoc.
  rewrite readInt32LE_type by done.
  rewrite readInt32LE_size by (unfold int32; lia).
  rewrite Nat2Z.id.
  destruct (Z.ltb_spec (Z.of_nat (length payload)) 0); [lia|].
  destruct (Z.ltb_spec MAX_IPC_PAYLOAD (Z.of_nat (length payload)));
    [unfold MAX_IPC_PAYLOAD in *; lia|].
  simpl orb. cbv iota.
  destruct (Nat.ltb_spec (8 + length payload + length more - 8)
              (length payload)); [lia|].
  destruct (Z.eqb_spec (Z.of_nat (length payload)) 0); [lia|].
  assert (drop 8 (writeInt32LE type
                    ++ writeInt32LE (Z.of_nat (length payload))
                    ++ payload ++ more) = payload ++ more) as ->.
  { done. }
  assert (drop (8 + length payload)
            (writeInt32LE type ++ writeInt32LE (Z.of_nat (length payload))
             ++ payload ++ more) = more) as ->.
  { change (drop (length payload) (payload ++ more) = more).
    by rewrite drop_app_length. }
  by rewrite take_app_length.
Qed.



(** A declared payload length that is negative or above the cap destroys
    the socket as soon as the header is buffered. *)
Lemma bad_length_destroys buf :
  (8 <= length buf)%nat ->
  readInt32LE buf 4 < 0 \/ MAX_IPC_PAYLOAD < readInt32LE buf 4 ->
  processSocketReadable buf
  = (Destroyed,
     [Log "Refusing oversized or invalid IPC payload"; SocketDestroy]).
Proof.
  intros Hlen Hbad. rewrite processSocketReadable_unfold. unfold read_turn.
  destruct (Nat.ltb_spec (length buf) 8); [lia|].
  destruct (Z.ltb_spec (readInt32LE buf 4) 0); [done|].
  destruct (Z.ltb_spec MAX_IPC_PAYLOAD (readInt32LE buf 4)); [done|lia].
Qed.

(** A whole frame of unknown type destroys the socket, when its payload
    is not empty. *)
Lemma unknown_type_destroys type payload more :
  int32 type -> payload <> [] -> within_cap payload ->
  existsb (Z.eqb type) Types = false ->
  processSocketReadable (frame type payload ++ more)
  = (Destroyed, [Log "Invalid IPC packet type"; SocketDestroy]).
Proof. intros ??? Hty. rewrite read_frame by done. by rewrite Hty. Qed.

(** One connection's bytes leave the read state of every other connection
    as it is. *)
Lemma server_deliver_other conns c c' chunk :
  c <> c' -> (server_deliver conns c chunk).1 !! c' = conns !! c'.
Proof.
  intros Hne. unfold server_deliver. destruct (starved conns); [done|].
  destruct (conns !! c) as [s|]; [|done].
  destruct (deliver s chunk) as [s' acts]. simpl.
  by rewrite lookup_insert_ne.
Qed.


(** The first bytes of a frame, short of the whole frame, as the reader
    finds them: below eight bytes and with a part of the payload it
    waits, with the header alone it spins. *)
Lemma incomplete_frame type payload k :
  int32 type -> within_cap payload ->
  (k < length (frame type payload))%nat ->
  processSocketReadable (take k (frame type payload))
  = (if (k =? 8)%nat then Spinning (take k (frame type payload))
     else Open (take k (frame type payload)), []).
Proof.
  intros Htype Hcap Hk. rewrite frame_length in Hk.
  set (buf := take k (frame type payload)).
  assert (length buf = k) as Hlen.
  { unfold buf. rewrite length_take, frame_length. lia. }
  destruct (decide (k < 8)%nat) as [?|Hk8].
  { rewrite processSocketReadable_short by lia.
    by destruct (Nat.eqb_spec k 8); [lia|]. }
  rewrite processSocketReadable_unfold. unfold read_turn.
  destruct (Nat.ltb_spec (length buf) 8); [lia|].
  assert (readInt32LE buf 4 = Z.of_nat (length payload)) as ->.
  { rewrite <-(readInt32LE_app buf (drop k (frame type payload))) by lia.
    unfold buf. rewrite take_drop. unfold frame.
    unfold within_cap, MAX_IPC_PAYLOAD in Hcap.
    apply readInt32LE_size. unfold int32. lia. }
  unfold within_cap in Hcap.
  destruct (Z.ltb_spec (Z.of_nat (length payload)) 0); [lia|].
  destruct (Z.ltb_spec MAX_IPC_PAYLOAD (Z.of_nat (length payload))); [lia|].
  simpl orb. cbv iota. rewrite Nat2Z.id, Hlen.
  destruct (Nat.ltb_spec (k - 8) (length payload)); [|lia].
  by destruct (k =? 8)%nat.
Qed.

(** A frame cut in two anywhere but right behind its header is read as
    it is in one piece. *)
Lemma split_elsewhere type payload k :
  int32 type -> within_cap payload ->
  (k < length (frame type payload))%nat -> k <> 8%nat ->
  deliver_all (Open [])
    [take k (frame type payload); drop k (frame type payload)]
  = deliver (Open []) (frame type payload).
Proof.
  intros Htype Hcap Hk Hk8. cbn [deliver_all deliver app].
  rewrite incomplete_frame by done.
  destruct (Nat.eqb_spec k 8); [done|]. cbn [deliver].
  rewrite take_drop.
  destruct (processSocketReadable (frame type payload)). by rewrite app_nil_r.
Qed.

(** C5, on the code. A frame whose payload is not empty and within the
    cap, delivered in two pieces cut right behind its eight header
    bytes, is never read: the listener that runs on the header takes it
    out of the buffer with [read(8)], puts it back with [unshift] and
    from then on runs again on every tick; the payload does not reach the
    buffer and no event is emitted.  Delivered in one piece the same
    frame is read, and announced with one event when its payload parses
    and its type is not CLOSE. *)
Theorem header_cut_never_read type payload :
  type ∈ Types ->
  payload <> [] -> within_cap payload ->
  let fr := frame type payload in
  deliver_all (Open []) [take 8 fr; drop 8 fr] = (Spinning (take 8 fr), [])
  /\ emitted (deliver (Open []) fr).2
     = match JSON_parse payload with
       | Some data => if type =? CLOSE then [] else [(event_of type, data)]
       | None => []
       end.
Proof.
  intros Htype Hne Hcap fr.
  assert (type = HANDSHAKE \/ type = FRAME \/ type = CLOSE \/ type = PING
          \/ type = PONG) as Hcases.
  { unfold Types in Htype. set_unfold. tauto. }
  assert (int32 type) as Hint.
  { unfold int32. destruct Hcases as [-> | [-> | [-> | [-> | ->]]]]; done. }
  assert (8 < length fr)%nat as Hlen.
  { unfold fr. rewrite frame_length. destruct payload; [done|]. cbn. lia. }
  split.
  - cbn [deliver_all deliver app]. unfold fr.
    rewrite incomplete_frame by done. by cbn.
  - cbn [deliver app]. rewrite <-(app_nil_r fr). unfold fr.
    rewrite read_frame by done.
    rewrite (processSocketReadable_short []) by (simpl; lia).
    destruct Hcases as [-> | [-> | [-> | [-> | ->]]]];
      by destruct (JSON_parse payload).
Qed.

End Frames.

Lemma header_cut_never_read_witness :
  let fr := Wire.frame IPC.FRAME (Sample.bytes "{}") in
  IPC.deliver_all (IPC.Open []) [take 8 fr; drop 8 fr]
  = (IPC.Spinning (take 8 fr), [])
  /\ Wire.emitted (IPC.deliver (IPC.Open []) fr).2 = [("request", JObj [])].
Proof.
  assert (IPC.FRAME ∈ IPC.Types) as Htype by set_solver.
  assert (Sample.bytes "{}" <> []) as Hne by discriminate.
  assert (Wire.within_cap (Sample.bytes "{}")) as Hcap
    by (unfold Wire.within_cap; by vm_compute).
  exact (header_cut_never_read IPC.FRAME (Sample.bytes "{}") Htype Hne Hcap).
Defined.

(** A frame of a known type within the cap is not always announced: a
    FRAME whose payload is not JSON is logged and skipped, and a CLOSE
    frame ends and destroys the socket. *)
Example frame_without_event :
  let bad := Wire.frame IPC.FRAME (Sample.bytes "{x") in
  let bye := Wire.frame IPC.CLOSE (Sample.bytes "{}") in
  IPC.deliver (IPC.Open []) bad
  = (IPC.Open [], [IPC.Log "Failed to parse IPC JSON"])
  /\ IPC.deliver (IPC.Open []) bye
     = (IPC.Destroyed, [IPC.SocketEnd None; IPC.SocketDestroy]).
Proof. vm_compute. by split_and!. Qed.

(** C8, on the code. A header of the unknown type 7 that declares an
    empty payload does not get the socket destroyed: [read(0)] returns
    [null], the reader puts the header back before it looks at the type,
    and the listener runs on the same header tick after tick.  A
    well-formed frame sent behind it never reaches the buffer, and bytes
    that arrive on another connection are not read either. *)
Theorem unknown_type_empty_payload_stalls :
  let header := Wire.frame 7 [] in
  let next := Wire.frame IPC.FRAME (Sample.bytes "{}") in
  let conns : gmap nat IPC.Socket :=
    {[ 0%nat := IPC.Spinning header; 1%nat := IPC.Open [] ]} in
  existsb (Z.eqb 7) IPC.Types = false
  /\ IPC.deliver (IPC.Open []) header = (IPC.Spinning header, [])
  /\ IPC.deliver_all (IPC.Open []) [header; next]
     = (IPC.Spinning header, [])
  /\ IPC.server_deliver conns 1%nat next = (conns, []).
Proof.
  intros header next conns. split_and!; by vm_compute.
Qed.

(** ** The handshake *)

Section Handshake.

Import Json IPC Wire.

Context `{Codec}.

(** The handshake listener runs at most once. *)
Lemma second_handshake_ignored s params :
  awaiting s = false -> onHandshake s params = Ok (s, []).
Proof. intros Hs. unfold onHandshake. by rewrite Hs. Qed.

Lemma handshake_not_awaiting_after s params s' acts :
  onHandshake s params = Ok (s', acts) -> awaiting s = true ->
  awaiting s' = false.
Proof.
  unfold onHandshake. intros Hr Hs. rewrite Hs in Hr. simpl in Hr.
  destruct (handshook s); [by injection Hr as <- <-|].
  destruct (member params "v") as [v|]; [|done].
  destruct (member params "client_id") as [cid|]; [|done].
  destruct (negb _); [by injection Hr as <- <-|].
  destruct (strict_eq_empty _); by injection Hr as <- <-.
Qed.


(** A [null] handshake payload makes the listener throw. *)
Lemma null_handshake_throws : onHandshake AWAITING_HANDSHAKE JNull = TypeError.
Proof. reflexivity. Qed.

End Handshake.



(** ** Messages *)

Section Messages.

Import Json IPC Wire.

Context `{Codec}.

Lemma onMessage_gate msg :
  msg <> JNull ->
  onMessage msg =
  Ok (if has_truthy msg "args" && has_truthy msg "cmd"
      then [HandlerMessage msg] else [Log "Invaild payload!"]).
Proof.
  intros Hmsg. unfold onMessage, has_truthy.
  destruct msg; try done; simpl;
    repeat (destruct (truthy _); simpl; try done).
Qed.

(** C9. On an active native session, a decoded FRAME payload that lacks
    a truthy [cmd] or a truthy [args] is logged and is not handed to the
    message handler: one line is logged, ["Invaild payload!"] by
    [onMessage] or, for the payload [null] on which the property read
    throws, the line of the read-error handler, which also closes the
    connection; the handler is called for the payloads with both fields
    truthy and for no others.  The WebSocket server hands every decoded
    message to the handler. *)
Theorem native_message_gate s message msg :
  active s = true ->
  has_truthy msg "cmd" && has_truthy msg "args" = false ->
  messages (request_guarded s msg message) = []
  /\ logged (request_guarded s msg message)
     = [match msg with
        | JNull => "error whilst reading"
        | _ => "Invaild payload!"
        end]
  /\ (forall other,
        messages (request_guarded s other message)
        = if has_truthy other "cmd" && has_truthy other "args"
          then [other] else [])
  /\ WS.onMessage msg = [WS.HandlerMessage msg].
Proof.
  intros Hs Hlack.
  assert (forall other,
            request_guarded s other message =
            match other with
            | JNull => onReadError message
            | _ => if has_truthy other "args" && has_truthy other "cmd"
                   then [HandlerMessage other] else [Log "Invaild payload!"]
            end) as Hrun.
  { intros other. unfold request_guarded, onRequest. rewrite Hs.
    destruct other; [done|rewrite onMessage_gate by done..];
      by destruct (_ && _). }
  split_and!.
  - rewrite Hrun. rewrite andb_comm in Hlack.
    destruct msg; try reflexivity; rewrite Hlack; reflexivity.
  - rewrite Hrun. rewrite andb_comm in Hlack.
    destruct msg; try reflexivity; rewrite Hlack; reflexivity.
  - intros other. rewrite Hrun, (andb_comm (has_truthy other "cmd")).
    destruct other; try reflexivity.
    destruct (has_truthy _ "args" && _); reflexivity.
  - reflexivity.
Qed.

End Messages.

Lemma native_message_gate_witness :
  let s := {| IPC.handshook := true; IPC.awaiting := false;
              IPC.active := true; IPC.clientId := Some (JStr "1234") |} in
  let msg := JObj [("cmd", JStr "SET_ACTIVITY")] in
  Wire.messages (Wire.request_guarded s msg EmptyString) = []
  /\ Wire.logged (Wire.request_guarded s msg EmptyString) = ["Invaild payload!"].
Proof.
  intros s msg.
  destruct (native_message_gate s EmptyString msg eq_refl eq_refl) as (H1 & H2 & _).
  by split.
Defined.

(** A [null] payload is not dropped quietly: the property read throws and
    the read-error handler closes the connection with code 1003. *)
Example null_payload_closes :
  IPC.onMessage JNull = Json.TypeError
  /\ Wire.request_guarded
       {| IPC.handshook := true; IPC.awaiting := false; IPC.active := true;
          IPC.clientId := Some (JStr "1234") |} JNull "TypeError"
     = [IPC.Log "error whilst reading";
        IPC.SocketEnd
          (Some (IPC.encode IPC.CLOSE
                   (JObj [("code", JNum 1003);
                          ("message", JStr "TypeError")])));
        IPC.SocketDestroy].
Proof. split; reflexivity. Qed.

(** ** Versions *)

Section Versions.

Import Json IPC Wire.

Context `{Codec}.

Lemma parseInt10_leading_one s : leading_one s -> Js.parseInt10 s = Some 1.
Proof.
  intros (rest & -> & Hrest). unfold Js.parseInt10. simpl.
  destruct rest as [|c rest]; [done|]. simpl.
  unfold Obj.is_digit in Hrest.
  by destruct (Js.digit_val c).
Qed.

(** C10. A client that omits the version, and a client whose version
    text has the leading integer part 1, pass the version check of both
    transports: the WebSocket server accepts the connection when the
    encoding is [json] or missing, the native server accepts the handshake
    when the client id is not empty. *)
Theorem version_missing_or_leading_one_accepted (version : option string) :
  version = None \/ (exists s, version = Some s /\ leading_one s) ->
  (forall enc cid,
      enc = None \/ enc = Some "json" ->
      WS.onConnection
        {| WS.v := version; WS.encoding := enc; WS.client_id := cid |}
      = [WS.HandlerConnection (Js.nullish cid EmptyString) "json"])
  /\ (forall cid,
        cid <> EmptyString ->
        onHandshake AWAITING_HANDSHAKE (handshake_params version cid)
        = Ok ({| handshook := true; awaiting := false; active := true;
                 clientId := Some (JStr cid) |},
              [HandlerConnection (JStr cid)])).
Proof.
  intros Hver.
  assert (Js.parseInt10 (Js.nullish version "1") = Some 1) as Hparse.
  { destruct Hver as [->|(s & -> & Hs)]; [done|].
    by apply parseInt10_leading_one. }
  split.
  - intros enc cid Henc. unfold WS.onConnection. simpl. rewrite Hparse.
    by destruct Henc as [->| ->].
  - intros cid Hcid. unfold onHandshake, handshake_params. simpl.
    destruct version as [s|]; simpl in *; unfold parseInt; simpl;
      rewrite ?Hparse; simpl; by destruct cid.
Qed.

End Versions.

Lemma version_missing_or_leading_one_accepted_witness :
  WS.onConnection
    {| WS.v := Some "1.5"; WS.encoding := None; WS.client_id := Some "1234" |}
  = [WS.HandlerConnection "1234" "json"]
  /\ IPC.onHandshake IPC.AWAITING_HANDSHAKE
       (Wire.handshake_params (Some "1.5") "1234")
     = Json.Ok ({| IPC.handshook := true; IPC.awaiting := false;
                   IPC.active := true; IPC.clientId := Some (JStr "1234") |},
                [IPC.HandlerConnection (JStr "1234")]).
Proof.
  destruct (version_missing_or_leading_one_accepted (Some "1.5")) as [Hws Hipc].
  - right. exists "1.5". split; [reflexivity|].
    exists ".5". split; reflexivity.
  - split.
    + apply (Hws None (Some "1234")). by left.
    + apply (Hipc "1234"). discriminate.
Defined.

(** * Further properties *)

(** ** The detection index *)

Section Index.

Import Process Run.

Lemma index_executable_indexed game m exec k g :
  g ∈ indexed (index_executable game m exec) k <->
  g ∈ indexed m k \/ (g = game /\ index_key exec = k).
Proof.
  unfold indexed, index_executable, index_key. cbn zeta.
  set (key := Js.nullish _ _). unfold Js.nullish at 1.
  destruct (decide (key = k)) as [->|Hne].
  - rewrite lookup_insert_eq. cbn. rewrite elem_of_app, list_elem_of_singleton.
    tauto.
  - rewrite lookup_insert_ne by done. tauto.
Qed.

Lemma index_executables_indexed game execs m k g :
  g ∈ indexed (foldl (index_executable game) m execs) k <->
  g ∈ indexed m k \/ (g = game /\ exists exec, exec ∈ execs /\ index_key exec = k).
Proof.
  revert m. induction execs as [|e execs IH]; intros m; cbn [foldl].
  - split; [tauto|]. intros [?|(_&e&He&_)]; [done|]. by apply elem_of_nil in He.
  - rewrite IH, index_executable_indexed. split.
    + intros [[?|[? ?]]|(?&e'&?&?)]; [tauto| |].
      * right. split; [done|]. exists e. split; [left|done].
      * right. split; [done|]. exists e'. split; [by right|done].
    + intros [?|(?&e'&He&?)]; [tauto|].
      apply elem_of_cons in He as [->|He]; [tauto|].
      right. split; [done|]. by exists e'.
Qed.

Lemma index_game_indexed game m k g :
  g ∈ indexed (index_game m game) k <->
  g ∈ indexed m k
  \/ (g = game /\ exists execs exec,
        g_e game = Some execs /\ exec ∈ execs /\ index_key exec = k).
Proof.
  unfold index_game. destruct (g_e game) as [execs|] eqn:E.
  - rewrite index_executables_indexed. split.
    + intros [?|(?&e&?&?)]; [tauto|]. right. split; [done|]. by exists execs, e.
    + intros [?|(?&ex&e&Hx&?&?)]; [tauto|]. injection Hx as <-. right. split; [done|]. by exists e.
  - split; [tauto|]. intros [?|(?&ex&e&Hx&?&?)]; [done|]. discriminate.
Qed.

Lemma index_games_indexed db m k g :
  g ∈ indexed (foldl index_game m db) k <->
  g ∈ indexed m k
  \/ (g ∈ db /\ exists execs exec,
        g_e g = Some execs /\ exec ∈ execs /\ index_key exec = k).
Proof.
  revert m. induction db as [|game db IH]; intros m; cbn [foldl].
  - split; [tauto|]. intros [?|(Hg&_)]; [done|]. by apply elem_of_nil in Hg.
  - rewrite IH, index_game_indexed. split.
    + intros [[?|[-> ?]]|[? ?]]; [tauto| |].
      * right. split; [left|done].
      * right. split; [by right|done].
    + intros [?|[Hg ?]]; [tauto|].
      apply elem_of_cons in Hg as [->|Hg]; [|tauto].
      left. right. done.
Qed.

Lemma index_executable_nonempty game m exec :
  (forall k, m !! k <> Some []) ->
  forall k, index_executable game m exec !! k <> Some [].
Proof.
  intros Hm k. unfold index_executable. cbn zeta.
  set (key := Js.nullish _ _).
  destruct (decide (key = k)) as [->|Hne].
  - rewrite lookup_insert_eq. intros [= E]. by destruct (Js.nullish (m !! k) []).
  - rewrite lookup_insert_ne by done. apply Hm.
Qed.

Lemma build_index_nonempty db k : build_index db !! k <> Some [].
Proof.
  unfold build_index.
  assert (forall k, (∅ : gmap string (list DetectableGame)) !! k <> Some []) as H0
    by (intros k'; by rewrite lookup_empty).
  revert H0. generalize (∅ : gmap string (list DetectableGame)).
  induction db as [|game db IH]; intros m Hm; cbn [foldl]; [apply Hm|].
  apply IH. unfold index_game. destruct (g_e game) as [execs|]; [|done].
  clear IH. revert m Hm. induction execs as [|e execs IH]; intros m Hm; cbn [foldl]; [done|].
  apply IH. by apply index_executable_nonempty.
Qed.

Lemma build_index_indexed db k game :
  game ∈ indexed (build_index db) k <->
  game ∈ db /\ exists execs exec,
    g_e game = Some execs /\ exec ∈ execs /\ index_key exec = k.
Proof.
  unfold build_index. rewrite index_games_indexed.
  unfold indexed at 1. rewrite lookup_empty. cbn [default].
  split; [intros [H|H]; [by apply elem_of_nil in H|done]|tauto].
Qed.
End Index.

(** ** What one process adds to a scan *)

Section Fresh.

Import Process Observe Run.

Variable clock : Clock.
Variable ts : list (string * Z).
Variable index : gmap string (list DetectableGame).

Local Abbreviation record_game key gpid :=
  (fun sc game => record clock ts key (g_i game) (g_n game) gpid sc).

Lemma scan_games_filter pid key cand filename rawPath cwdPath args matches sc :
  foldl (scan_game clock ts pid key cand filename rawPath cwdPath args)
    sc matches
  = foldl (record_game key pid) sc
      (filter (fun game =>
                 checkGameMatch game cand filename rawPath cwdPath args = true)
              matches).
Proof.
  revert sc. induction matches as [|game matches IH]; intros sc; [done|].
  cbn [foldl]. rewrite filter_cons, IH. unfold scan_game at 1.
  destruct (checkGameMatch game cand filename rawPath cwdPath args) eqn:E.
  - by rewrite decide_True.
  - by rewrite decide_False.
Qed.

Lemma scan_candidates_bind pid key filename rawPath cwdPath args cands sc :
  foldl (scan_candidate clock ts index pid key filename rawPath cwdPath args)
    sc cands
  = foldl (record_game key pid) sc
      (cand ← cands;
       filter (fun game =>
                 checkGameMatch game cand filename rawPath cwdPath args = true)
              (indexed index cand)).
Proof.
  revert sc. induction cands as [|cand cands IH]; intros sc; [done|].
  cbn [foldl]. rewrite bind_cons, foldl_app, IH. f_equal.
  unfold scan_candidate, indexed.
  destruct (index !! cand) as [matches|]; [apply scan_games_filter | done].
Qed.

(** What one turn of the loop does: on a cache hit it records the cached
    game again, for the pid of this process; otherwise it records the
    games of [fresh_matches], in order. *)
Lemma scan_process_eq sc p :
  scan_process clock ts index sc p =
  match sc_cache sc !! signature_of p with
  | Some c =>
      record clock ts (signature_of p) (id c) (name c) (p_pid p)
        (mark_seen (signature_of p) sc)
  | None =>
      foldl (record_game (signature_of p) (p_pid p))
        (mark_seen (signature_of p) sc) (fresh_matches index p)
  end.
Proof.
  unfold scan_process, fresh_matches, signature_of. cbn zeta.
  destruct (sc_cache sc !! _) as [c|]; [done|].
  destruct (negb _); [done|].
  destruct (Js.pop _) as [filename|]; [|done].
  destruct (decide _); [done|].
  apply scan_candidates_bind.
Qed.

Lemma record_cache_ne key k gid gname gpid sc :
  key <> k ->
  sc_cache (record clock ts key gid gname gpid sc) !! k = sc_cache sc !! k.
Proof. intros Hne. rewrite record_unfold. simpl. by rewrite lookup_insert_ne. Qed.

Lemma record_games_cache_ne key k gpid games sc :
  key <> k ->
  sc_cache (foldl (record_game key gpid) sc games) !! k = sc_cache sc !! k.
Proof.
  intros Hne. revert sc. induction games as [|g games IH]; intros sc; [done|].
  cbn [foldl]. by rewrite IH, record_cache_ne.
Qed.

(** A process leaves the cache entries of the other signatures alone. *)
Lemma scan_process_cache_ne sc p k :
  signature_of p <> k ->
  sc_cache (scan_process clock ts index sc p) !! k = sc_cache sc !! k.
Proof.
  intros Hne. rewrite scan_process_eq.
  destruct (sc_cache sc !! signature_of p) as [c|].
  - by rewrite record_cache_ne.
  - by rewrite record_games_cache_ne.
Qed.

Lemma scan_fold_cache_ne processes sc k :
  (forall q, q ∈ processes -> signature_of q <> k) ->
  sc_cache (foldl (scan_process clock ts index) sc processes) !! k
  = sc_cache sc !! k.
Proof.
  revert sc. induction processes as [|q processes IH]; intros sc Hq; [done|].
  cbn [foldl]. rewrite IH by (intros; apply Hq; by right).
  apply scan_process_cache_ne, Hq. by left.
Qed.

Lemma record_detected key gid gname gpid sc :
  is_Some (Obj.get (detectedGames (record clock ts key gid gname gpid sc)) gid).
Proof. rewrite record_unfold. simpl. rewrite get_set_eq. by eexists. Qed.

Lemma record_keeps_detected key gid gname gpid sc gid' :
  is_Some (Obj.get (detectedGames sc) gid') ->
  is_Some (Obj.get (detectedGames (record clock ts key gid gname gpid sc)) gid').
Proof.
  intros H. rewrite record_unfold. simpl.
  destruct (decide (gid = gid')) as [->|Hne].
  - rewrite get_set_eq. by eexists.
  - by rewrite get_set_ne.
Qed.

(** A game recorded once in a scan stays in its result mapping. *)
Lemma scan_fold_keeps_detected processes sc gid :
  is_Some (Obj.get (detectedGames sc) gid) ->
  is_Some (Obj.get
             (detectedGames (foldl (scan_process clock ts index) sc processes))
             gid).
Proof.
  apply (scan_fold_invariant clock ts index
           (fun sc => is_Some (Obj.get (detectedGames sc) gid))).
  - done.
  - intros. by apply record_keeps_detected.
Qed.

Lemma record_games_detected key gpid games sc game :
  game ∈ games ->
  is_Some (Obj.get (detectedGames (foldl (record_game key gpid) sc games))
             (g_i game)).
Proof.
  revert sc. induction games as [|g games IH]; intros sc Hin.
  - by apply elem_of_nil in Hin.
  - cbn [foldl]. apply elem_of_cons in Hin as [->|Hin]; [|by apply IH].
    generalize (record_detected key (g_i g) (g_n g) gpid sc).
    generalize (record clock ts key (g_i g) (g_n g) gpid sc).
    clear. induction games as [|g' games IH]; intros sc H; [done|].
    cbn [foldl]. apply IH. by apply record_keeps_detected.
Qed.

(** The first process of a list with a signature the cache lacks puts
    every game of its [fresh_matches] into the result mapping. *)
Lemma fresh_match_in_results before p after sc game :
  sc_cache sc !! signature_of p = None ->
  (forall q, q ∈ before -> signature_of q <> signature_of p) ->
  game ∈ fresh_matches index p ->
  is_Some (Obj.get
             (detectedGames
                (foldl (scan_process clock ts index) sc (before ++ p :: after)))
             (g_i game)).
Proof.
  intros Hnone Hfirst Hin. rewrite foldl_app. cbn [foldl].
  apply scan_fold_keeps_detected. rewrite scan_process_eq.
  rewrite scan_fold_cache_ne, Hnone by done.
  by apply record_games_detected.
Qed.

(** The id a signature is cached under does not change during the loop. *)
Lemma scan_process_cached_id sc p k c :
  sc_cache sc !! k = Some c ->
  exists c', sc_cache (scan_process clock ts index sc p) !! k = Some c'
             /\ id c' = id c.
Proof.
  intros Hk. destruct (decide (signature_of p = k)) as [<-|Hne].
  - rewrite scan_process_eq, Hk, record_unfold. simpl.
    rewrite lookup_insert_eq. by eexists.
  - rewrite scan_process_cache_ne by done. by exists c.
Qed.

Lemma scan_fold_cached_id processes sc k c :
  sc_cache sc !! k = Some c ->
  exists c', sc_cache (foldl (scan_process clock ts index) sc processes) !! k
             = Some c'
             /\ id c' = id c.
Proof.
  revert sc c. induction processes as [|q processes IH]; intros sc c Hk.
  - by exists c.
  - cbn [foldl].
    destruct (scan_process_cached_id sc q k c Hk) as (c1 & H1 & E1).
    destruct (IH _ _ H1) as (c2 & H2 & E2). exists c2. split; [done|congruence].
Qed.

(** A process with a cached signature puts the cached id into the result
    mapping. *)
Lemma cached_in_results processes p sc c :
  p ∈ processes ->
  sc_cache sc !! signature_of p = Some c ->
  is_Some (Obj.get
             (detectedGames (foldl (scan_process clock ts index) sc processes))
             (id c)).
Proof.
  intros Hin Hc. apply list_elem_of_split in Hin as (before & after & ->).
  rewrite foldl_app. cbn [foldl]. apply scan_fold_keeps_detected.
  destruct (scan_fold_cached_id before sc _ c Hc) as (c' & Hc' & <-).
  rewrite scan_process_eq, Hc'. apply record_detected.
Qed.

End Fresh.

(** ** Runs of scans *)

Section EngineRuns.

Import Process Observe Run.

Variable clock : Clock.

Lemma scan_idle srv processes calls0 :
  isScanning (scan clock srv processes calls0).1.1 = isScanning srv.
Proof.
  unfold scan. destruct (isScanning srv) eqn:E; [done|].
  by destruct (handleScanResults _ _).
Qed.


Lemma scans_app srv turns more calls0 :
  scans clock srv (turns ++ more) calls0 =
  let '(srv1, out1, calls1) := scans clock srv turns calls0 in
  let '(srv2, out2, calls2) := scans clock srv1 more calls1 in
  (srv2, out1 ++ out2, calls2).
Proof.
  revert srv calls0. induction turns as [|ps turns IH]; intros srv calls0.
  - cbn [app scans]. by destruct (scans _ _ _ _) as [[? ?] ?].
  - cbn [app scans]. destruct (scan _ _ _ _) as [[srv1 out1] calls1].
    rewrite IH. destruct (scans clock srv1 turns calls1) as [[srv2 out2] calls2].
    destruct (scans clock srv2 more calls2) as [[srv3 out3] calls3].
    by rewrite app_assoc.
Qed.

(** What every scan keeps, every run of scans keeps; what every scan
    sends, every run sends. *)
Lemma scans_invariant (I : ProcessServer -> Prop) (Q : Message -> Prop) :
  (forall srv processes calls0,
      I srv ->
      I (scan clock srv processes calls0).1.1
      /\ Forall Q (scan clock srv processes calls0).1.2) ->
  forall turns srv calls0,
    I srv ->
    I (scans clock srv turns calls0).1.1
    /\ Forall Q (scans clock srv turns calls0).1.2.
Proof.
  intros Hstep turns. induction turns as [|ps turns IH]; intros srv calls0 HI.
  - by split.
  - cbn [scans]. destruct (Hstep srv ps calls0 HI) as [H1 H2].
    destruct (scan _ _ _ _) as [[srv1 out1] calls1]. cbn [fst snd] in *.
    destruct (IH srv1 calls1 H1) as [H3 H4].
    destruct (scans _ _ _ _) as [[srv2 out2] calls2]. cbn [fst snd] in *.
    split; [done|]. by apply Forall_app.
Qed.

End EngineRuns.

(** ** What a scan announces *)

Section Announcements.

Import Process Observe Run.

Variable clock : Clock.

Lemma handleScanResults_silent en games gid :
  Obj.get (en_timestamps en) gid = None ->
  gid ∉ map id games ->
  let r := handleScanResults en games in
  Obj.get (en_timestamps r.1) gid = None /\ addressed_to gid r.2 = [].
Proof.
  intros Hts Hnin. unfold handleScanResults, cleanupLostGames.
  destruct (handle_games_other games en [] gid Hnin) as (H1 & _ & _ & H4).
  destruct (foldl handle_game (en, []) games) as [en1 out1]. simpl in *.
  rewrite cleanup_fold by apply NoDup_keys. simpl.
  assert (gid ∉ filter (fun g => g ∉ (list_to_set (map id games) : gset string))
                   (Obj.keys (en_timestamps en1))) as Hlost.
  { rewrite list_elem_of_filter, elem_of_keys, H1, Hts.
    intros [_ [? ?]]. done. }
  destruct (forget_not_lost _ en1 gid Hlost) as (F1 & _ & _).
  split; [by rewrite F1, H1|].
  unfold addressed_to in *. rewrite filter_app, H4. simpl.
  by apply addressed_to_no_clear.
Qed.

Lemma handleScanResults_messages en games :
  Forall (fun m =>
            forall a, activity m = Some a ->
              exists g, g ∈ games /\ socketId m = id g
                        /\ application_id a = id g /\ act_name a = name g)
         (handleScanResults en games).2.
Proof.
  unfold handleScanResults, cleanupLostGames.
  set (Q := fun m : Message => forall a, activity m = Some a ->
              exists g, g ∈ games /\ socketId m = id g
                        /\ application_id a = id g /\ act_name a = name g).
  assert (forall games' acc,
             games' ⊆ games -> Forall Q acc.2 ->
             Forall Q (foldl handle_game acc games').2) as Hset.
  { induction games' as [|g games' IH]; intros [en0 out0] Hsub Hout; [done|].
    cbn [foldl]. apply IH.
    - intros x Hx. apply Hsub. by right.
    - unfold handle_game. cbn [snd]. apply Forall_app. split; [done|].
      constructor; [|done]. intros a [= <-]. exists g. cbn.
      split; [apply Hsub; by left | done]. }
  specialize (Hset games (en, []) (reflexivity _) (Forall_nil_2 _)).
  destruct (foldl handle_game (en, []) games) as [en1 out1]. cbn [fst snd] in *.
  rewrite cleanup_fold by apply NoDup_keys. cbn [snd].
  apply Forall_app. split; [done|].
  apply Forall_forall. intros m Hm.
  apply list_elem_of_fmap in Hm as (k & -> & _). intros a Ha. discriminate.
Qed.

Lemma sweep_lookup (c : gmap string DetectedGame) fetched k g :
  sweep c fetched !! k = Some g -> c !! k = Some g.
Proof.
  unfold sweep. destruct (_ <? _)%nat; [|done].
  generalize (seq 0 (size c)). intros l. revert c.
  induction l as [|i l IH]; intros c; cbn [foldl]; [done|].
  intros H. apply IH in H. by apply lookup_delete_Some in H as [_ ?].
Qed.

Lemma Forall_set {V} (R : string * V -> Prop) (o : list (string * V)) k v :
  Forall R o -> R (k, v) -> Forall R (Obj.set o k v).
Proof.
  intros Ho Hkv. induction Ho as [|[k0 v0] o H0 Ho IH]; simpl.
  - by constructor.
  - destruct (decide (k0 = k)); constructor; done.
Qed.

Section Listed.

Variable db : list DetectableGame.
Variable ts : list (string * Z).
Variable index : gmap string (list DetectableGame).
Hypothesis index_db : index_listed db index.

Local Abbreviation all_listed sc :=
  (cache_listed db (sc_cache sc)
   /\ Forall (fun kg : string * DetectedGame =>
                listed db (id kg.2) (name kg.2))
             (detectedGames sc)).

Lemma record_listed key gid gname gpid sc :
  listed db gid gname -> all_listed sc ->
  all_listed (record clock ts key gid gname gpid sc).
Proof.
  intros Hl [Hc Hd]. rewrite record_unfold. cbn. split.
  - intros k g. destruct (decide (key = k)) as [->|Hne].
    + rewrite lookup_insert_eq. by intros [= <-].
    + rewrite lookup_insert_ne by done. apply Hc.
  - by apply Forall_set.
Qed.

Lemma fresh_matches_listed p game :
  game ∈ fresh_matches index p -> listed db (g_i game) (g_n game).
Proof.
  unfold fresh_matches. cbn zeta.
  destruct (negb _); [by intros ?%elem_of_nil|].
  destruct (Js.pop _) as [filename|]; [|by intros ?%elem_of_nil].
  destruct (decide _); [by intros ?%elem_of_nil|].
  intros (cand & Hin & _)%list_elem_of_bind.
  apply list_elem_of_filter in Hin as [_ Hin]. unfold indexed in Hin.
  destruct (index !! cand) as [matches|] eqn:E; [|by apply elem_of_nil in Hin].
  destruct (index_db cand matches game E Hin) as [? ?].
  by exists game.
Qed.

Lemma scan_process_listed sc p :
  all_listed sc -> all_listed (scan_process clock ts index sc p).
Proof.
  intros Hsc. rewrite scan_process_eq.
  destruct (sc_cache sc !! signature_of p) as [c|] eqn:E.
  - apply record_listed; [|done]. destruct Hsc as [Hc _]. by apply (Hc _ _ E).
  - assert (all_listed (mark_seen (signature_of p) sc)) as H by done.
    revert H. generalize (mark_seen (signature_of p) sc).
    pose proof (fresh_matches_listed p) as Hf. revert Hf.
    generalize (fresh_matches index p). intros games.
    induction games as [|g games IH]; intros Hf sc' Hsc'; [done|].
    cbn [foldl]. apply IH.
    + intros. apply Hf. by right.
    + apply record_listed; [|done]. apply Hf. by left.
Qed.

Lemma scan_fold_listed processes sc :
  all_listed sc -> all_listed (foldl (scan_process clock ts index) sc processes).
Proof.
  revert sc. induction processes as [|p processes IH]; intros sc Hsc; [done|].
  cbn [foldl]. by apply IH, scan_process_listed.
Qed.

End Listed.

Lemma build_index_listed db : index_listed db (build_index db).
Proof.
  intros k matches game Hk Hin.
  assert (game ∈ indexed (build_index db) k) as H
    by (unfold indexed; by rewrite Hk).
  apply build_index_indexed in H as (? & execs & ? & -> & _). by split.
Qed.

Lemma scan_listed db srv processes calls0 :
  cache_listed db (cache srv) /\ index_listed db (detectionMap srv) ->
  (cache_listed db (cache (scan clock srv processes calls0).1.1)
   /\ index_listed db (detectionMap (scan clock srv processes calls0).1.1))
  /\ Forall (fun m => forall a, activity m = Some a ->
               listed db (application_id a) (act_name a)
               /\ socketId m = application_id a)
            (scan clock srv processes calls0).1.2.
Proof.
  intros [Hc Hi]. unfold scan. destruct (isScanning srv); [by split|].
  pose proof (scan_fold_listed db (timestamps srv) (detectionMap srv) Hi
                processes
                {| sc_cache := cache srv; detectedGames := []; cacheKeys := ∅;
                   calls := S calls0 |}) as H.
  fold (scan_loop clock srv processes (S calls0)) in H.
  destruct H as [Hc' Hd']; [by split|].
  pose proof (handleScanResults_messages (engine srv)
                (Obj.values (detectedGames (scan_loop clock srv processes (S calls0)))))
    as Hm.
  destruct (handleScanResults _ _) as [en out]. cbn [fst snd] in *.
  split; [split; [|done]|].
  - intros k g Hk. apply sweep_lookup in Hk. by apply (Hc' _ _ Hk).
  - eapply Forall_impl; [exact Hm|]. cbn beta. intros m Hq a Ha.
    destruct (Hq a Ha) as (g & Hg & Hs & Hid & Hn).
    split; [|congruence]. rewrite Hid, Hn.
    unfold Obj.values in Hg. apply list_elem_of_fmap in Hg as (kg & -> & Hkg).
    rewrite Forall_forall in Hd'. by apply Hd'.
Qed.

End Announcements.

(** ** The engine over scans and runs *)

Section EngineProperties.

Import Process Observe Run.

(** X1. [init] files every game under the key of each of its executables
    and under no other key: [detectionMap.get(k)] yields exactly the games
    of the database that have an executable whose lowercased name ends in
    the path segment [k], and the key is absent when there is none. *)
Theorem detection_index_lookup db k :
  (forall game,
      game ∈ indexed (build_index db) k <->
      game ∈ db /\ exists execs exec,
        g_e game = Some execs /\ exec ∈ execs /\ index_key exec = k)
  /\ (build_index db !! k = None <->
      forall game execs exec,
        game ∈ db -> g_e game = Some execs -> exec ∈ execs ->
        index_key exec <> k).
Proof.
  split; [intros game; apply build_index_indexed|]. split.
  - intros Hnone game execs exec Hg He Hx Hk.
    assert (game ∈ indexed (build_index db) k) as Hin.
    { apply build_index_indexed. split; [done|]. by exists execs, exec. }
    unfold indexed in Hin. rewrite Hnone in Hin. by apply elem_of_nil in Hin.
  - intros Hno. destruct (build_index db !! k) as [[|game l]|] eqn:E; [| |done].
    + by apply build_index_nonempty in E.
    + assert (game ∈ indexed (build_index db) k) as Hin.
      { unfold indexed. rewrite E. by left. }
      apply build_index_indexed in Hin as (Hg & execs & exec & He & Hx & Hk).
      by destruct (Hno game execs exec).
Qed.

(** X2. When no game a scan detects has an id that names a member of
    [Object.prototype], a game of the scan's result mapping is put on
    record and announced once: afterwards [names] and [pids] hold its
    name and pid, [timestamps] holds its start, and the scan sends to its
    session exactly one set-activity message, which carries that start. *)
Theorem detected_game_recorded clock srv processes calls0 gid g :
  Obj.inherited gid = false ->
  Obj.own_names (scan_results clock srv processes calls0) = true ->
  isScanning srv = false ->
  Obj.get (scan_results clock srv processes calls0) gid = Some g ->
  let '(srv', out, _) := scan clock srv processes calls0 in
  let t := announced_start (timestamps srv) g in
  Obj.get (timestamps srv') gid = Some t
  /\ Obj.get (names srv') gid = Some (name g)
  /\ Obj.get (pids srv') gid = Some (pid g)
  /\ addressed_to gid out = [set_activity g t].
Proof.
  intros _ _ Hidle Hg. unfold scan. rewrite Hidle.
  fold (scan_results clock srv processes calls0).
  pose proof (scan_results_keyed clock srv processes calls0) as Hkeyed.
  pose proof (scan_loop_NoDup clock srv processes (S calls0)) as Hnd.
  fold (scan_results clock srv processes calls0) in Hnd.
  apply get_Some_elem in Hg.
  assert (id g = gid) as Hid.
  { unfold keyed_by_id in Hkeyed. rewrite Forall_forall in Hkeyed.
    apply (Hkeyed _ Hg). }
  assert (g ∈ Obj.values (scan_results clock srv processes calls0)) as Hin.
  { unfold Obj.values. by apply (list_elem_of_fmap_2' snd _ (gid, g)). }
  rewrite <-keyed_by_id_ids in Hnd by done.
  pose proof (handleScanResults_detected (engine srv) _ g Hnd Hin) as H.
  destruct (handleScanResults _ _) as [en out]. simpl in *.
  rewrite <-Hid. tauto.
Qed.

(** X3. With a clock that never reads 0, a game detected by two
    consecutive scans is announced with the same start by both. *)
Theorem start_kept_between_scans clock srv first second calls0 gid g1 g2 :
  (forall n, clock n <> 0) ->
  isScanning srv = false ->
  Obj.get (scan_results clock srv first calls0) gid = Some g1 ->
  let '(srv1, out1, calls1) := scan clock srv first calls0 in
  Obj.get (scan_results clock srv1 second calls1) gid = Some g2 ->
  let '(_, out2, _) := scan clock srv1 second calls1 in
  exists t,
    addressed_to gid out1 = [set_activity g1 t]
    /\ addressed_to gid out2 = [set_activity g2 t].
Proof.
  intros Hclock Hidle H1.
  pose proof (detected_game_announced clock srv first calls0 gid g1 Hidle H1)
    as Ha.
  pose proof (scan_idle clock srv first calls0) as Hidle1.
  destruct (scan_loop_stamped clock srv first (S calls0)) as [_ Hst].
  specialize (Hst gid g1 H1).
  destruct (scan clock srv first calls0) as [[srv1 out1] calls1].
  cbn [fst snd] in *. cbn zeta in Ha. destruct Ha as (Hid & Hts & Hout).
  intros H2. rewrite Hidle in Hidle1.
  assert (announced_start (timestamps srv) g1 <> 0) as Hnz.
  { unfold announced_start. rewrite Hid. unfold falsy in Hst.
    destruct (Obj.get (timestamps srv) gid) as [t|].
    - destruct (t =? 0) eqn:E; [|lia].
      destruct Hst as (n & _ & ->). apply Hclock.
    - destruct Hst as (n & _ & ->). apply Hclock. }
  pose proof (staying_game_keeps_timestamp clock srv1 second calls1 gid _ g2
                Hidle1 Hts Hnz H2) as Hb.
  destruct (scan clock srv1 second calls1) as [[srv2 out2] calls2].
  destruct Hb as (_ & _ & Hout2). by eexists.
Qed.

(** X4. When no game a scan detects has an id that names a member of
    [Object.prototype], a game that is not active when the scan detects
    it is announced with a start the clock gave during that scan, and
    that start is what [timestamps] holds afterwards. *)
Theorem new_game_gets_fresh_start clock srv processes calls0 gid g :
  Obj.inherited gid = false ->
  Obj.own_names (scan_results clock srv processes calls0) = true ->
  isScanning srv = false ->
  Obj.get (timestamps srv) gid = None ->
  Obj.get (scan_results clock srv processes calls0) gid = Some g ->
  let '(srv', out, calls') := scan clock srv processes calls0 in
  (exists n, (calls0 < n < calls')%nat /\ timestamp g = clock n)
  /\ Obj.get (timestamps srv') gid = Some (timestamp g)
  /\ addressed_to gid out = [set_activity g (timestamp g)].
Proof.
  intros _ _ Hidle Hts Hg.
  pose proof (returning_game_fresh_timestamp clock srv processes calls0 gid g
                Hidle Hts Hg) as H.
  destruct (scan clock srv processes calls0) as [[srv' out] calls'].
  destruct H as ((n & Hn & Ht) & H2 & H3). split_and!; [|done..].
  exists n. split; [lia | done].
Qed.

(** X5. After any run of scans from the server [init] leaves behind,
    every active game has a pid and a name on record. *)
Theorem runs_keep_engine_coherent clock db turns calls0 :
  coherent (engine (scans clock (init db) turns calls0).1.1).
Proof.
  pose proof (init_coherent db) as H. revert H. generalize (init db).
  revert calls0. induction turns as [|ps turns IH]; intros calls0 srv H; [done|].
  cbn [scans]. pose proof (scan_coherent clock srv ps calls0 H) as H1.
  destruct (scan clock srv ps calls0) as [[srv1 out1] calls1].
  specialize (IH calls1 srv1 H1).
  by destruct (scans clock srv1 turns calls1) as [[srv2 out2] calls2].
Qed.

(** X6. A scan sends nothing to the session of a game that is neither
    active before it nor in its result mapping, and the game is not active
    afterwards. *)
Theorem unrelated_game_untouched clock srv processes calls0 gid :
  Obj.get (timestamps srv) gid = None ->
  Obj.get (scan_results clock srv processes calls0) gid = None ->
  let '(srv', out, _) := scan clock srv processes calls0 in
  Obj.get (timestamps srv') gid = None /\ addressed_to gid out = [].
Proof.
  intros Hts Habs. unfold scan. destruct (isScanning srv); [done|].
  fold (scan_results clock srv processes calls0).
  pose proof (scan_results_keyed clock srv processes calls0) as Hkeyed.
  apply get_None_not_key in Habs.
  rewrite <-keyed_by_id_ids in Habs by done.
  pose proof (handleScanResults_silent (engine srv) _ gid Hts Habs) as H.
  destruct (handleScanResults _ _) as [en out]. simpl in *. exact H.
Qed.

(** X7. No signature ever leaves the cache: what the cache holds after a
    run of scans from [init], it still holds after any further scans. *)
Theorem cache_never_evicts clock db turns more calls0 k :
  is_Some (cache_after clock (init db) turns calls0 !! k) ->
  is_Some (cache_after clock (init db) (turns ++ more) calls0 !! k).
Proof.
  unfold cache_after. rewrite scans_app.
  assert (signatures_only (cache (init db))) as H0.
  { intros k' [g Hg]. cbn in Hg. by rewrite lookup_empty in Hg. }
  destruct (scans_invariant clock (fun srv => signatures_only (cache srv))
              (fun _ => True)) with (turns := turns) (srv := init db)
              (calls0 := calls0) as [Hsig _]; [|done|].
  { intros srv ps c Hs. split; [by apply scan_signatures_only|].
    apply Forall_forall. done. }
  destruct (scans clock (init db) turns calls0) as [[srv1 out1] calls1].
  cbn [fst snd] in *. intros Hk.
  assert (is_Some (cache (scans clock srv1 more calls1).1.1 !! k)) as H.
  { clear H0. revert srv1 calls1 Hsig Hk.
    induction more as [|ps more IH]; intros srv1 calls1 Hsig Hk; [done|].
    cbn [scans].
    pose proof (scan_keeps_every_signature clock srv1 ps calls1 k Hsig Hk) as H1.
    pose proof (scan_signatures_only clock srv1 ps calls1 Hsig) as H2.
    destruct (scan clock srv1 ps calls1) as [[srv2 out2] calls2].
    cbn [fst snd] in *. specialize (IH srv2 calls2 H2 H1).
    by destruct (scans clock srv2 more calls2) as [[srv3 out3] calls3]. }
  by destruct (scans clock srv1 more calls1) as [[srv2 out2] calls2].
Qed.

(** X9. Only games of the database are announced: in any run of scans
    from [init db], every set-activity message carries the id and the name
    of a database game that has executables, and is sent to the session
    named by that id. *)
Theorem only_database_games_announced clock db turns calls0 m a :
  m ∈ (scans clock (init db) turns calls0).1.2 ->
  activity m = Some a ->
  listed db (application_id a) (act_name a)
  /\ socketId m = application_id a.
Proof.
  intros Hm Ha.
  destruct (scans_invariant clock
              (fun srv => cache_listed db (cache srv)
                          /\ index_listed db (detectionMap srv))
              (fun m => forall a, activity m = Some a ->
                 listed db (application_id a) (act_name a)
                 /\ socketId m = application_id a))
    with (turns := turns) (srv := init db) (calls0 := calls0) as [_ Hout].
  - intros srv ps c. apply scan_listed.
  - split; [|apply build_index_listed].
    intros k g Hk. cbn in Hk. by rewrite lookup_empty in Hk.
  - rewrite Forall_forall in Hout. by apply (Hout m Hm).
Qed.

(** X10. A cached signature is detected again without any check: a
    process whose signature the cache holds gets the cached game id
    announced, whatever [isValidProcess] and the database say of it,
    when that id is not a name inherited from [Object.prototype]. *)
Theorem cached_signature_announced clock srv processes calls0 p c :
  Obj.inherited (id c) = false ->
  isScanning srv = false ->
  p ∈ processes ->
  cache srv !! signature_of p = Some c ->
  let '(srv', out, _) := scan clock srv processes calls0 in
  active srv' (id c)
  /\ exists g t, id g = id c /\ addressed_to (id c) out = [set_activity g t].
Proof.
  intros _ Hidle Hin Hc.
  destruct (cached_in_results clock (timestamps srv) (detectionMap srv)
              processes p
              {| sc_cache := cache srv; detectedGames := []; cacheKeys := ∅;
                 calls := S calls0 |} c Hin Hc) as [g Hg].
  fold (scan_loop clock srv processes (S calls0)) in Hg.
  fold (scan_results clock srv processes calls0) in Hg.
  pose proof (detected_game_announced clock srv _ calls0 _ g Hidle Hg) as H.
  destruct (scan clock srv processes calls0) as [[srv' out] c'].
  cbn zeta in H. destruct H as (Hid & Hts & Hout).
  split; [by eexists|]. by exists g, (announced_start (timestamps srv) g).
Qed.

End EngineProperties.

Lemma detected_game_recorded_witness :
  let g := {| Process.id := "123"; Process.name := "Example Game";
              Process.pid := 42; Process.timestamp := 1700000000001 |} in
  let '(srv', out, _) :=
    Process.scan Scenario.clock (Process.init Scenario.db)
      [Scenario.game_process []] 0 in
  Obj.get (Process.timestamps srv') "123" = Some 1700000000001
  /\ Obj.get (Process.names srv') "123" = Some "Example Game"
  /\ Obj.get (Process.pids srv') "123" = Some 42
  /\ Observe.addressed_to "123" out = [Observe.set_activity g 1700000000001].
Proof.
  intros g.
  exact (detected_game_recorded Scenario.clock (Process.init Scenario.db)
           [Scenario.game_process []] 0 "123" g eq_refl eq_refl eq_refl
           eq_refl).
Defined.

Lemma start_kept_between_scans_witness :
  let g := {| Process.id := "123"; Process.name := "Example Game";
              Process.pid := 42; Process.timestamp := 1700000000001 |} in
  let here := [Scenario.game_process []] in
  let '(srv1, out1, calls1) :=
    Process.scan Scenario.clock (Process.init Scenario.db) here 0 in
  let '(_, out2, _) := Process.scan Scenario.clock srv1 here calls1 in
  exists t,
    Observe.addressed_to "123" out1 = [Observe.set_activity g t]
    /\ Observe.addressed_to "123" out2 = [Observe.set_activity g t].
Proof.
  intros g here.
  assert (forall n, Scenario.clock n <> 0) as Hclock
    by (intros n; unfold Scenario.clock; lia).
  exact (start_kept_between_scans Scenario.clock (Process.init Scenario.db)
           here here 0 "123" g g Hclock eq_refl eq_refl eq_refl).
Defined.

Lemma new_game_gets_fresh_start_witness :
  let g := {| Process.id := "123"; Process.name := "Example Game";
              Process.pid := 42; Process.timestamp := 1700000000001 |} in
  let '(srv', out, calls') :=
    Process.scan Scenario.clock (Process.init Scenario.db)
      [Scenario.game_process []] 0 in
  (exists n, (0 < n < calls')%nat /\ 1700000000001 = Scenario.clock n)
  /\ Obj.get (Process.timestamps srv') "123" = Some 1700000000001
  /\ Observe.addressed_to "123" out = [Observe.set_activity g 1700000000001].
Proof.
  intros g.
  exact (new_game_gets_fresh_start Scenario.clock (Process.init Scenario.db)
           [Scenario.game_process []] 0 "123" g eq_refl eq_refl eq_refl
           eq_refl eq_refl).
Defined.

Lemma unrelated_game_untouched_witness :
  let '(srv', out, _) :=
    Process.scan Scenario.clock (Process.init Scenario.db)
      [Scenario.game_process []] 0 in
  Obj.get (Process.timestamps srv') "999" = None
  /\ Observe.addressed_to "999" out = [].
Proof.
  exact (unrelated_game_untouched Scenario.clock (Process.init Scenario.db)
           [Scenario.game_process []] 0 "999" eq_refl eq_refl).
Defined.

Lemma cache_never_evicts_witness :
  is_Some (Run.cache_after Scenario.clock (Process.init Scenario.db)
             ([[Scenario.game_process []]] ++ [[]]) 0
           !! Scenario.signature []).
Proof.
  apply cache_never_evicts. vm_compute. eexists. reflexivity.
Defined.

Lemma only_database_games_announced_witness :
  Run.listed Scenario.db "123" "Example Game" /\ "123" = "123".
Proof.
  set (g := {| Process.id := "123"; Process.name := "Example Game";
               Process.pid := 42; Process.timestamp := 1700000000001 |}).
  assert (Observe.set_activity g 1700000000001
          ∈ (Run.scans Scenario.clock (Process.init Scenario.db)
               [[Scenario.game_process []]] 0).1.2) as Hm
    by (vm_compute; apply list_elem_of_here).
  exact (only_database_games_announced Scenario.clock Scenario.db
           [[Scenario.game_process []]] 0 _ _ Hm eq_refl).
Defined.

Lemma cached_signature_announced_witness :
  let srv :=
    (Process.scan Scenario.clock (Process.init Scenario.db)
       [Scenario.game_process []] 0).1.1 in
  let '(srv', out, _) :=
    Process.scan Scenario.clock srv [Scenario.game_process []] 3 in
  Observe.active srv' "123"
  /\ exists g t,
       Process.id g = "123"
       /\ Observe.addressed_to "123" out = [Observe.set_activity g t].
Proof.
  intros srv.
  set (c := {| Process.id := "123"; Process.name := "Example Game";
               Process.pid := 42; Process.timestamp := 1700000000001 |}).
  assert (Scenario.game_process [] ∈ [Scenario.game_process []]) as Hin
    by apply list_elem_of_here.
  assert (Process.cache srv !! Run.signature_of (Scenario.game_process [])
          = Some c) as Hc by (vm_compute; reflexivity).
  exact (cached_signature_announced Scenario.clock srv
           [Scenario.game_process []] 3 (Scenario.game_process []) c
           eq_refl eq_refl Hin Hc).
Defined.

(** ** Names and path segments *)

Section Text.

Lemma startsWith_includes s a b :
  Js.startsWith s (a +:+ b) = true -> Js.includes s b = true.
Proof.
  revert s. induction a as [|c a IH]; intros s.
  - rewrite string_app_nil_l, includes_unfold. by intros ->.
  - rewrite string_app_cons. destruct s as [|d s]; [done|]. cbn [Js.startsWith].
    destruct (Ascii.eqb c d); [|done]. intros Hs%IH.
    rewrite includes_unfold, Hs. apply orb_true_r.
Qed.

(** A text that lacks [b] lacks every text that ends in [b]. *)
Lemma includes_suffix s a b :
  Js.includes s b = false -> Js.includes s (a +:+ b) = false.
Proof.
  intros Hb. destruct (Js.includes s (a +:+ b)) eqn:E; [|done].
  rewrite <-Hb. clear Hb. induction s as [|d s IH].
  - rewrite includes_unfold in E. rewrite orb_false_r in E.
    by apply startsWith_includes in E.
  - rewrite includes_unfold in E. apply orb_true_iff in E as [E|E].
    + by apply startsWith_includes in E.
    + rewrite (includes_unfold (String d s)), <-(IH E). by rewrite orb_true_r.
Qed.

Lemma replaceAll_absent pat rep s :
  Js.includes s pat = false -> Js.replaceAll pat rep s = s.
Proof.
  unfold Js.replaceAll. induction s as [|c s IH]; [done|].
  rewrite includes_unfold. intros [Hs Hi]%orb_false_iff.
  cbn [Js.replaceAll_from]. by rewrite Hs, IH.
Qed.

Lemma replace_absent pat rep s :
  Js.includes s pat = false -> Js.replace pat rep s = s.
Proof.
  induction s as [|c s IH]; rewrite includes_unfold, replace_unfold;
    intros [Hs Hi]%orb_false_iff; rewrite Hs; [done|]. by rewrite IH.
Qed.

Lemma replaceAll_from_length pat k s :
  (String.length (Js.replaceAll_from pat EmptyString k s) <= String.length s)%nat.
Proof.
  revert k. induction s as [|c s IH]; intros k; [done|].
  cbn [Js.replaceAll_from]. destruct k as [|k].
  - destruct (Js.startsWith _ _).
    + rewrite string_app_nil_l. specialize (IH (String.length pat - 1)%nat).
      cbn [String.length]. lia.
    + specialize (IH 0%nat). cbn [String.length]. lia.
  - specialize (IH k). cbn [String.length]. lia.
Qed.

Lemma replaceAll_length pat s :
  (String.length (Js.replaceAll pat EmptyString s) <= String.length s)%nat.
Proof. apply replaceAll_from_length. Qed.

Lemma replaceAll_shortens pat s :
  pat <> EmptyString -> Js.includes s pat = true ->
  (String.length (Js.replaceAll pat EmptyString s) < String.length s)%nat.
Proof.
  intros Hpat. unfold Js.replaceAll. induction s as [|c s IH].
  - destruct pat; [done|]. discriminate.
  - rewrite includes_unfold. cbn [Js.replaceAll_from].
    destruct (Js.startsWith (String c s) pat) eqn:E.
    + intros _. rewrite string_app_nil_l.
      pose proof (replaceAll_from_length pat (String.length pat - 1) s).
      cbn [String.length]. lia.
    + cbn [orb]. intros Hi%IH. cbn [String.length]. lia.
Qed.

Lemma split_absent (sep : ascii) s :
  Js.includes s (String sep EmptyString) = false -> Js.split sep s = [s].
Proof.
  induction s as [|c s IH]; [done|].
  rewrite includes_unfold. intros [Hs Hi]%orb_false_iff.
  cbn [Js.startsWith] in Hs. rewrite startsWith_nil in Hs.
  cbn [Js.split]. rewrite Ascii.eqb_sym.
  destruct (Ascii.eqb sep c); [done|]. by rewrite IH.
Qed.

Lemma split_nonempty (sep : ascii) s : Js.split sep s <> [].
Proof.
  destruct s as [|c s]; [done|]. cbn [Js.split].
  destruct (Ascii.eqb c sep); [done|]. by destruct (Js.split sep s).
Qed.

Lemma split_segments (sep : ascii) s x :
  x ∈ Js.split sep s -> Js.includes x (String sep EmptyString) = false.
Proof.
  revert x. induction s as [|c s IH]; intros x.
  - cbn. by intros ->%list_elem_of_singleton.
  - cbn [Js.split]. destruct (Ascii.eqb c sep) eqn:E.
    + intros [->|Hx]%elem_of_cons; [done | by apply IH].
    + destruct (Js.split sep s) as [|h t] eqn:Es.
      * intros ->%list_elem_of_singleton. cbn.
        rewrite Ascii.eqb_sym, E. done.
      * intros [->|Hx]%elem_of_cons.
        -- rewrite includes_unfold. cbn [Js.startsWith].
           rewrite Ascii.eqb_sym, E. cbn [orb]. apply IH. by left.
        -- apply IH. by right.
Qed.

Lemma toLowerCase_app a b :
  Js.toLowerCase (a +:+ b) = Js.toLowerCase a +:+ Js.toLowerCase b.
Proof.
  induction a as [|c a IH]; [done|].
  rewrite string_app_cons. cbn [Js.toLowerCase]. by rewrite IH, string_app_cons.
Qed.

Lemma replaceAll_from_lower pat rep k s :
  Js.toLowerCase rep = rep -> Js.toLowerCase s = s ->
  Js.toLowerCase (Js.replaceAll_from pat rep k s)
  = Js.replaceAll_from pat rep k s.
Proof.
  intros Hrep. revert k. induction s as [|c s IH]; intros k; [done|].
  cbn [Js.toLowerCase]. intros [= Hc Hs]. cbn [Js.replaceAll_from].
  destruct k as [|k]; [|by apply IH].
  destruct (Js.startsWith _ _).
  - by rewrite toLowerCase_app, Hrep, IH.
  - cbn [Js.toLowerCase]. by rewrite Hc, IH.
Qed.

Lemma split_lower (sep : ascii) s x :
  Js.toLowerCase s = s -> x ∈ Js.split sep s -> Js.toLowerCase x = x.
Proof.
  revert x. induction s as [|c s IH]; intros x.
  - intros _. cbn. by intros ->%list_elem_of_singleton.
  - cbn [Js.toLowerCase]. intros [= Hc Hs]. cbn [Js.split].
    destruct (Ascii.eqb c sep).
    + intros [->|Hx]%elem_of_cons; [done | by apply IH].
    + destruct (Js.split sep s) as [|h t] eqn:Es.
      * intros ->%list_elem_of_singleton. cbn. by rewrite Hc.
      * intros [->|Hx]%elem_of_cons.
        -- cbn [Js.toLowerCase]. rewrite Hc. f_equal. apply IH; [done | by left].
        -- apply IH; [done | by right].
Qed.

End Text.

Section FileNames.

Import Process Run.

Lemma normalize_lower path :
  Js.toLowerCase (normalize path) = normalize path.
Proof.
  unfold normalize, Js.replaceAll.
  apply replaceAll_from_lower; [done | apply toLowerCase_idem].
Qed.

(** The file name of a process: the last segment of its normalized path,
    lowercase and without a slash. *)
Lemma filename_of_spec p :
  Js.pop (Js.split "/" (normalize (p_path p))) = Some (filename_of p)
  /\ Js.toLowerCase (filename_of p) = filename_of p
  /\ Js.includes (filename_of p) "/" = false.
Proof.
  unfold filename_of, Js.pop.
  pose proof (split_nonempty "/" (normalize (p_path p))) as Hne.
  destruct (last (Js.split "/" (normalize (p_path p)))) as [f|] eqn:E.
  - cbn. apply last_Some in E as [l E].
    assert (f ∈ Js.split "/" (normalize (p_path p))) as Hin
      by (rewrite E; set_solver).
    split_and!; [done | |].
    + eapply split_lower; [apply normalize_lower | exact Hin].
    + by eapply split_segments.
  - by apply last_None in E.
Qed.

End FileNames.

(** ** Detection of a running game *)

Section Detection.

Import Process Observe Run.

Variable clock : Clock.

(** A fresh match makes it through the scan. *)
Lemma fresh_match_scan srv before p after calls0 game :
  isScanning srv = false ->
  cache srv !! signature_of p = None ->
  (forall q, q ∈ before -> signature_of q <> signature_of p) ->
  game ∈ fresh_matches (detectionMap srv) p ->
  let '(srv', out, _) := scan clock srv (before ++ p :: after) calls0 in
  active srv' (g_i game)
  /\ exists g t,
       id g = g_i game /\ addressed_to (g_i game) out = [set_activity g t].
Proof.
  intros Hidle Hnone Hfirst Hin.
  destruct (fresh_match_in_results clock (timestamps srv) (detectionMap srv)
              before p after
              {| sc_cache := cache srv; detectedGames := []; cacheKeys := ∅;
                 calls := S calls0 |} game Hnone Hfirst Hin) as [g Hg].
  fold (scan_loop clock srv (before ++ p :: after) (S calls0)) in Hg.
  fold (scan_results clock srv (before ++ p :: after) calls0) in Hg.
  pose proof (detected_game_announced clock srv _ calls0 _ g Hidle Hg) as H.
  destruct (scan clock srv (before ++ p :: after) calls0) as [[srv' out] c].
  cbn zeta in H. destruct H as (Hid & Hts & Hout).
  split; [by eexists|]. by exists g, (announced_start (timestamps srv) g).
Qed.

(** An executable named like the file of a process, with no argument
    text required, makes its game a fresh match of the process. *)
Lemma exact_name_fresh_match db p game execs exec :
  game ∈ db -> g_e game = Some execs -> exec ∈ execs ->
  e_n exec = filename_of p -> e_a exec = None ->
  filename_of p <> EmptyString ->
  isValidProcess (p_pid p) (normalize (p_path p)) = true ->
  game ∈ fresh_matches (build_index db) p.
Proof.
  intros Hgame Hexecs Hexec Hname Hargs Hne Hvalid.
  destruct (filename_of_spec p) as (Hpop & Hlow & Hslash).
  unfold fresh_matches. cbn zeta. rewrite Hvalid, Hpop. cbn [negb].
  rewrite decide_False by done.
  apply list_elem_of_bind. exists (filename_of p). split.
  2:{ apply elem_of_candidates. by left. }
  apply list_elem_of_filter. split.
  - unfold checkGameMatch. rewrite Hexecs. apply existsb_exists.
    exists exec. split; [by apply list_elem_of_In|].
    unfold exec_matches. rewrite Hargs, Hname.
    rewrite !bool_decide_true by done. by destruct (e_s exec).
  - apply build_index_indexed. split; [done|].
    exists execs, exec. split_and!; [done..|].
    unfold index_key. cbn zeta. rewrite Hname, Hlow.
    by rewrite (split_absent "/") by done.
Qed.

(** X8. Nothing a process matches is lost: the first process of the list
    with a signature the cache lacks gets every game of its
    [fresh_matches] announced whose id is not a name inherited from
    [Object.prototype], whatever else is running.  The scan sends the
    game's session exactly one message, a set-activity, and the game is
    active afterwards. *)
Theorem fresh_match_announced srv before p after calls0 game :
  Obj.inherited (g_i game) = false ->
  isScanning srv = false ->
  cache srv !! signature_of p = None ->
  (forall q, q ∈ before -> signature_of q <> signature_of p) ->
  game ∈ fresh_matches (detectionMap srv) p ->
  let '(srv', out, _) := scan clock srv (before ++ p :: after) calls0 in
  active srv' (g_i game)
  /\ exists g t,
       id g = g_i game /\ addressed_to (g_i game) out = [set_activity g t].
Proof. intros _. apply fresh_match_scan. Qed.

(** X11. A running game is found by its file name: when the database
    lists, for a game whose id is not a name inherited from
    [Object.prototype], an executable named exactly like the file of a
    process that passes [isValidProcess], and asks for no argument text,
    the first scan that meets the process' signature announces the game,
    once, with a set-activity message, and the game is active
    afterwards. *)
Theorem exact_name_detected db srv before p after calls0 game execs exec :
  Obj.inherited (g_i game) = false ->
  isScanning srv = false ->
  detectionMap srv = build_index db ->
  game ∈ db -> g_e game = Some execs -> exec ∈ execs ->
  e_n exec = filename_of p -> e_a exec = None ->
  filename_of p <> EmptyString ->
  isValidProcess (p_pid p) (normalize (p_path p)) = true ->
  cache srv !! signature_of p = None ->
  (forall q, q ∈ before -> signature_of q <> signature_of p) ->
  let '(srv', out, _) := scan clock srv (before ++ p :: after) calls0 in
  active srv' (g_i game)
  /\ exists g t,
       id g = g_i game /\ addressed_to (g_i game) out = [set_activity g t].
Proof.
  intros _ Hidle Hindex Hgame Hexecs Hexec Hname Hargs Hne Hvalid Hnone
    Hfirst.
  apply fresh_match_scan; [done..|]. rewrite Hindex.
  by eapply exact_name_fresh_match.
Qed.

End Detection.

Lemma exact_name_detected_witness :
  let '(srv', out, _) :=
    Process.scan Scenario.clock (Process.init Scenario.db)
      ([] ++ Scenario.game_process [] :: []) 0 in
  Observe.active srv' "123"
  /\ exists g t,
       Process.id g = "123"
       /\ Observe.addressed_to "123" out = [Observe.set_activity g t].
Proof.
  set (exec := {| e_n := "game.exe"; e_a := None; e_s := false |}).
  assert (forall q, q ∈ @nil Process.ProcessEntry ->
            Run.signature_of q <> Run.signature_of (Scenario.game_process []))
    as Hfirst by (intros q Hq; by apply elem_of_nil in Hq).
  assert (Scenario.game "123" "Example Game" "game.exe" ∈ Scenario.db) as Hgame
    by apply list_elem_of_here.
  assert (exec ∈ [exec]) as Hexec by apply list_elem_of_here.
  assert (Run.filename_of (Scenario.game_process []) <> EmptyString) as Hne
    by (by vm_compute).
  exact (exact_name_detected Scenario.clock Scenario.db
           (Process.init Scenario.db) [] (Scenario.game_process []) [] 0
           (Scenario.game "123" "Example Game" "game.exe") [exec] exec
           eq_refl eq_refl eq_refl Hgame eq_refl Hexec eq_refl eq_refl Hne
           eq_refl eq_refl Hfirst).
Defined.

Lemma fresh_match_announced_witness :
  let '(srv', out, _) :=
    Process.scan Scenario.clock (Process.init Scenario.db)
      ([] ++ Scenario.game_process [] :: []) 0 in
  Observe.active srv' "123"
  /\ exists g t,
       Process.id g = "123"
       /\ Observe.addressed_to "123" out = [Observe.set_activity g t].
Proof.
  assert (forall q, q ∈ @nil Process.ProcessEntry ->
            Run.signature_of q <> Run.signature_of (Scenario.game_process []))
    as Hfirst by (intros q Hq; by apply elem_of_nil in Hq).
  assert (Scenario.game "123" "Example Game" "game.exe"
          ∈ Run.fresh_matches (Process.detectionMap (Process.init Scenario.db))
              (Scenario.game_process [])) as Hin
    by (vm_compute; apply list_elem_of_here).
  exact (fresh_match_announced Scenario.clock (Process.init Scenario.db) []
           (Scenario.game_process []) [] 0
           (Scenario.game "123" "Example Game" "game.exe")
           eq_refl eq_refl eq_refl Hfirst Hin).
Defined.

(** ** Ingestion of the database *)

Section IngestionProperties.

Import Downloader Run.

Lemma transformExecutable_arguments currentPlatform exec e :
  transformExecutable currentPlatform exec = Some e ->
  e_a e <> Some EmptyString.
Proof.
  unfold transformExecutable.
  destruct (decide (name exec = EmptyString)); [done|].
  destruct (decide (name exec = "lms.exe")); [done|].
  match goal with |- (if ?b then _ else _) = _ -> _ => destruct b end;
    [done|].
  intros [= <-]. cbn [e_a]. destruct (arguments exec) as [a|]; [|done].
  destruct (decide (a = EmptyString)); [done|]. by intros [= ?].
Qed.

Lemma transformGame_spec currentPlatform raw game :
  transformGame currentPlatform raw = Some game ->
  g_i game = id raw /\ g_n game = gname raw
  /\ id raw <> EmptyString /\ gname raw <> EmptyString
  /\ exists raws execs,
       executables raw = Some raws
       /\ execs = omap (transformExecutable currentPlatform) raws
       /\ execs <> [] /\ g_e game = Some execs.
Proof.
  unfold transformGame.
  destruct (decide (id raw = EmptyString)); [done|].
  destruct (decide (gname raw = EmptyString)); [done|].
  destruct (executables raw) as [[|x xs]|]; [done| |done].
  destruct (omap (transformExecutable currentPlatform) (x :: xs))
    as [|e es] eqn:E; [done|].
  intros [= <-]. cbn. split_and!; [done..|].
  exists (x :: xs), (e :: es). by rewrite E.
Qed.

(** X14. What [transformObject] lets through is well formed: every game
    of its result has the id and the name of a raw game, neither empty,
    and a non-empty list of executables made from that game's, each with a
    lowercase name and without an empty argument text. *)
Theorem ingested_games_well_formed currentPlatform all game :
  game ∈ transformObject currentPlatform all ->
  (exists raw, raw ∈ all /\ g_i game = id raw /\ g_n game = gname raw)
  /\ g_i game <> EmptyString /\ g_n game <> EmptyString
  /\ exists execs,
       g_e game = Some execs /\ execs <> []
       /\ forall e, e ∈ execs ->
            Js.toLowerCase (e_n e) = e_n e /\ e_a e <> Some EmptyString.
Proof.
  unfold transformObject. intros (raw & Hraw & Hg)%list_elem_of_omap.
  apply transformGame_spec
    in Hg as (Hi & Hn & Hi' & Hn' & raws & execs & _ & -> & Hne & He).
  split_and!; [by exists raw | congruence | congruence |].
  exists (omap (transformExecutable currentPlatform) raws).
  split_and!; [done..|].
  intros e (x & _ & Hx)%list_elem_of_omap. split.
  - by apply (transformExecutable_lowercase currentPlatform x).
  - by apply (transformExecutable_arguments currentPlatform x).
Qed.

(** X15. Every game [transformObject] lets through can be found: the
    index [init] builds from the result files it under the key of one of
    its executables. *)
Theorem ingested_games_indexed currentPlatform all game :
  game ∈ transformObject currentPlatform all ->
  exists exec,
    game ∈ indexed (Process.build_index (transformObject currentPlatform all))
             (index_key exec)
    /\ exists execs, g_e game = Some execs /\ exec ∈ execs.
Proof.
  intros Hin. pose proof Hin as Hin'. unfold transformObject in Hin'.
  apply list_elem_of_omap in Hin' as (raw & _ & Hg).
  apply transformGame_spec
    in Hg as (_ & _ & _ & _ & raws & execs & _ & _ & Hne & He).
  destruct execs as [|exec execs]; [done|]. exists exec. split.
  - apply build_index_indexed. split; [done|].
    exists (exec :: execs), exec. split_and!; [done | by left | done].
  - exists (exec :: execs). split; [done | by left].
Qed.

End IngestionProperties.

Section NameProperties.

Import Process Run.

(** X12. [stripBitness] changes a name exactly when the name holds [64],
    and it never makes a name longer. *)
Theorem stripBitness_changes_only_64 name :
  (stripBitness name = name <-> Js.includes name "64" = false)
  /\ (String.length (stripBitness name) <= String.length name)%nat.
Proof.
  assert (forall s, Js.includes s "64" = false -> stripBitness s = s) as Hfix.
  { intros s Hs. unfold stripBitness.
    rewrite (replaceAll_absent ".x64") by apply (includes_suffix s ".x" "64" Hs).
    rewrite (replaceAll_absent "_64") by apply (includes_suffix s "_" "64" Hs).
    rewrite (replaceAll_absent "x64") by apply (includes_suffix s "x" "64" Hs).
    by apply replaceAll_absent. }
  assert (String.length (stripBitness name) <= String.length name)%nat as Hlen.
  { unfold stripBitness.
    pose proof (replaceAll_length ".x64" name).
    pose proof (replaceAll_length "_64" (Js.replaceAll ".x64" EmptyString name)).
    pose proof (replaceAll_length "x64"
                  (Js.replaceAll "_64" EmptyString
                     (Js.replaceAll ".x64" EmptyString name))).
    pose proof (replaceAll_length "64"
                  (Js.replaceAll "x64" EmptyString
                     (Js.replaceAll "_64" EmptyString
                        (Js.replaceAll ".x64" EmptyString name)))).
    lia. }
  split; [|done]. split; [|apply Hfix].
  intros Heq. destruct (Js.includes name "64") eqn:E; [exfalso|done].
  assert (String.length (stripBitness name) < String.length name)%nat;
    [|rewrite Heq in *; lia].
  unfold stripBitness.
  set (s1 := Js.replaceAll ".x64" EmptyString name).
  set (s2 := Js.replaceAll "_64" EmptyString s1).
  set (s3 := Js.replaceAll "x64" EmptyString s2).
  set (s4 := Js.replaceAll "64" EmptyString s3).
  assert (String.length s1 <= String.length name)%nat as L1
    by apply replaceAll_length.
  assert (String.length s2 <= String.length s1)%nat as L2
    by apply replaceAll_length.
  assert (String.length s3 <= String.length s2)%nat as L3
    by apply replaceAll_length.
  assert (String.length s4 <= String.length s3)%nat as L4
    by apply replaceAll_length.
  destruct (Js.includes name ".x64") eqn:E1.
  { assert (String.length s1 < String.length name)%nat
      by (by apply replaceAll_shortens). lia. }
  assert (s1 = name) as H1 by (by apply replaceAll_absent).
  destruct (Js.includes s1 "_64") eqn:E2.
  { assert (String.length s2 < String.length s1)%nat
      by (by apply replaceAll_shortens). lia. }
  assert (s2 = s1) as H2 by (by apply replaceAll_absent).
  destruct (Js.includes s2 "x64") eqn:E3.
  { assert (String.length s3 < String.length s2)%nat
      by (by apply replaceAll_shortens). lia. }
  assert (s3 = s2) as H3 by (by apply replaceAll_absent).
  assert (Js.includes s3 "64" = true) as E4 by congruence.
  assert (String.length s4 < String.length s3)%nat
    by (by apply replaceAll_shortens).
  lia.
Qed.

(** X13. A file name that holds neither [.exe] nor [64] has one
    candidate key, itself. *)
Theorem plain_name_single_candidate filename :
  Js.includes filename ".exe" = false ->
  Js.includes filename "64" = false ->
  candidates filename = [filename].
Proof.
  intros Hexe H64. unfold candidates.
  rewrite (replace_absent ".exe") by done.
  assert (stripBitness filename = filename) as ->.
  { unfold stripBitness.
    rewrite (replaceAll_absent ".x64")
      by apply (includes_suffix filename ".x" "64" H64).
    rewrite (replaceAll_absent "_64")
      by apply (includes_suffix filename "_" "64" H64).
    rewrite (replaceAll_absent "x64")
      by apply (includes_suffix filename "x" "64" H64).
    by apply replaceAll_absent. }
  assert (set_add filename [] = [filename]) as ->.
  { unfold set_add. by rewrite decide_False by apply not_elem_of_nil. }
  assert (set_add filename [filename] = [filename]) as Hagain.
  { unfold set_add. by rewrite decide_True by apply list_elem_of_here. }
  by rewrite !Hagain.
Qed.

End NameProperties.

Lemma ingested_games_well_formed_witness :
  let raw :=
    {| Downloader.id := "123"; Downloader.gname := "Example Game";
       Downloader.executables :=
         Some [{| Downloader.name := ">Game.EXE"; Downloader.os := "win32";
                  Downloader.arguments := None |}] |} in
  let game :=
    {| g_i := "123"; g_n := "Example Game";
       g_e := Some [{| e_n := "game.exe"; e_a := None; e_s := true |}] |} in
  (exists r, r ∈ [raw] /\ g_i game = Downloader.id r
             /\ g_n game = Downloader.gname r)
  /\ g_i game <> EmptyString /\ g_n game <> EmptyString
  /\ exists execs,
       g_e game = Some execs /\ execs <> []
       /\ forall e, e ∈ execs ->
            Js.toLowerCase (e_n e) = e_n e /\ e_a e <> Some EmptyString.
Proof.
  intros raw game.
  assert (game ∈ Downloader.transformObject "linux" [raw]) as Hin
    by (vm_compute; apply list_elem_of_here).
  exact (ingested_games_well_formed "linux" [raw] game Hin).
Defined.

Lemma ingested_games_indexed_witness :
  let raw :=
    {| Downloader.id := "123"; Downloader.gname := "Example Game";
       Downloader.executables :=
         Some [{| Downloader.name := "bin/Game.EXE"; Downloader.os := "win32";
                  Downloader.arguments := None |}] |} in
  let game :=
    {| g_i := "123"; g_n := "Example Game";
       g_e := Some [{| e_n := "bin/game.exe"; e_a := None; e_s := false |}] |} in
  exists exec,
    game ∈ Run.indexed
             (Process.build_index (Downloader.transformObject "linux" [raw]))
             (Run.index_key exec)
    /\ exists execs, g_e game = Some execs /\ exec ∈ execs.
Proof.
  intros raw game.
  assert (game ∈ Downloader.transformObject "linux" [raw]) as Hin
    by (vm_compute; apply list_elem_of_here).
  exact (ingested_games_indexed "linux" [raw] game Hin).
Defined.

Lemma plain_name_single_candidate_witness :
  Process.candidates "game" = ["game"].
Proof. exact (plain_name_single_candidate "game" eq_refl eq_refl). Defined.

(** ** Streams of frames *)

Section Streams.

Import IPC Wire Stream.

Context `{Codec}.

Lemma announced_int32 type : announced type -> int32 type.
Proof. unfold int32. by intros [-> | [-> | [-> | ->]]]. Qed.

(** One well-formed frame is read, reacted to, and the reading goes on. *)
Lemma read_well_formed f more :
  well_formed f ->
  processSocketReadable (frame (f_type f) (f_payload f) ++ more) =
  let '(s, rest) := processSocketReadable more in
  (s, reaction (f_type f) (f_data f) ++ rest).
Proof.
  intros (Ht & Hne & Hcap & Hparse).
  rewrite read_frame by (try apply announced_int32; done).
  rewrite Hparse. unfold reaction.
  by destruct Ht as [-> | [-> | [-> | ->]]].
Qed.

Lemma read_stream frames more :
  Forall well_formed frames ->
  processSocketReadable (bytes_of frames ++ more) =
  let '(s, rest) := processSocketReadable more in
  (s, reactions frames ++ rest).
Proof.
  unfold bytes_of, reactions.
  induction 1 as [|f frames Hf _ IH].
  - cbn [mbind list_bind app]. by destruct (processSocketReadable more).
  - rewrite !bind_cons, <-!app_assoc, read_well_formed, IH by done.
    destruct (processSocketReadable more). by rewrite <-app_assoc.
Qed.


Lemma header_length type size : length (header type size) = 8%nat.
Proof. done. Qed.

Lemma header_size type size more :
  int32 size -> readInt32LE (header type size ++ more) 4 = size.
Proof.
  intros Hs. unfold header. rewrite <-app_assoc. by apply readInt32LE_size.
Qed.







(** As long as fewer than eight bytes are buffered, what arrives is only
    added to them. *)
Lemma deliver_all_header buf chunks stream :
  (length buf < 8)%nat -> (8 <= length stream)%nat ->
  buf ++ concat chunks = stream ->
  exists n c rest,
    chunks = take n chunks ++ c :: rest
    /\ (length (buf ++ concat (take n chunks)) < 8)%nat
    /\ (8 <= length (buf ++ concat (take n chunks) ++ c))%nat
    /\ deliver_all (Open buf) chunks
       = (let '(s1, a1) :=
            processSocketReadable (buf ++ concat (take n chunks) ++ c) in
          let '(s2, a2) := deliver_all s1 rest in
          (s2, a1 ++ a2)).
Proof.
  revert buf. induction chunks as [|c cs IH]; intros buf Hbuf Hlen Hstream.
  - cbn in Hstream. rewrite app_nil_r in Hstream. subst. lia.
  - destruct (decide (length (buf ++ c) < 8)%nat) as [Hshort|Hfull].
    + destruct (IH (buf ++ c) Hshort Hlen) as (n & c' & rest & E & H1 & H2 & H3).
      { cbn in Hstream. by rewrite <-app_assoc. }
      exists (S n), c', rest. cbn [take concat].
      rewrite <-!app_assoc in *. split_and!; [|done..|].
      * cbn [app]. f_equal. exact E.
      * by rewrite deliver_all_short, H3 by done.
    + exists 0%nat, c, cs. cbn [take concat app]. split_and!.
      * done.
      * by rewrite app_nil_r.
      * lia.
      * done.
Qed.

(** The listener run that first finds eight bytes finds the first eight
    bytes of the stream. *)
Lemma header_arrived (hd more : list byte) chunks :
  length hd = 8%nat ->
  concat chunks = hd ++ more ->
  exists before c after seen,
    chunks = before ++ c :: after
    /\ (length (concat before) < 8)%nat
    /\ concat before ++ c = hd ++ seen
    /\ deliver_all (Open []) chunks
       = (let '(s1, a1) := processSocketReadable (hd ++ seen) in
          let '(s2, a2) := deliver_all s1 after in
          (s2, a1 ++ a2)).
Proof.
  intros Hhd Hbytes.
  destruct (deliver_all_header [] chunks (hd ++ more))
    as (n & c & after & E & Hshort & Hfull & Hrun);
    [cbn; lia | rewrite length_app; lia | done |].
  cbn [app] in Hshort, Hfull, Hrun.
  set (before := take n chunks) in *.
  assert (concat before ++ c = hd ++ drop 8 (concat before ++ c)) as Hseen.
  { rewrite <-(take_drop 8 (concat before ++ c)) at 1. f_equal.
    rewrite E, concat_app in Hbytes. cbn [concat] in Hbytes.
    rewrite app_assoc in Hbytes.
    apply (f_equal (take 8)) in Hbytes.
    rewrite take_app_le in Hbytes by done.
    by rewrite Hbytes, <-Hhd, take_app_length. }
  exists before, c, after, (drop 8 (concat before ++ c)).
  split_and!; [done..|]. by rewrite <-Hseen.
Qed.

End Streams.

Section StreamProperties.

Import Json IPC Wire Stream.

Context `{Codec}.


(** X17. [encode] and the reader are inverse to each other where the JSON
    codec is: a frame built by [encode] from a value that [JSON.parse]
    gets back from its text is read as one frame carrying that value.  So
    the PONG frame written in answer to a PING is read by the peer as a
    [pong] with the data of the [ping]. *)
Theorem encode_read_round_trip type data :
  announced type ->
  JSON_parse (JSON_stringify data) = Some data ->
  JSON_stringify data <> [] ->
  within_cap (JSON_stringify data) ->
  processSocketReadable (encode type data) = (Open [], reaction type data).
Proof.
  intros Ht Hparse Hne Hcap. rewrite encode_frame.
  pose proof (read_well_formed
                {| f_type := type; f_payload := JSON_stringify data;
                   f_data := data |} []) as Hr.
  cbn [f_type f_payload f_data] in Hr. rewrite app_nil_r in Hr.
  rewrite Hr by done.
  rewrite processSocketReadable_short by (cbn; lia).
  by rewrite app_nil_r.
Qed.

(** X18. A header that declares a negative length or one above the cap is
    fatal as soon as its eight bytes are in, however they are cut into
    chunks: the socket is destroyed with one log line, and nothing that
    follows is read. *)
Theorem bad_length_is_fatal type size more chunks :
  int32 size ->
  size < 0 \/ MAX_IPC_PAYLOAD < size ->
  concat chunks = header type size ++ more ->
  deliver_all (Open []) chunks
  = (Destroyed,
     [Log "Refusing oversized or invalid IPC payload"; SocketDestroy]).
Proof.
  intros Hs Hbad Hbytes.
  destruct (header_arrived (header type size) more chunks)
    as (before & c & after & seen & _ & _ & _ & ->);
    [apply header_length | done |].
  rewrite bad_length_destroys.
  - by rewrite deliver_all_destroyed.
  - rewrite length_app, header_length. lia.
  - by rewrite header_size.
Qed.


(** X20. A CLOSE frame closes the connection only when its payload
    parses: then the socket is ended and destroyed and the bytes behind
    the frame are not read; otherwise the frame is logged and skipped, and
    the reading goes on behind it. *)
Theorem close_frame_outcomes payload more :
  payload <> [] -> within_cap payload ->
  processSocketReadable (frame CLOSE payload ++ more) =
  match JSON_parse payload with
  | Some _ => (Destroyed, [SocketEnd None; SocketDestroy])
  | None =>
      let '(s, rest) := processSocketReadable more in
      (s, Log "Failed to parse IPC JSON" :: rest)
  end.
Proof.
  intros Hne Hcap. rewrite read_frame by done. cbn.
  by destruct (JSON_parse payload).
Qed.

End StreamProperties.


Lemma encode_read_round_trip_witness :
  IPC.processSocketReadable (IPC.encode IPC.PONG (JObj []))
  = (IPC.Open [], [IPC.Emit "pong" (JObj [])]).
Proof.
  assert (Stream.announced IPC.PONG) as Ht by (do 3 right; reflexivity).
  assert (Wire.within_cap (IPC.JSON_stringify (JObj []))) as Hcap
    by (unfold Wire.within_cap; by vm_compute).
  assert (IPC.JSON_stringify (JObj []) <> []) as Hne by discriminate.
  exact (encode_read_round_trip IPC.PONG (JObj []) Ht eq_refl Hne Hcap).
Defined.

Lemma bad_length_is_fatal_witness :
  IPC.deliver_all (IPC.Open [])
    [take 5 (Stream.header IPC.FRAME (-1));
     drop 5 (Stream.header IPC.FRAME (-1)) ++ Sample.bytes "{}"]
  = (IPC.Destroyed,
     [IPC.Log "Refusing oversized or invalid IPC payload"; IPC.SocketDestroy]).
Proof.
  assert (Wire.int32 (-1)) as Hs by (unfold Wire.int32; lia).
  assert (-1 < 0 \/ IPC.MAX_IPC_PAYLOAD < -1) as Hbad by (left; lia).
  exact (bad_length_is_fatal IPC.FRAME (-1) (Sample.bytes "{}")
           [take 5 (Stream.header IPC.FRAME (-1));
            drop 5 (Stream.header IPC.FRAME (-1)) ++ Sample.bytes "{}"]
           Hs Hbad eq_refl).
Defined.


Lemma close_frame_outcomes_witness :
  IPC.processSocketReadable
    (Wire.frame IPC.CLOSE (Sample.bytes "{}")
     ++ Wire.frame IPC.FRAME (Sample.bytes "{}"))
  = (IPC.Destroyed, [IPC.SocketEnd None; IPC.SocketDestroy]).
Proof.
  assert (Sample.bytes "{}" <> []) as Hne by discriminate.
  assert (Wire.within_cap (Sample.bytes "{}")) as Hcap
    by (unfold Wire.within_cap; by vm_compute).
  exact (close_frame_outcomes (Sample.bytes "{}")
           (Wire.frame IPC.FRAME (Sample.bytes "{}")) Hne Hcap).
Defined.

(** ** The listeners of a connection *)

Section Sessions.

Import Json IPC Wire Conn.

Context `{Codec}.

Variable message : string.

Lemma connections_app a b : connections (a ++ b) = connections a ++ connections b.
Proof. apply omap_app. Qed.

Lemma messages_app a b : messages (a ++ b) = messages a ++ messages b.
Proof. apply omap_app. Qed.

(** What a handshake listener call can do. *)
Lemma onHandshake_cases s params :
  (onHandshake s params = TypeError /\ awaiting s = true)
  \/ (exists s' acts,
        onHandshake s params = Ok (s', acts)
        /\ awaiting s' = false /\ active s' = active s
        /\ connections acts = [] /\ messages acts = []
        /\ (awaiting s = false -> s' = s /\ acts = []))
  \/ (exists cid,
        onHandshake s params
        = Ok ({| handshook := true; awaiting := false; active := true;
                 clientId := Some cid |}, [HandlerConnection cid])
        /\ awaiting s = true).
Proof.
  unfold onHandshake. destruct (awaiting s) eqn:Ha; cbn [negb].
  2:{ right. left. exists s, []. by rewrite Ha. }
  destruct (handshook s).
  { right. left. eexists _, _. split; [done|]. by split_and!. }
  destruct (member params "v") as [v|]; [|by left].
  destruct (member params "client_id") as [cid|]; [|by left].
  destruct (negb (bool_decide _)).
  { right. left. eexists _, _. split; [done|]. by split_and!. }
  destruct (strict_eq_empty _).
  { right. left. eexists _, _. split; [done|]. by split_and!. }
  right. right. by eexists.
Qed.

(** What a request listener call can do. *)
Lemma request_guarded_cases s data :
  (request_guarded s data message = [HandlerMessage data]
   /\ active s = true /\ forwardable data)
  \/ (connections (request_guarded s data message) = []
      /\ messages (request_guarded s data message) = []).
Proof.
  unfold request_guarded, onRequest, onMessage, forwardable, has_truthy.
  destruct (active s); [|right; split; reflexivity].
  destruct (member data "args") as [args|]; [|right; split; reflexivity].
  destruct (truthy args); [|right; split; reflexivity]. cbn [negb].
  destruct (member data "cmd") as [cmd|]; [|right; split; reflexivity].
  destruct (truthy cmd); [|right; split; reflexivity]. by left.
Qed.

Lemma split_at_message (acts new pre post : list Action) m :
  acts ++ new = pre ++ HandlerMessage m :: post ->
  (exists post', acts = pre ++ HandlerMessage m :: post')
  \/ (exists l, pre = acts ++ l /\ new = l ++ HandlerMessage m :: post).
Proof.
  intros Heq. apply app_eq_app in Heq as [l [[-> Hl]|[-> Hl]]].
  - destruct l as [|a l].
    + right. exists []. rewrite !app_nil_r. cbn in Hl. by split.
    + injection Hl as <- ->. left. by eexists.
  - right. by exists l.
Qed.

Lemma no_message_inside (new l post : list Action) m :
  messages new = [] -> new <> l ++ HandlerMessage m :: post.
Proof.
  intros Hnone ->. rewrite messages_app in Hnone.
  by destruct (messages l).
Qed.

Lemma dispatch_guarded s acts ev :
  guarded s acts ->
  guarded (dispatch message (s, acts) ev).1 (dispatch message (s, acts) ev).2.
Proof.
  intros (Hon & Hoff & Hmsg). destruct ev as [event data].
  unfold guarded, dispatch. destruct event; [| |done..].
  { destruct (onHandshake_cases s data)
      as [[-> Ha]|[(s' & new & -> & Ha' & Hact & Hc & Hm & _)|(cid & -> & Ha)]];
      cbn [fst snd].
    - assert (active s = false) as Hs.
      { destruct (active s) eqn:E; [|done]. destruct (Hon eq_refl). congruence. }
      destruct (Hoff Hs) as [Hc Hm]. split_and!.
      + cbn. congruence.
      + intros _. by rewrite connections_app, messages_app, Hc, Hm.
      + intros pre m post Heq. exfalso.
        assert (messages (acts ++ onReadError message) = []) as Hnone
          by by rewrite messages_app, Hm.
        rewrite Heq, messages_app in Hnone. by destruct (messages pre).
    - split_and!.
      + rewrite Hact. intros Hs. destruct (Hon Hs) as [_ Hl].
        split; [done|]. by rewrite connections_app, Hc, app_nil_r.
      + rewrite Hact. intros Hs. destruct (Hoff Hs) as [Hc0 Hm0].
        by rewrite connections_app, messages_app, Hc, Hm, Hc0, Hm0.
      + intros pre m post Heq.
        apply split_at_message in Heq as [[post' ->]|(l & _ & Hnew)].
        * by apply (Hmsg pre m post').
        * by apply no_message_inside in Hnew.
    - assert (active s = false) as Hs.
      { destruct (active s) eqn:E; [|done]. destruct (Hon eq_refl). congruence. }
      destruct (Hoff Hs) as [Hc Hm]. split_and!.
      + intros _. split; [done|]. by rewrite connections_app, Hc.
      + done.
      + intros pre m post Heq. exfalso.
        assert (messages (acts ++ [HandlerConnection cid]) = []) as Hnone
          by by rewrite messages_app, Hm.
        rewrite Heq, messages_app in Hnone. by destruct (messages pre). }
  cbn [fst snd].
  destruct (request_guarded_cases s data) as [(-> & Hs & Hf)|[Hc Hm]].
  - destruct (Hon Hs) as [Ha Hl]. split_and!.
    + intros _. split; [done|]. by rewrite connections_app, app_nil_r.
    + congruence.
    + intros pre m post Heq.
      apply split_at_message in Heq as [[post' ->]|(l & -> & Hnew)].
      * by apply (Hmsg pre m post').
      * destruct l as [|a l].
        -- injection Hnew as <- _. by rewrite app_nil_r.
        -- injection Hnew as _ Hnew. by destruct l.
  - split_and!.
    + intros Hs. destruct (Hon Hs) as [Ha Hl].
      split; [done|]. by rewrite connections_app, Hc, app_nil_r.
    + intros Hs. destruct (Hoff Hs) as [Hc0 Hm0].
      by rewrite connections_app, messages_app, Hc, Hm, Hc0, Hm0.
    + intros pre m post Heq.
      apply split_at_message in Heq as [[post' ->]|(l & _ & Hnew)].
      * by apply (Hmsg pre m post').
      * by apply no_message_inside in Hnew.
Qed.

Lemma run_guarded events s acts :
  guarded s acts ->
  guarded (foldl (dispatch message) (s, acts) events).1
          (foldl (dispatch message) (s, acts) events).2.
Proof.
  revert s acts. induction events as [|ev events IH]; intros s acts Hg; [done|].
  cbn [foldl]. pose proof (dispatch_guarded s acts ev Hg) as Hg'.
  destruct (dispatch message (s, acts) ev) as [s' acts']. by apply IH.
Qed.




End Sessions.

Section SessionProperties.

Import Json IPC Wire Conn.

Context `{Codec}.

(** X21. Whatever events a connection emits, its listeners announce it to
    the server at most once, and they forward a message only after that
    announcement and only when the message has a truthy [args] and a
    truthy [cmd]. *)
Theorem one_connection_then_messages message events :
  let acts := (attend message events).2 in
  (length (connections acts) <= 1)%nat
  /\ forall pre m post,
       acts = pre ++ HandlerMessage m :: post ->
       length (connections pre) = 1%nat /\ forwardable m.
Proof.
  assert (guarded AWAITING_HANDSHAKE []) as H0.
  { split_and!; [done..|]. intros pre m post Heq. by destruct pre. }
  pose proof (run_guarded message events _ _ H0) as (Hon & Hoff & Hmsg).
  fold (attend message events) in Hon, Hoff, Hmsg.
  cbn zeta. split; [|done].
  destruct (active (attend message events).1) eqn:E.
  - destruct (Hon eq_refl) as [_ ->]. lia.
  - destruct (Hoff eq_refl) as [-> _]. cbn. lia.
Qed.


(** X25. The two transports agree on the version: the native server
    accepts the handshake of a client with version text [version] and
    client id [cid] exactly when the WebSocket server accepts the same
    version and id with the default encoding and the id is not empty. *)
Theorem transports_agree version cid :
  onHandshake AWAITING_HANDSHAKE (handshake_params version cid)
  = Ok ({| handshook := true; awaiting := false; active := true;
           clientId := Some (JStr cid) |}, [HandlerConnection (JStr cid)])
  <-> WS.onConnection
        {| WS.v := version; WS.encoding := None; WS.client_id := Some cid |}
      = [WS.HandlerConnection cid "json"]
      /\ cid <> EmptyString.
Proof.
  assert (parseInt (nullish (match version with
                             | Some s => Some (JStr s)
                             | None => None
                             end) (JStr "1"))
          = Js.parseInt10 (Js.nullish version "1")) as Hver
    by by destruct version.
  assert (WS.onConnection
            {| WS.v := version; WS.encoding := None;
               WS.client_id := Some cid |}
          = if negb (bool_decide
                       (Js.parseInt10 (Js.nullish version "1") = Some 1))
            then [WS.Log "unsupported version requested"; WS.SocketClose]
            else [WS.HandlerConnection cid "json"]) as -> by reflexivity.
  rewrite <-Hver.
  assert (onHandshake AWAITING_HANDSHAKE (handshake_params version cid)
          = if negb (bool_decide
                       (parseInt (nullish (match version with
                                           | Some s => Some (JStr s)
                                           | None => None
                                           end) (JStr "1")) = Some 1))
            then Ok (gone AWAITING_HANDSHAKE,
                     Log "unsupported version requested"
                       :: close INVALID_VERSION)
            else if strict_eq_empty (JStr cid)
                 then Ok (gone AWAITING_HANDSHAKE,
                          Log "client id required" :: close INVALID_CLIENTID)
                 else Ok ({| handshook := true; awaiting := false;
                             active := true; clientId := Some (JStr cid) |},
                          [HandlerConnection (JStr cid)])) as ->.
  { by destruct version. }
  destruct (bool_decide _); cbn [negb].
  - destruct cid as [|c cid]; cbn [strict_eq_empty].
    + split; [discriminate | by intros [_ ?]].
    + split; [done | done].
  - split; [discriminate | intros [? _]; discriminate].
Qed.

End SessionProperties.


Section Forwarding.

Import Json IPC Wire Conn.

Context `{Codec}.





End Forwarding.


Section EndToEnd.

Import Json IPC Wire Stream Conn.

Context `{Codec}.




End EndToEnd.


(** ** Start-up and the scan timer *)

Section StartupProperties.

Import Startup.

Local Abbreviation in_use := (Failure (Some "EADDRINUSE")).

Lemma try_ports_range listen n lo :
  match try_ports listen (map (fun i => lo + Z.of_nat i) (seq 0 n)) with
  | Listening port =>
      lo <= port < lo + Z.of_nat n /\ listen port = Success
      /\ forall q, lo <= q < port -> listen q = in_use
  | Rethrown port code =>
      lo <= port < lo + Z.of_nat n /\ listen port = Failure code
      /\ code <> Some "EADDRINUSE"
      /\ forall q, lo <= q < port -> listen q = in_use
  | NoAvailablePorts =>
      forall q, lo <= q < lo + Z.of_nat n -> listen q = in_use
  end.
Proof.
  revert lo. induction n as [|n IH]; intros lo.
  - cbn. intros q Hq. lia.
  - rewrite <-cons_seq, <-fmap_S_seq. cbn [map]. rewrite map_map.
    rewrite (map_ext _ (fun i => (lo + 1) + Z.of_nat i)) by (intros; lia).
    cbn [try_ports]. replace (lo + Z.of_nat 0) with lo by lia.
    destruct (listen lo) as [|code] eqn:E.
    + split_and!; [lia | lia | done | intros; lia].
    + destruct (bool_decide (code = Some "EADDRINUSE")) eqn:Ec.
      * apply bool_decide_eq_true in Ec as ->. specialize (IH (lo + 1)).
        destruct (try_ports listen _) as [port|port code|].
        -- destruct IH as (Hr & Hs & Hq). split_and!; [lia | lia | done |].
           intros q Hlt. destruct (decide (q = lo)) as [->|?]; [done|].
           apply Hq. lia.
        -- destruct IH as (Hr & Hs & Hc & Hq).
           split_and!; [lia | lia | done | done |].
           intros q Hlt. destruct (decide (q = lo)) as [->|?]; [done|].
           apply Hq. lia.
        -- intros q Hlt. destruct (decide (q = lo)) as [->|?]; [done|].
           apply IH. lia.
      * apply bool_decide_eq_false in Ec.
        split_and!; [lia | lia | done | done | intros; lia].
Qed.

Lemma probe_from_spec win32 SOCKET_PATH connect n i :
  match probe_from win32 SOCKET_PATH connect n i with
  | (Some path, unlinked) =>
      (exists k, (i <= k < i + n)%nat /\ path = socket_path SOCKET_PATH k
                 /\ forall j, (i <= j < k)%nat ->
                      unused (connect (socket_path SOCKET_PATH j)) = false)
      /\ unused (connect path) = true
      /\ unlinked = (if win32 then [] else [path])
  | (None, unlinked) =>
      unlinked = []
      /\ forall j, (i <= j < i + n)%nat ->
           unused (connect (socket_path SOCKET_PATH j)) = false
  end.
Proof.
  revert i. induction n as [|n IH]; intros i; cbn [probe_from].
  - split; [done|]. intros j Hj. lia.
  - destruct (unused (connect (socket_path SOCKET_PATH i))) eqn:E.
    + split_and!; [|done..]. exists i.
      split_and!; [lia | lia | done | intros; lia].
    + specialize (IH (S i)).
      destruct (probe_from win32 SOCKET_PATH connect n (S i))
        as [[path|] unlinked].
      * destruct IH as ((k & Hk & -> & Hj) & Hu & Hl). split_and!; [|done..].
        exists k. split_and!; [lia | lia | done |].
        intros j Hlt. destruct (decide (j = i)) as [->|?]; [done|].
        apply Hj. lia.
      * destruct IH as [-> Hj]. split; [done|].
        intros j Hlt. destruct (decide (j = i)) as [->|?]; [done|].
        apply Hj. lia.
Qed.

(** X26. [WSServer.start] listens on the lowest port of 6463-6472 that is
    not in use.  It gives up with the error of [listen] at the first port
    that fails for another reason, having found the ports below it in
    use, and it reports that no port is available only when all ten are
    in use. *)
Theorem start_outcomes listen :
  match start listen with
  | Listening port =>
      6463 <= port <= 6472 /\ listen port = Success
      /\ forall q, 6463 <= q < port -> listen q = Failure (Some "EADDRINUSE")
  | Rethrown port code =>
      6463 <= port <= 6472 /\ listen port = Failure code
      /\ code <> Some "EADDRINUSE"
      /\ forall q, 6463 <= q < port -> listen q = Failure (Some "EADDRINUSE")
  | NoAvailablePorts =>
      forall q, 6463 <= q <= 6472 -> listen q = Failure (Some "EADDRINUSE")
  end.
Proof.
  pose proof (try_ports_range listen 10 6463) as H. unfold start, ports.
  change (Z.to_nat (portRange.2 - portRange.1 + 1)) with 10%nat.
  change (portRange.1) with 6463.
  destruct (try_ports listen _) as [port|port code|].
  - destruct H as (Hr & Hs & Hq). split_and!; [lia..|done|done].
  - destruct H as (Hr & Hs & Hc & Hq). split_and!; [lia..|done|done|done].
  - intros q Hq. apply H. lia.
Qed.

(** X27. [getAvailableSocket] returns the path of the lowest index below
    10 where nobody listens, and on other systems than Windows removes
    the file at that path and no other; it never removes the socket of a
    server that answered.  It throws only when all ten paths are taken,
    having removed nothing. *)
Theorem getAvailableSocket_outcomes win32 SOCKET_PATH connect :
  match getAvailableSocket win32 SOCKET_PATH connect with
  | (Some path, unlinked) =>
      (exists k, (k < 10)%nat /\ path = socket_path SOCKET_PATH k
                 /\ forall j, (j < k)%nat ->
                      unused (connect (socket_path SOCKET_PATH j)) = false)
      /\ unused (connect path) = true
      /\ unlinked = (if win32 then [] else [path])
      /\ forall p, p ∈ unlinked -> connect p <> Success
  | (None, unlinked) =>
      unlinked = []
      /\ forall j, (j < 10)%nat ->
           unused (connect (socket_path SOCKET_PATH j)) = false
  end.
Proof.
  pose proof (probe_from_spec win32 SOCKET_PATH connect 10 0) as H.
  unfold getAvailableSocket.
  destruct (probe_from win32 SOCKET_PATH connect 10 0) as [[path|] unlinked].
  - destruct H as ((k & Hk & -> & Hj) & Hu & ->). split_and!; [|done..|].
    + exists k. split_and!; [lia | done |]. intros j Hlt. apply Hj. lia.
    + intros p Hp Hs. destruct win32; [by apply elem_of_nil in Hp|].
      apply list_elem_of_singleton in Hp as ->. by rewrite Hs in Hu.
  - destruct H as [-> Hj]. split; [done|]. intros j Hlt. apply Hj. lia.
Qed.

End StartupProperties.

Section TimerProperties.

Import Process Timer.

(** X28. The timer never starts two scans less than a second apart: with
    a clock that does not run backwards, a tick either leaves the server
    as it is and sends nothing, or starts a scan whose recorded start is
    at least [MIN_SCAN_INTERVAL] after the one recorded before. *)
Theorem tick_rate_limited clock srv processes calls0 :
  (forall n m, (n <= m)%nat -> clock n <= clock m) ->
  isScanning srv = false ->
  let '(srv', out, _) := tick clock srv processes calls0 in
  (srv' = srv /\ out = [] /\ clock calls0 - lastScanTime srv < MIN_SCAN_INTERVAL)
  \/ (lastScanTime srv' = clock (S calls0)
      /\ MIN_SCAN_INTERVAL <= lastScanTime srv' - lastScanTime srv).
Proof.
  intros Hmono Hidle. unfold tick. cbn zeta.
  destruct (MIN_SCAN_INTERVAL <=? clock calls0 - lastScanTime srv) eqn:E.
  - apply Z.leb_le in E. unfold scan. rewrite Hidle.
    destruct (handleScanResults _ _) as [en out]. cbn [lastScanTime].
    right. split; [done|]. specialize (Hmono calls0 (S calls0)). lia.
  - apply Z.leb_gt in E. by left.
Qed.

End TimerProperties.

Lemma tick_rate_limited_witness :
  let '(srv', out, _) :=
    Timer.tick Scenario.clock (Process.init Scenario.db)
      [Scenario.game_process []] 0 in
  (srv' = Process.init Scenario.db /\ out = []
   /\ Scenario.clock 0%nat - Process.lastScanTime (Process.init Scenario.db)
      < Timer.MIN_SCAN_INTERVAL)
  \/ (Process.lastScanTime srv' = Scenario.clock 1%nat
      /\ Timer.MIN_SCAN_INTERVAL
         <= Process.lastScanTime srv'
            - Process.lastScanTime (Process.init Scenario.db)).
Proof.
  assert (forall n m, (n <= m)%nat -> Scenario.clock n <= Scenario.clock m)
    as Hmono by (intros n m Hnm; unfold Scenario.clock; lia).
  exact (tick_rate_limited Scenario.clock (Process.init Scenario.db)
           [Scenario.game_process []] 0 Hmono eq_refl).
Defined.
